(** * Laghos: the Lagrangian hydrodynamics right-hand-side evaluator

    A shallow embedding of [LagrangianHydroOperator] (laghos_solver.cpp) and of
    the quadrature-data containers and partial-assembly operators declared in
    laghos_assembly.hpp, together with the properties of the quadrature update,
    of the time-step estimate, of the derivative evaluation [Mult] and of
    [MassPAOperator::EliminateRHS].

    The C++ code computes on [double].  The embedding is written once, over an
    interface [Scalar] of the arithmetic the code uses, and is instantiated
    - at the binary64 floats of the kernel ([Float64]), where every definition
      runs exactly as the C++ does (infinities, NaN, division by zero), and
    - at exact commutative rings ([RingLaws]), for the statements that the
      specification makes "in exact arithmetic". *)

From Stdlib Require Import ZArith List Bool Lia Ring Floats.
From stdpp Require Import base list.

Set Default Proof Using "Type*".

(** ** The arithmetic interface *)

(** The ring fragment: all that the vector and matrix kernels need. *)
Class RingOps (T : Type) := {
  zero : T;
  one : T;
  add : T -> T -> T;
  mul : T -> T -> T;
  neg : T -> T;
}.

(** The rest of what the solver does with a [double]: the literals it writes,
    division, [sqrt], [fabs], the comparisons and [numeric_limits::infinity]. *)
Class Scalar (T : Type) := {
  scalar_ring :: RingOps T;
  two : T;           (* the literal 2.0 *)
  half : T;          (* the literal 0.5 *)
  tol_1em8 : T;      (* the literal 1e-8 *)
  sub : T -> T -> T;
  div : T -> T -> T;
  fsqrt : T -> T;
  fabs : T -> T;
  ltb : T -> T -> bool;
  leb : T -> T -> bool;
  infinity : T;
}.

(** [std::min] and [std::max] as the C++ library defines them:
    [min(a,b) = (b < a) ? b : a] and [max(a,b) = (a < b) ? b : a]. *)
Definition fmin {T} `{Scalar T} (a b : T) : T := if ltb b a then b else a.
Definition fmax {T} `{Scalar T} (a b : T) : T := if ltb a b then b else a.

(** [b] is [a] or lies strictly below it. *)
Definition not_above {T} `{Scalar T} (a b : T) : Prop := b = a \/ ltb b a = true.

(** Laws of a commutative ring (exact arithmetic). *)
Class RingLaws (T : Type) `{RingOps T} : Prop := {
  add_comm : forall a b : T, add a b = add b a;
  add_assoc : forall a b c : T, add a (add b c) = add (add a b) c;
  add_0_l : forall a : T, add zero a = a;
  add_neg_r : forall a : T, add a (neg a) = zero;
  mul_comm : forall a b : T, mul a b = mul b a;
  mul_assoc : forall a b c : T, mul a (mul b c) = mul (mul a b) c;
  mul_1_l : forall a : T, mul one a = a;
  mul_add_distr_l : forall a b c : T, mul a (add b c) = add (mul a b) (mul a c);
}.

(** Laws of the comparisons.  They hold for the IEEE comparisons (where every
    comparison with a NaN is false) as well as for an ordered field. *)
Class OrderLaws (T : Type) `{Scalar T} : Prop := {
  ltb_irrefl : forall a : T, ltb a a = false;
  ltb_asym : forall a b : T, ltb a b = true -> ltb b a = false;
  ltb_trans : forall a b c : T, ltb a b = true -> ltb b c = true -> ltb a c = true;
  leb_not_ltb : forall a b : T, leb a b = true -> ltb b a = false;
}.

(** Laws of the IEEE special values that the time-step estimate relies on. *)
Class IeeeLaws (T : Type) `{Scalar T} : Prop := {
  fsqrt_zero : fsqrt zero = zero;
  div_pos_zero : forall a : T, ltb zero a = true -> div a zero = infinity;
  ltb_infinity : forall a : T, ltb infinity a = false;
}.

(** ** binary64 *)

#[export] Instance Float64_ring : RingOps float := {
  zero := 0%float;
  one := 1%float;
  add := PrimFloat.add;
  mul := PrimFloat.mul;
  neg := PrimFloat.opp;
}.

#[export] Instance Float64 : Scalar float := {
  scalar_ring := Float64_ring;
  two := 2%float;
  half := 0.5%float;
  tol_1em8 := 0x1.5798ee2308c3ap-27%float;  (* 1e-8 *)
  sub := PrimFloat.sub;
  div := PrimFloat.div;
  fsqrt := PrimFloat.sqrt;
  fabs := PrimFloat.abs;
  ltb := PrimFloat.ltb;
  leb := PrimFloat.leb;
  infinity := PrimFloat.infinity;
}.

(** ** The integers, an exact commutative ring that computes *)

#[export] Instance Z_ring : RingOps Z := {
  zero := 0%Z;
  one := 1%Z;
  add := Z.add;
  mul := Z.mul;
  neg := Z.opp;
}.

#[export] Instance Z_ring_laws : RingLaws Z.
Proof. split; intros; cbn; lia. Qed.

(** ** Vectors, dense matrices and dense tensors (MFEM's containers) *)

(** [mfem::Vector]: a contiguous array of doubles. *)
Abbreviation Vector := list (only parsing).

Section Containers.
Context {T : Type} `{RingOps T}.

(** [v(k)].  Reading past the end is undefined behaviour in C++; the model
    reads [zero] there, and the hypotheses of the theorems keep the indices of
    the solver within the arrays. *)
Definition vget (v : Vector T) (k : nat) : T := default zero (v !! k).

(** [mfem::DenseMatrix]: [height] x [width], stored column by column, the
    entry (i,j) at offset [i + j*height]. *)
Record DenseMatrix := mkDenseMatrix {
  height : nat;
  width : nat;
  data : list T;
}.

Definition mat_index (A : DenseMatrix) (i j : nat) : nat := i + j * height A.

(** [A(i,j)] *)
Definition mat_get (A : DenseMatrix) (i j : nat) : T := vget (data A) (mat_index A i j).

(** [A(i,j) = x] *)
Definition mat_set (A : DenseMatrix) (i j : nat) (x : T) : DenseMatrix :=
  mkDenseMatrix (height A) (width A) (<[mat_index A i j := x]> (data A)).

(** [A = c]: every entry becomes [c]. *)
Definition mat_assign (A : DenseMatrix) (c : T) : DenseMatrix :=
  mkDenseMatrix (height A) (width A) (replicate (length (data A)) c).

(** [DenseMatrix A(s)]: a square matrix of size [s]. *)
Definition mat_square (s : nat) : DenseMatrix :=
  mkDenseMatrix s s (replicate (s * s) zero).

(** [A.Add(c, B)]: [A(i,j) += c * B(i,j)] for every entry. *)
Definition mat_Add (A : DenseMatrix) (c : T) (B : DenseMatrix) : DenseMatrix :=
  mkDenseMatrix (height A) (width A)
    (zip_with (fun a b => add a (mul c b)) (data A) (data B)).

(** [A *= c]: [A(i,j) = A(i,j) * c] for every entry. *)
Definition mat_scale (A : DenseMatrix) (c : T) : DenseMatrix :=
  mkDenseMatrix (height A) (width A) (map (fun a => mul a c) (data A)).

(** A square matrix of size [n] with all of its storage. *)
Definition mat_shape (A : DenseMatrix) (n : nat) : Prop :=
  height A = n /\ width A = n /\ length (data A) = n * n.

(** [mfem::DenseTensor]: [SizeK] matrices of [SizeI] x [SizeJ] in one array,
    the entry (i,j,k) at offset [i + SizeI*(j + SizeJ*k)]. *)
Record DenseTensor := mkDenseTensor {
  SizeI : nat;
  SizeJ : nat;
  SizeK : nat;
  tdata : list T;
}.

Definition tensor_index (A : DenseTensor) (i j k : nat) : nat :=
  i + SizeI A * (j + SizeJ A * k).

(** [DenseTensor A(i, j, k)] and [Vector v(n)] size their storage and do not
    initialise it: the content is what the memory held, [mem] by offset. *)
Definition tensor_alloc (i j k : nat) (mem : nat -> T) : DenseTensor :=
  mkDenseTensor i j k (map mem (seq 0 (i * j * k))).

Definition vector_alloc (n : nat) (mem : nat -> T) : list T := map mem (seq 0 n).

(** A tensor of the given sizes whose entries are all 0.0 (an allocation
    followed by [A = 0.0]): the stores of the examples are built with it. *)
Definition tensor_zero (i j k : nat) : DenseTensor :=
  mkDenseTensor i j k (replicate (i * j * k) zero).

(** [A(k)(i,j)], read *)
Definition tensor_get (A : DenseTensor) (k i j : nat) : T :=
  vget (tdata A) (tensor_index A i j k).

(** [A(k)(i,j) = x] *)
Definition tensor_set (A : DenseTensor) (k i j : nat) (x : T) : DenseTensor :=
  mkDenseTensor (SizeI A) (SizeJ A) (SizeK A) (<[tensor_index A i j k := x]> (tdata A)).

(** [A(k)]: the k-th matrix of the tensor. *)
Definition tensor_mat (A : DenseTensor) (k : nat) : DenseMatrix :=
  mkDenseMatrix (SizeI A) (SizeJ A)
    (take (SizeI A * SizeJ A) (drop (k * (SizeI A * SizeJ A)) (tdata A))).

(** The tensor of the force coefficients as the constructor sizes it:
    [n] points, [d] x [d] entries per point. *)
Definition tensor_shape (A : DenseTensor) (n d : nat) : Prop :=
  SizeI A = n /\ SizeJ A = d /\ SizeK A = d /\ length (tdata A) = n * d * d.

(** [for (int k = 0; k < n; k++) body], threading the state. *)
Definition for_loop {S : Type} (n : nat) (body : nat -> S -> S) (s : S) : S :=
  fold_left (fun s k => body k s) (seq 0 n) s.

End Containers.

Arguments DenseMatrix T : clear implicits.
Arguments DenseTensor T : clear implicits.

(** ** The collaborators: MFEM and the equation of state *)

(** The dense linear algebra of MFEM that the quadrature update calls, and the
    finite element queries at a quadrature point.  The mesh nodes are the
    position block of the state [S] ([NewNodes] in the callers), so every
    geometric query takes [S]. *)
Class Mfem (T : Type) := {
  (* DenseMatrix::Symmetrize *)
  Symmetrize : DenseMatrix T -> DenseMatrix T;
  (* DenseMatrix::CalcEigenvalues(lambda, vec): the eigenvalues in ascending
     order and the eigenvectors, one after the other *)
  CalcEigenvalues : DenseMatrix T -> list T * list T;
  (* mfem::Mult(A, B, C): C = A B *)
  MatMult : DenseMatrix T -> DenseMatrix T -> DenseMatrix T;
  (* DenseMatrix::Mult(x, y): y = A x *)
  MatVec : DenseMatrix T -> Vector T -> Vector T;
  (* Vector::Norml2 *)
  Norml2 : Vector T -> T;
  (* mfem::CalcInverse *)
  CalcInverse : DenseMatrix T -> DenseMatrix T;
  (* mfem::MultABt(A, B, ABt): ABt = A B^t *)
  MultABt : DenseMatrix T -> DenseMatrix T -> DenseMatrix T;
  (* integ_rule.GetNPoints() and integ_rule.IntPoint(q).weight *)
  nqp : nat;
  ip_weight : nat -> T;
  (* H1FESpace.GetElementTransformation(i) at IntPoint(q): Jacobian(), Weight() *)
  Jacobian : Vector T -> nat -> nat -> DenseMatrix T;
  Weight : Vector T -> nat -> nat -> T;
  (* e.GetValues(i, integ_rule, e_vals): e_vals(q) *)
  GetValues_e : Vector T -> nat -> nat -> T;
  (* v.GetVectorGradient(T, grad) at IntPoint(q) of zone i *)
  GetVectorGradient_v : Vector T -> nat -> nat -> DenseMatrix T;
}.

(** ** The quadrature data and the operator *)

Section Solver.
Context {T : Type} `{Scalar T} `{Mfem T}.

(** [struct QuadratureData] (laghos_assembly.hpp).  The header declares
    [stress], [Jac], [Jac0inv], [stressJinvT], [rho0DetJ0], [rhoDetJw], [h0]
    and [dt_est]; laghos_solver.cpp reads the weighted reference density
    through the member [rho0DetJ0w], which is kept here as a field of its
    own. *)
Record QuadratureData := mkQuadratureData {
  stress : DenseTensor T;
  Jac : DenseTensor T;
  Jac0inv : DenseTensor T;
  stressJinvT : DenseTensor T;
  rho0DetJ0 : Vector T;
  rhoDetJw : Vector T;
  rho0DetJ0w : Vector T;
  h0 : T;
  dt_est : T;
}.

(** What the memory holds where a [QuadratureData] is built: the content of
    the storage of each member, by offset, and the two scalars. *)
Record Uninitialised := mkUninitialised {
  mem_stress : nat -> T;
  mem_Jac : nat -> T;
  mem_Jac0inv : nat -> T;
  mem_stressJinvT : nat -> T;
  mem_rho0DetJ0 : nat -> T;
  mem_rhoDetJw : nat -> T;
  mem_rho0DetJ0w : nat -> T;
  mem_h0 : T;
  mem_dt_est : T;
}.

(** Modelled from the spec: the allocation of the member [rho0DetJ0w], which
    laghos_solver.cpp writes and reads and which the header under src/ does not
    declare.  The spec has it as "referenceMassDensityDetJweighted[scalar]" of
    a store "indexed by (zone, quadrature-point); size = zones x
    points-per-zone": one scalar per point, sized like [rho0DetJ0] and, like
    it, not initialised. *)
Definition rho0DetJ0w_alloc (nzones quads_per_zone : nat) (mem : nat -> T) : Vector T :=
  vector_alloc (nzones * quads_per_zone) mem.

(** [QuadratureData(dim, nzones, quads_per_zone)]: the initialiser list sizes
    the tensors and the vectors, the body is empty and nothing is initialised;
    every member holds what the memory held. *)
Definition QuadratureData_new (dim nzones quads_per_zone : nat) (mem : Uninitialised)
  : QuadratureData :=
  let n := nzones * quads_per_zone in
  mkQuadratureData
    (tensor_alloc dim dim n (mem_stress mem))
    (tensor_alloc dim dim n (mem_Jac mem))
    (tensor_alloc dim dim n (mem_Jac0inv mem))
    (tensor_alloc n dim dim (mem_stressJinvT mem))
    (vector_alloc n (mem_rho0DetJ0 mem))
    (vector_alloc n (mem_rhoDetJw mem))
    (rho0DetJ0w_alloc nzones quads_per_zone (mem_rho0DetJ0w mem))
    (mem_h0 mem) (mem_dt_est mem).

Definition set_dt_est (qd : QuadratureData) (x : T) : QuadratureData :=
  mkQuadratureData (stress qd) (Jac qd) (Jac0inv qd) (stressJinvT qd)
    (rho0DetJ0 qd) (rhoDetJw qd) (rho0DetJ0w qd) (h0 qd) x.

Definition set_stressJinvT (qd : QuadratureData) (A : DenseTensor T) : QuadratureData :=
  mkQuadratureData (stress qd) (Jac qd) (Jac0inv qd) A
    (rho0DetJ0 qd) (rhoDetJw qd) (rho0DetJ0w qd) (h0 qd) (dt_est qd).

(** The members of [LagrangianHydroOperator] that the evaluation reads and
    never writes.  [MaterialPressure] is declared in laghos_solver.hpp, which
    is not among the sources: the equation of state is a parameter. *)
Record HydroParams := mkHydroParams {
  dim : nat;
  zones_cnt : nat;
  source_type : Z;
  cfl : T;
  gamma : T;
  use_viscosity : bool;
  p_assembly : bool;
  MaterialPressure : T -> T -> T;
}.

(** The members that the (const) methods do write: [quad_data] and the
    [mutable] flag [quad_data_is_current]. *)
Record HydroState := mkHydroState {
  quad_data : QuadratureData;
  quad_data_is_current : bool;
}.

(** [MFEM_VERIFY(detJ > 0.0, "Bad Jacobian determinant: " << detJ)] aborts the
    run; nothing of the operator survives it.  [IndexOutOfRange] stands for an
    access outside an array in [EliminateRHS], which C++ leaves undefined. *)
Inductive outcome (A : Type) : Type :=
  | Done (a : A)
  | BadJacobianDeterminant (detJ : T)
  | IndexOutOfRange.
Arguments Done {A} a.
Arguments BadJacobianDeterminant {A} detJ.
Arguments IndexOutOfRange {A}.

Definition bind {A B} (m : outcome A) (k : A -> outcome B) : outcome B :=
  match m with
  | Done a => k a
  | BadJacobianDeterminant d => BadJacobianDeterminant d
  | IndexOutOfRange => IndexOutOfRange
  end.

(** An outcome that is a fault of the Jacobian, with a determinant that is
    not positive. *)
Definition bad_jacobian {A : Type} (o : outcome A) : Prop :=
  exists d, o = BadJacobianDeterminant d /\ ltb zero d = false.

(** A [for] loop whose body may abort. *)
Fixpoint for_each {S : Type} (ks : list nat) (body : nat -> S -> outcome S) (s : S)
  : outcome S :=
  match ks with
  | [] => Done s
  | k :: ks' => bind (body k s) (for_each ks' body)
  end.

(** *** One quadrature point of [UpdateQuadratureData] *)

(** Everything the loop body computes at the point [q] of zone [i], after the
    check of the determinant. *)
Record PointValues := mkPointValues {
  pv_rho : T;
  pv_e : T;
  pv_sgrad_v : DenseMatrix T;
  pv_mu : T;
  pv_h : T;
  pv_sound_speed : T;
  pv_dt_candidate : T;
  pv_visc_coeff : T;
  pv_stress : DenseMatrix T;
  pv_stressJiT : DenseMatrix T;
}.

(** [visc_coeff = 2.0*rho*h*h*fabs(mu); if (mu < 0.0) visc_coeff += 0.5*rho*h*sound_speed] *)
Definition visc_coeff_of (rho h mu sound_speed : T) : T :=
  let visc_coeff := mul (mul (mul (mul two rho) h) h) (fabs mu) in
  if ltb mu zero then add visc_coeff (mul (mul (mul half rho) h) sound_speed)
  else visc_coeff.

Definition point_values (P : HydroParams) (qd : QuadratureData) (S : Vector T)
    (i q : nat) : PointValues :=
  let Jpr := Jacobian S i q in
  let detJ := Weight S i q in
  (* stress = 0.0 *)
  let stress_ := mat_assign (mat_square (dim P)) zero in
  let rho := div (div (vget (rho0DetJ0w qd) (i * nqp + q)) detJ) (ip_weight q) in
  let e := fmax zero (GetValues_e S i q) in
  (* for d: stress(d,d) = - MaterialPressure(rho, e) *)
  let stress_ :=
    for_loop (dim P) (fun d st => mat_set st d d (neg (MaterialPressure P rho e))) stress_ in
  let sgrad_v := Symmetrize (GetVectorGradient_v S i q) in
  let '(eig_val_data, eig_vec_data) := CalcEigenvalues sgrad_v in
  let compr_dir := take (dim P) eig_vec_data in
  let Jpi := MatMult Jpr (tensor_mat (Jac0inv qd) (i * nqp + q)) in
  let ph_dir := MatVec Jpi compr_dir in
  let h := div (mul (h0 qd) (Norml2 ph_dir)) (Norml2 compr_dir) in
  let sound_speed := fsqrt (mul (mul (gamma P) (sub (gamma P) one)) e) in
  let dt_candidate := div (mul (cfl P) h) sound_speed in
  let mu := vget eig_val_data 0 in
  let visc_coeff := visc_coeff_of rho h mu sound_speed in
  let stress_ :=
    if use_viscosity P then mat_Add stress_ visc_coeff sgrad_v else stress_ in
  let Jinv := CalcInverse Jpr in
  let stressJiT := mat_scale (MultABt stress_ Jinv) (mul (ip_weight q) detJ) in
  mkPointValues rho e sgrad_v mu h sound_speed dt_candidate visc_coeff stress_ stressJiT.

(** The two nested loops that copy [stressJiT] into the store:
    [quad_data.stressJinvT(vd)(i*nqp + q, gd) = stressJiT(vd, gd)]. *)
Definition store_stressJiT (d : nat) (zq : nat) (stressJiT : DenseMatrix T)
    (A : DenseTensor T) : DenseTensor T :=
  for_loop d (fun vd A =>
    for_loop d (fun gd A => tensor_set A vd zq gd (mat_get stressJiT vd gd)) A) A.

(** The body of the loop over the quadrature points. *)
Definition update_point (P : HydroParams) (S : Vector T) (i q : nat)
    (qd : QuadratureData) : outcome QuadratureData :=
  let detJ := Weight S i q in
  if ltb zero detJ then
    let pv := point_values P qd S i q in
    let qd := set_dt_est qd (fmin (dt_est qd) (pv_dt_candidate pv)) in
    Done (set_stressJinvT qd
            (store_stressJiT (dim P) (i * nqp + q) (pv_stressJiT pv) (stressJinvT qd)))
  else BadJacobianDeterminant detJ.

(** The sweep over the zones and their points. *)
Definition update_zone (P : HydroParams) (S : Vector T) (i : nat)
    (qd : QuadratureData) : outcome QuadratureData :=
  for_each (seq 0 nqp) (update_point P S i) qd.

Definition sweep (P : HydroParams) (S : Vector T) (qd : QuadratureData)
  : outcome QuadratureData :=
  for_each (seq 0 (zones_cnt P)) (update_zone P S) qd.

(** [LagrangianHydroOperator::UpdateQuadratureData] *)
Definition UpdateQuadratureData (P : HydroParams) (st : HydroState) (S : Vector T)
  : outcome HydroState :=
  if quad_data_is_current st then Done st
  else
    bind (sweep P S (quad_data st)) (fun qd =>
    Done (mkHydroState qd true)).

(** [LagrangianHydroOperator::ResetTimeStepEstimate] *)
Definition ResetTimeStepEstimate (st : HydroState) : HydroState :=
  mkHydroState (set_dt_est (quad_data st) infinity) (quad_data_is_current st).

(** ** The partial-assembly mass operator and the solver calls of [Mult] *)

(** The finite element spaces a [MassPAOperator] is built on in [Mult]. *)
Inductive FESpaceId := H1compFESpace | L2FESpace.

(** [class MassPAOperator]: the quadrature data it points to, its space and
    the pointer [ess_tdofs] ([NULL] until [EliminateRHS] is called). *)
Record MassPAOperator := mkMassPAOperator {
  mpa_quad_data : QuadratureData;
  mpa_FESpace : FESpaceId;
  mpa_ess_tdofs : option (list Z);
}.

(** [MassPAOperator(quad_data_, fes)], with [ess_tdofs(NULL)]. *)
Definition MassPAOperator_new (qd : QuadratureData) (fes : FESpaceId) : MassPAOperator :=
  mkMassPAOperator qd fes None.

(** [for (int i = 0; i < dofs.Size(); i++) { b(dofs[i]) = 0.0; }].  An index
    outside [b] is undefined behaviour in C++ ([None] here). *)
Fixpoint zero_entries (dofs : list Z) (b : Vector T) : option (Vector T) :=
  match dofs with
  | [] => Some b
  | d :: dofs' =>
      if ((0 <=? d)%Z && (d <? Z.of_nat (length b))%Z)%bool
      then zero_entries dofs' (<[Z.to_nat d := zero]> b)
      else None
  end.

(** [MassPAOperator::EliminateRHS(dofs, b)]: [ess_tdofs = &dofs], then the
    loop.  The result is the operator, the array [dofs] and the vector [b]
    after the call. *)
Definition EliminateRHS (M : MassPAOperator) (dofs : list Z) (b : Vector T)
  : option (MassPAOperator * list Z * Vector T) :=
  let M' := mkMassPAOperator (mpa_quad_data M) (mpa_FESpace M) (Some dofs) in
  match zero_entries dofs b with
  | Some b' => Some (M', dofs, b')
  | None => None
  end.

(** What a [CGSolver] is asked to invert. *)
Inductive Operator :=
  | OpMassPA (M : MassPAOperator)
  | OpHypreParMatrix (A : DenseMatrix T).

(** [mfem::CGSolver] with the members its setters write. *)
Record CGSolver := mkCGSolver {
  oper : option Operator;
  rel_tol : T;
  abs_tol : T;
  max_iter : Z;
  print_level : Z;
}.

Definition SetOperator (cg : CGSolver) (op : Operator) : CGSolver :=
  mkCGSolver (Some op) (rel_tol cg) (abs_tol cg) (max_iter cg) (print_level cg).
Definition SetRelTol (cg : CGSolver) (x : T) : CGSolver :=
  mkCGSolver (oper cg) x (abs_tol cg) (max_iter cg) (print_level cg).
Definition SetAbsTol (cg : CGSolver) (x : T) : CGSolver :=
  mkCGSolver (oper cg) (rel_tol cg) x (max_iter cg) (print_level cg).
Definition SetMaxIter (cg : CGSolver) (n : Z) : CGSolver :=
  mkCGSolver (oper cg) (rel_tol cg) (abs_tol cg) n (print_level cg).
Definition SetPrintLevel (cg : CGSolver) (n : Z) : CGSolver :=
  mkCGSolver (oper cg) (rel_tol cg) (abs_tol cg) (max_iter cg) n.

(** The linear solves that an evaluation performs, in program order. *)
Inductive SolveEvent :=
  | CgMult (cg : CGSolver) (B X : Vector T)            (* cg.Mult(B, X) *)
  | DenseInverseMult (zone : nat) (e_rhs : Vector T).  (* Me_inv(i).Mult(e_rhs, de_loc) *)

(** A conjugate gradient solve on the energy mass operator: [cg.Mult] with a
    [MassPAOperator] built on [L2FESpace]. *)
Definition is_energy_cg (ev : SolveEvent) : bool :=
  match ev with
  | CgMult cg _ _ =>
      match oper cg with
      | Some (OpMassPA M) =>
          match mpa_FESpace M with L2FESpace => true | H1compFESpace => false end
      | _ => false
      end
  | DenseInverseMult _ _ => false
  end.

(** The settings of the solver behind a [cg.Mult]. *)
Definition cg_settings (ev : SolveEvent) : option (T * T * Z) :=
  match ev with
  | CgMult cg _ _ => Some (rel_tol cg, abs_tol cg, max_iter cg)
  | DenseInverseMult _ _ => None
  end.

(** The solve, if it is a [cg.Mult], runs at 1e-8, 0 and 200 iterations. *)
Definition settings_ok (ev : SolveEvent) : Prop :=
  match cg_settings ev with
  | Some s => s = (tol_1em8, zero, 200%Z)
  | None => True
  end.

(** The collaborators of [Mult]: the finite element spaces, the force and mass
    forms, the conjugate gradient solver.  [ForcePAOperator::Mult] and
    [MultTranspose], the [ForceIntegrator] behind [Force.Assemble] and the
    [TaylorCoefficient] of the energy source are code of Laghos whose bodies
    are not among the sources; the others are MFEM. *)
Class Collaborators := {
  H1_GetVSize : nat;
  L2_GetVSize : nat;
  H1comp_GetVSize : nat;
  H1comp_TrueVSize : nat;
  (* ess_bdr = 0; ess_bdr[c] = 1; H1compFESpace.GetEssentialTrueDofs(ess_bdr, c_tdofs) *)
  H1comp_GetEssentialTrueDofs : nat -> list Z;
  (* H1compFESpace.Dof_TrueDof_Matrix(): MultTranspose and Mult *)
  P_MultTranspose : Vector T -> Vector T;
  P_Mult : Vector T -> Vector T;
  (* H1compFESpace.GetRestrictionMatrix()->Mult *)
  R_Mult : Vector T -> Vector T;
  ForcePA_Mult : QuadratureData -> Vector T -> Vector T;
  ForcePA_MultTranspose : QuadratureData -> Vector T -> Vector T;
  (* Force = 0.0; Force.Assemble() *)
  Force_Assemble : QuadratureData -> DenseMatrix T;
  (* Force.Mult(x, y) *)
  Force_Mult : DenseMatrix T -> Vector T -> Vector T;
  (* Mv.FormLinearSystem(ess_tdofs, dv, rhs, A, X, B): A, X and B *)
  Mv_FormLinearSystem : list Z -> Vector T -> Vector T
                        -> DenseMatrix T * Vector T * Vector T;
  (* Mv.RecoverFEMSolution(X, rhs, dv): dv *)
  Mv_RecoverFEMSolution : Vector T -> Vector T -> Vector T -> Vector T;
  (* the assembled LinearForm of the Taylor-Green source *)
  e_source_Assemble : Vector T -> Vector T;
  (* H1FESpace.GetElementVDofs(i, h1dofs) and L2FESpace.GetElementDofs(i, l2dofs) *)
  H1_GetElementVDofs : nat -> list Z;
  L2_GetElementDofs : nat -> list Z;
  (* Force.SpMat().GetSubMatrix(h1dofs, l2dofs, loc_Force) *)
  GetSubMatrix : DenseMatrix T -> list Z -> list Z -> DenseMatrix T;
  GetSubVector : Vector T -> list Z -> Vector T;
  SetSubVector : Vector T -> list Z -> Vector T -> Vector T;
  (* DenseMatrix::MultTranspose(x, y): y = A^t x *)
  MatMultTranspose : DenseMatrix T -> Vector T -> Vector T;
  (* Me_inv(i) *)
  Me_inv : nat -> DenseMatrix T;
  (* the member ess_tdofs of the operator *)
  ess_tdofs : list Z;
  (* CGSolver cg(comm), and cg.Mult(B, X): the X it leaves *)
  CGSolver_new : CGSolver;
  cg_Mult : CGSolver -> Vector T -> Vector T -> Vector T;
  (* MPI_Allreduce(.., MPI_MIN, ..) *)
  MPI_Allreduce_min : T -> T;
}.
Context `{Collaborators}.

(** [Vector v(n); v = c]. *)
Definition vec_const (n : nat) (c : T) : Vector T := replicate n c.

(** [v.Neg()]: [v(i) = -v(i)]. *)
Definition vec_Neg (v : Vector T) : Vector T := map neg v.

(** [a += b], entry by entry. *)
Definition vec_add_assign (a b : Vector T) : Vector T := zip_with add a b.

(** The view [Vector(v.GetData() + off, n)] (what [MakeRef] sets up), read and
    written back. *)
Definition subvec (off n : nat) (v : Vector T) : Vector T := take n (drop off v).
Definition set_subvec (off : nat) (blk v : Vector T) : Vector T :=
  take off v ++ take (length v - off) blk ++ drop (off + length blk) v.

(** What [Mult] threads through its loops: the derivative and the solves. *)
Record MultAcc := mkMultAcc {
  acc_dS_dt : Vector T;
  acc_log : list SolveEvent;
}.

(** The configuration calls that precede every [cg.Mult] in [Mult]. *)
Definition configure_cg (op : Operator) : CGSolver :=
  SetPrintLevel
    (SetMaxIter (SetAbsTol (SetRelTol (SetOperator CGSolver_new op) tol_1em8) zero) 200) 0.

(** The partial-assembly velocity solve, component [c]: the body of the loop
    over the components, which shares the operator [VMassPA]. *)
Definition velocity_pa_component (rhs : Vector T) (c : nat)
    (s : MassPAOperator * MultAcc) : outcome (MassPAOperator * MultAcc) :=
  let '(VMassPA, acc) := s in
  let size := H1comp_GetVSize in
  let rhs_c := subvec (c * size) size rhs in
  let c_tdofs := H1comp_GetEssentialTrueDofs c in
  (* dv_c = 0.0 *)
  let dv_c := vec_const size zero in
  let B := P_MultTranspose rhs_c in
  let X := R_Mult dv_c in
  match EliminateRHS VMassPA c_tdofs B with
  | None => IndexOutOfRange
  | Some (VMassPA, _, B) =>
      let cg := configure_cg (OpMassPA VMassPA) in
      let X' := cg_Mult cg B X in
      let dv_c := P_Mult X' in
      Done (VMassPA,
            mkMultAcc (set_subvec (H1_GetVSize + c * size) dv_c (acc_dS_dt acc))
                      (acc_log acc ++ [CgMult cg B X]))
  end.


(** The full-assembly velocity solve. *)
Definition velocity_full (Force : DenseMatrix T) (one_ : Vector T) (acc : MultAcc)
  : MultAcc :=
  let rhs := vec_Neg (Force_Mult Force one_) in
  (* dv = 0.0 *)
  let dv := vec_const H1_GetVSize zero in
  let '(A, X, B) := Mv_FormLinearSystem ess_tdofs dv rhs in
  let cg := configure_cg (OpHypreParMatrix A) in
  let X' := cg_Mult cg B X in
  let dv := Mv_RecoverFEMSolution X' rhs dv in
  mkMultAcc (set_subvec H1_GetVSize dv (acc_dS_dt acc))
            (acc_log acc ++ [CgMult cg B X]).

(** The partial-assembly energy solve. *)
Definition energy_pa (qd : QuadratureData) (v : Vector T) (e_source : option (Vector T))
    (acc : MultAcc) : MultAcc :=
  let rhs := ForcePA_MultTranspose qd v in
  let rhs := match e_source with Some s => vec_add_assign rhs s | None => rhs end in
  let EMassPA := MassPAOperator_new qd L2FESpace in
  let cg := configure_cg (OpMassPA EMassPA) in
  let de := subvec (H1_GetVSize * 2) L2_GetVSize (acc_dS_dt acc) in
  let de' := cg_Mult cg rhs de in
  mkMultAcc (set_subvec (H1_GetVSize * 2) de' (acc_dS_dt acc))
            (acc_log acc ++ [CgMult cg rhs de]).

(** The full-assembly energy solve, zone [i]: the local inverse mass matrix. *)
Definition energy_full_zone (Force : DenseMatrix T) (v : Vector T)
    (e_source : option (Vector T)) (i : nat) (acc : MultAcc) : MultAcc :=
  let h1dofs := H1_GetElementVDofs i in
  let l2dofs := L2_GetElementDofs i in
  let loc_Force := GetSubMatrix Force h1dofs l2dofs in
  let v_vals := GetSubVector v h1dofs in
  let e_rhs := MatMultTranspose loc_Force v_vals in
  let e_rhs :=
    match e_source with
    | Some s => vec_add_assign e_rhs (GetSubVector s l2dofs)
    | None => e_rhs
    end in
  let de_loc := MatVec (Me_inv i) e_rhs in
  let de := subvec (H1_GetVSize * 2) L2_GetVSize (acc_dS_dt acc) in
  mkMultAcc (set_subvec (H1_GetVSize * 2) (SetSubVector de l2dofs de_loc) (acc_dS_dt acc))
            (acc_log acc ++ [DenseInverseMult i e_rhs]).

(** [LagrangianHydroOperator::Mult(S, dS_dt)]: the state of the operator, the
    derivative and the solves performed.  The member [Force] is assembled
    anew in every evaluation without partial assembly and is read by no other
    method, so it is a local value here. *)
Definition Mult (P : HydroParams) (st : HydroState) (S dS_dt : Vector T)
  : outcome (HydroState * Vector T * list SolveEvent) :=
  (* dS_dt = 0.0 *)
  let dS := vec_const (length dS_dt) zero in
  bind (UpdateQuadratureData P st S) (fun st =>
  let qd := quad_data st in
  let Vsize_l2 := L2_GetVSize in
  let Vsize_h1 := H1_GetVSize in
  let v := subvec Vsize_h1 Vsize_h1 S in
  (* dx = v *)
  let acc := mkMultAcc (set_subvec 0 v dS) [] in
  (* if (!p_assembly) { Force = 0.0; Force.Assemble(); } *)
  let Force := Force_Assemble qd in
  (* Solve for velocity. *)
  let one_ := vec_const Vsize_l2 one in
  bind (if p_assembly P then
          let rhs := vec_Neg (ForcePA_Mult qd one_) in
          (* MassPAOperator VMassPA(&quad_data, H1compFESpace) *)
          let VMassPA := MassPAOperator_new qd H1compFESpace in
          bind (for_each (seq 0 (dim P)) (velocity_pa_component rhs) (VMassPA, acc))
               (fun s => Done (snd s))
        else Done (velocity_full Force one_ acc)) (fun acc =>
  (* Solve for energy, assemble the energy source if such exists. *)
  let e_source :=
    if (source_type P =? 1)%Z then Some (e_source_Assemble S) else None in
  let acc :=
    if p_assembly P then energy_pa qd v e_source acc
    else for_loop (zones_cnt P) (energy_full_zone Force v e_source) acc in
  (* quad_data_is_current = false *)
  Done (mkHydroState qd false, acc_dS_dt acc, acc_log acc))).

(** The candidates of the points [0 .. k-1] of zone [i]. *)
Definition zone_candidates (P : HydroParams) (qd : QuadratureData) (S : Vector T)
    (i k : nat) : list T :=
  map (fun q => pv_dt_candidate (point_values P qd S i q)) (seq 0 k).

(** The force coefficients of the point [q] of zone [i] in the tensor [A] are
    the ones computed from the state [S]. *)
Definition fresh_at (P : HydroParams) (qd0 : QuadratureData) (S : Vector T)
    (A : DenseTensor T) (i q : nat) : Prop :=
  forall vd gd, vd < dim P -> gd < dim P ->
    tensor_get A vd (i * nqp + q) gd =
    mat_get (pv_stressJiT (point_values P qd0 S i q)) vd gd.

(** The time-step candidates [cfl * h / sound_speed] of a sweep, in the order
    of the loops. *)
Definition candidates (P : HydroParams) (qd : QuadratureData) (S : Vector T) : list T :=
  flat_map (fun i => map (fun q => pv_dt_candidate (point_values P qd S i q)) (seq 0 nqp))
           (seq 0 (zones_cnt P)).

(** The candidate of a point is a quotient by [sound_speed]: the point divides
    by zero when that divisor is zero. *)
Definition divides_by_zero (pv : PointValues) : Prop := pv_sound_speed pv = zero.

(** Two stores that differ at most in [dt_est] and [stressJinvT]. *)
Definition frame (qd qd' : QuadratureData) : Prop :=
  stress qd' = stress qd /\ Jac qd' = Jac qd /\ Jac0inv qd' = Jac0inv qd /\
  rho0DetJ0 qd' = rho0DetJ0 qd /\ rhoDetJw qd' = rhoDetJw qd /\
  rho0DetJ0w qd' = rho0DetJ0w qd /\ h0 qd' = h0 qd.


(** [LagrangianHydroOperator::GetTimeStepEstimate] *)
Definition GetTimeStepEstimate (P : HydroParams) (st : HydroState) (S : Vector T)
  : outcome (HydroState * T) :=
  bind (UpdateQuadratureData P st S) (fun st =>
  Done (st, MPI_Allreduce_min (dt_est (quad_data st)))).

End Solver.

Arguments QuadratureData T : clear implicits.
Arguments Uninitialised T : clear implicits.
Arguments HydroParams T : clear implicits.
Arguments HydroState T : clear implicits.
Arguments PointValues T : clear implicits.
Arguments MassPAOperator T : clear implicits.
Arguments Operator T : clear implicits.
Arguments CGSolver T : clear implicits.
Arguments SolveEvent T : clear implicits.
Arguments Collaborators T : clear implicits.
Arguments MultAcc T : clear implicits.
Arguments outcome T A : clear implicits.
Arguments Done {T A} a.
Arguments BadJacobianDeterminant {T A} detJ.
Arguments IndexOutOfRange {T A}.

(** ** A concrete mesh: one rectangular zone

    The finite element queries for a mesh of a single zone, the rectangle with
    the vertices (x0,y0), (x1,y0), (x1,y1), (x0,y1), with bilinear velocity and
    constant energy (17 unknowns: the x and y coordinates of the four nodes,
    the two velocity components at the four nodes, one energy value) and the
    2 x 2 Gauss rule of the solver (order 3*1 + 0 - 1 = 2: four points of
    weight 1/4).  The Jacobian of a rectangle is diag(x1-x0, y1-y0) at every
    point.  The instance serves states of uniform velocity, whose velocity
    gradient vanishes.  The dense kernels are the textbook ones for 2 x 2
    matrices. *)

Module Rect.
Section Rect.
Context {T : Type} `{Scalar T}.

(** The 2 x 2 matrix with rows (a, b) and (c, d), stored by columns. *)
Definition mat2 (a b c d : T) : DenseMatrix T := mkDenseMatrix 2 2 [a; c; b; d].

Definition symmetrize (A : DenseMatrix T) : DenseMatrix T :=
  let s := mul half (add (mat_get A 0 1) (mat_get A 1 0)) in
  mat2 (mat_get A 0 0) s s (mat_get A 1 1).

(** The eigenvalues in ascending order, for a matrix that is already diagonal
    (all that a uniform velocity produces). *)
Definition eigen_diag (A : DenseMatrix T) : list T * list T :=
  let d0 := mat_get A 0 0 in
  let d3 := mat_get A 1 1 in
  if leb d0 d3 then ([d0; d3], [one; zero; zero; one])
  else ([d3; d0], [zero; one; one; zero]).

Definition mat_mult (A B : DenseMatrix T) : DenseMatrix T :=
  let e i j := add (mul (mat_get A i 0) (mat_get B 0 j)) (mul (mat_get A i 1) (mat_get B 1 j)) in
  mat2 (e 0 0) (e 0 1) (e 1 0) (e 1 1).

Definition mat_vec (A : DenseMatrix T) (x : Vector T) : Vector T :=
  [add (mul (mat_get A 0 0) (vget x 0)) (mul (mat_get A 0 1) (vget x 1));
   add (mul (mat_get A 1 0) (vget x 0)) (mul (mat_get A 1 1) (vget x 1))].

Definition norml2 (x : Vector T) : T :=
  fsqrt (fold_left (fun s a => add s (mul a a)) x zero).

Definition inverse (A : DenseMatrix T) : DenseMatrix T :=
  let t := div one (sub (mul (mat_get A 0 0) (mat_get A 1 1))
                        (mul (mat_get A 0 1) (mat_get A 1 0))) in
  mat2 (mul (mat_get A 1 1) t) (mul (neg (mat_get A 0 1)) t)
       (mul (neg (mat_get A 1 0)) t) (mul (mat_get A 0 0) t).

Definition mult_ABt (A B : DenseMatrix T) : DenseMatrix T :=
  let e i j := add (mul (mat_get A i 0) (mat_get B j 0)) (mul (mat_get A i 1) (mat_get B j 1)) in
  mat2 (e 0 0) (e 0 1) (e 1 0) (e 1 1).

Definition quarter : T := mul half half.

#[export] Instance mfem : Mfem T := {
  Symmetrize := symmetrize;
  CalcEigenvalues := eigen_diag;
  MatMult := mat_mult;
  MatVec := mat_vec;
  Norml2 := norml2;
  CalcInverse := inverse;
  MultABt := mult_ABt;
  nqp := 4;
  ip_weight := fun _ => quarter;
  Jacobian := fun S _ _ =>
    mat2 (sub (vget S 1) (vget S 0)) zero zero (sub (vget S 6) (vget S 4));
  Weight := fun S _ _ => mul (sub (vget S 1) (vget S 0)) (sub (vget S 6) (vget S 4));
  GetValues_e := fun S _ _ => vget S 16;
  GetVectorGradient_v := fun _ _ _ => mat2 zero zero zero zero;
}.

(** The ideal gas: [p = (gamma - 1) rho e]. *)
Definition ideal_gas (gamma_ : T) (rho e : T) : T := mul (mul (sub gamma_ one) rho) e.

(** gamma = 2 and CFL number 1/2. *)
Definition params (visc pa : bool) : HydroParams T :=
  mkHydroParams 2 1 0 half two visc pa (ideal_gas two).

(** The state of the rectangle [0,a] x [0,b] at rest with the energy [e]. *)
Definition state (a b e : T) : Vector T :=
  [zero; a; a; zero] ++ [zero; zero; b; b] ++ replicate 8 zero ++ [e].

(** The store of the operator built on the unit square with the reference
    density 1: [Jac0inv] is the identity at the four points, [rho0DetJ0w] is
    the weight 1/4, [h0] is 1. *)
Definition identities (n : nat) : DenseTensor T :=
  mkDenseTensor 2 2 n (concat (replicate n [one; zero; zero; one])).

Definition store (dt : T) : QuadratureData T :=
  mkQuadratureData (tensor_zero 2 2 4) (tensor_zero 2 2 4) (identities 4)
    (tensor_zero 4 2 2) (replicate 4 zero) (replicate 4 zero) (replicate 4 quarter)
    one dt.

(** The same mesh for a velocity that is linear in x and in y: its gradient
    is diagonal, [(v_x(node 1) - v_x(node 0)) / a] and
    [(v_y(node 3) - v_y(node 0)) / b]. *)
Definition moving : Mfem T := {|
  Symmetrize := symmetrize;
  CalcEigenvalues := eigen_diag;
  MatMult := mat_mult;
  MatVec := mat_vec;
  Norml2 := norml2;
  CalcInverse := inverse;
  MultABt := mult_ABt;
  nqp := 4;
  ip_weight := fun _ => quarter;
  Jacobian := fun S _ _ =>
    mat2 (sub (vget S 1) (vget S 0)) zero zero (sub (vget S 6) (vget S 4));
  Weight := fun S _ _ => mul (sub (vget S 1) (vget S 0)) (sub (vget S 6) (vget S 4));
  GetValues_e := fun S _ _ => vget S 16;
  GetVectorGradient_v := fun S _ _ =>
    mat2 (div (sub (vget S 9) (vget S 8)) (sub (vget S 1) (vget S 0))) zero
         zero (div (sub (vget S 15) (vget S 12)) (sub (vget S 6) (vget S 4)));
|}.

(** The rectangle [0,a] x [0,b] with the energy [e], squeezed in x: the
    velocity is [(- u x / a, 0)]. *)
Definition squeezed (a b e u : T) : Vector T :=
  [zero; a; a; zero] ++ [zero; zero; b; b] ++ [zero; neg u; neg u; zero]
  ++ replicate 4 zero ++ [e].

(** A memory that holds 0.0 wherever the containers are allocated, and the
    two scalars [h0_] and [dt_]. *)
Definition zeroed (h0_ dt_ : T) : Uninitialised T :=
  mkUninitialised (fun _ => zero) (fun _ => zero) (fun _ => zero) (fun _ => zero)
    (fun _ => zero) (fun _ => zero) (fun _ => zero) h0_ dt_.

(** Stand-ins for the collaborators of [Mult] on this mesh, of the right
    sizes: a serial run (the prolongation and the restriction are the
    identity on vectors of four entries), mass matrices taken as the identity (the solvers return their
    right-hand side), no force.  Node 0 and node 3 lie on the boundary of
    fixed x, node 0 and node 1 on the boundary of fixed y. *)
#[export] Instance collab : Collaborators T := {
  H1_GetVSize := 8;
  L2_GetVSize := 1;
  H1comp_GetVSize := 4;
  H1comp_TrueVSize := 4;
  H1comp_GetEssentialTrueDofs := fun c => if Nat.eqb c 0 then [0; 3]%Z else [0; 1]%Z;
  P_MultTranspose := resize 4 zero;
  P_Mult := resize 4 zero;
  R_Mult := resize 4 zero;
  ForcePA_Mult := fun _ _ => replicate 8 zero;
  ForcePA_MultTranspose := fun _ _ => replicate 1 zero;
  Force_Assemble := fun _ => mkDenseMatrix 8 1 (replicate 8 zero);
  Force_Mult := fun _ _ => replicate 8 zero;
  Mv_FormLinearSystem := fun _ dv rhs => (mkDenseMatrix 8 8 (replicate 64 zero), dv, rhs);
  Mv_RecoverFEMSolution := fun X _ _ => X;
  e_source_Assemble := fun _ => replicate 1 zero;
  H1_GetElementVDofs := fun _ => [0; 1; 2; 3; 4; 5; 6; 7]%Z;
  L2_GetElementDofs := fun _ => [0]%Z;
  GetSubMatrix := fun A _ _ => A;
  GetSubVector := fun v _ => v;
  SetSubVector := fun _ _ w => w;
  MatMultTranspose := fun _ _ => replicate 1 zero;
  Me_inv := fun _ => mkDenseMatrix 1 1 [one];
  ess_tdofs := [0; 3; 4; 5]%Z;
  CGSolver_new := mkCGSolver None zero zero 10 (-1);
  cg_Mult := fun _ B _ => B;
  MPI_Allreduce_min := fun x => x;
}.

End Rect.
End Rect.

(** ** The matrix-free force operator

    [ForcePAOperator::Mult] and [MultTranspose] are declared in
    laghos_assembly.hpp; their bodies are not among the sources.  They are
    modelled here from the specification of the force operator. *)

Module ForcePA.
Section ForcePA.
Context {T : Type} `{RingOps T}.

(** Modelled from the spec: the two finite element spaces as the force
    operator sees them (the bodies of [ForcePAOperator] are missing): per zone
    the global numbers of its energy unknowns and of its velocity unknowns
    (all the components, one after the other, shared between neighbouring
    zones), and the cached tables of the reference element, the values of the
    energy basis functions and the gradients of the velocity basis functions
    at the quadrature points. *)
Record Spaces := mkSpaces {
  nzones : nat;
  npoints : nat;
  sdim : nat;
  h1dofs_cnt : nat;
  l2dofs_cnt : nat;
  H1_VSize : nat;
  L2_VSize : nat;
  h1_vdofs : nat -> list nat;
  l2_dofs : nat -> list nat;
  L2_shape : nat -> nat -> T;
  H1_grad : nat -> nat -> nat -> T;
}.

(** Modelled from the spec: finite sums, the dot product of two vectors, and
    the linear combination [a u + v] (helpers of the force operator, whose
    bodies are missing). *)
Definition sum_list (l : list nat) (f : nat -> T) : T :=
  fold_right (fun k acc => add (f k) acc) zero l.

Definition sum_over (n : nat) (f : nat -> T) : T := sum_list (seq 0 n) f.

Definition dot (u w : Vector T) : T := fold_right add zero (zip_with mul u w).

Definition vaxpy (a : T) (u v : Vector T) : Vector T :=
  zip_with (fun x y => add (mul a x) y) u v.

(** Modelled from the spec: "gather the local ... values" of a zone out of a
    global vector ([ForcePAOperator::Mult] is missing). *)
Definition gather (idx : list nat) (u : Vector T) : Vector T := map (vget u) idx.

(** Modelled from the spec: "scatter-add into the global ... output
    respecting shared degrees of freedom across zones"
    ([ForcePAOperator::Mult] is missing). *)
Fixpoint scatter_add (idx : list nat) (loc out : Vector T) : Vector T :=
  match idx, loc with
  | k :: idx', x :: loc' => scatter_add idx' loc' (<[k := add (vget out k) x]> out)
  | _, _ => out
  end.

(** Modelled from the spec: the force coefficient of the point [q] of zone [z]
    contracted with the gradient of the velocity basis function number [r]
    (component [r / h1dofs_cnt], node [r mod h1dofs_cnt]). *)
Definition coeff_grad (sp : Spaces) (A : DenseTensor T) (z r q : nat) : T :=
  let vd := r / h1dofs_cnt sp in
  let i := r mod h1dofs_cnt sp in
  sum_over (sdim sp) (fun gd =>
    mul (tensor_get A vd (z * npoints sp + q) gd) (H1_grad sp i q gd)).

(** Modelled from the spec: the local energy values at the point [q]. *)
Definition energy_at (sp : Spaces) (e_z : Vector T) (q : nat) : T :=
  sum_over (l2dofs_cnt sp) (fun j => mul (L2_shape sp j q) (vget e_z j)).

(** Modelled from the spec: the local velocity values contracted with the
    force coefficients at the point [q]. *)
Definition velocity_at (sp : Spaces) (A : DenseTensor T) (z : nat) (v_z : Vector T)
    (q : nat) : T :=
  sum_over (sdim sp * h1dofs_cnt sp) (fun r => mul (coeff_grad sp A z r q) (vget v_z r)).

(** Modelled from the spec: "contract with the zone's forceCoeff tensors and
    the velocity-space basis-function gradients": the local velocity-space
    vector of zone [z] for the local energy values [e_z]. *)
Definition apply_zone (sp : Spaces) (A : DenseTensor T) (z : nat) (e_z : Vector T)
  : Vector T :=
  map (fun r => sum_over (npoints sp) (fun q =>
                  mul (coeff_grad sp A z r q) (energy_at sp e_z q)))
      (seq 0 (sdim sp * h1dofs_cnt sp)).

(** Modelled from the spec: "the adjoint operation, symmetric in structure":
    the local energy-space vector of zone [z] for the local velocity values. *)
Definition applyT_zone (sp : Spaces) (A : DenseTensor T) (z : nat) (v_z : Vector T)
  : Vector T :=
  map (fun j => sum_over (npoints sp) (fun q =>
                  mul (L2_shape sp j q) (velocity_at sp A z v_z q)))
      (seq 0 (l2dofs_cnt sp)).

(** Modelled from the spec: "for each zone, gather ..., contract ...,
    scatter-add into the global ... output". *)
Definition assemble (nz n_out : nat) (out_dofs in_dofs : nat -> list nat)
    (loc : nat -> Vector T -> Vector T) (u : Vector T) : Vector T :=
  for_loop nz (fun z out => scatter_add (out_dofs z) (loc z (gather (in_dofs z) u)) out)
           (replicate n_out zero).

(** Modelled from the spec: [apply], the missing [ForcePAOperator::Mult], from
    the energy space to the velocity space, with the force coefficients
    [stressJinvT] of the store. *)
Definition Mult (sp : Spaces) (qd : QuadratureData T) (vecL2 : Vector T) : Vector T :=
  assemble (nzones sp) (H1_VSize sp) (h1_vdofs sp) (l2_dofs sp)
           (apply_zone sp (stressJinvT qd)) vecL2.

(** Modelled from the spec: [applyTranspose], the missing
    [ForcePAOperator::MultTranspose], from the velocity space to the energy
    space. *)
Definition MultTranspose (sp : Spaces) (qd : QuadratureData T) (vecH1 : Vector T)
  : Vector T :=
  assemble (nzones sp) (L2_VSize sp) (l2_dofs sp) (h1_vdofs sp)
           (applyT_zone sp (stressJinvT qd)) vecH1.

(** Modelled from the spec: well-formed spaces; "malformed shapes are caller
    bugs".  Every zone has its full count of unknowns, numbered within the
    global vectors. *)
Definition wf (sp : Spaces) : Prop :=
  forall z, z < nzones sp ->
    length (h1_vdofs sp z) = sdim sp * h1dofs_cnt sp /\
    Forall (fun k => k < H1_VSize sp) (h1_vdofs sp z) /\
    length (l2_dofs sp z) = l2dofs_cnt sp /\
    Forall (fun k => k < L2_VSize sp) (l2_dofs sp z).

End ForcePA.

Arguments Spaces T : clear implicits.

(** Two segments in a row over the integers: three nodes, linear velocity,
    constant energy, one quadrature point per zone. *)
Definition two_segments : Spaces Z :=
  mkSpaces 2 1 1 2 1 3 2
    (fun z => [z; Datatypes.S z]) (fun z => [z])
    (fun _ _ => 1%Z) (fun i _ _ => if Nat.eqb i 0 then (-1)%Z else 1%Z).

Definition two_segments_data : QuadratureData Z :=
  mkQuadratureData (tensor_zero 1 1 2) (tensor_zero 1 1 2) (tensor_zero 1 1 2)
    (mkDenseTensor 2 1 1 [3; 5]%Z) [] [] [] 0%Z 0%Z.

End ForcePA.

(** ** A second concrete mesh: two rectangular zones in a row

    The rectangles [x0,x1] x [0,b] and [x1,x2] x [0,b]: six nodes, numbered
    along x first ((x0,0), (x1,0), (x2,0), (x0,b), (x1,b), (x2,b)), bilinear
    velocity, constant energy per zone (26 unknowns: six x and six y
    coordinates, twelve velocity values, two energies), the same Gauss rule
    and dense kernels as [Rect], for states of uniform velocity. *)

Module Strip.
Section Strip.
Context {T : Type} `{Scalar T}.

Definition mfem : Mfem T := {|
  Symmetrize := Rect.symmetrize;
  CalcEigenvalues := Rect.eigen_diag;
  MatMult := Rect.mat_mult;
  MatVec := Rect.mat_vec;
  Norml2 := Rect.norml2;
  CalcInverse := Rect.inverse;
  MultABt := Rect.mult_ABt;
  nqp := 4;
  ip_weight := fun _ => Rect.quarter;
  Jacobian := fun S i _ =>
    Rect.mat2 (sub (vget S (Datatypes.S i)) (vget S i)) zero zero (sub (vget S 9) (vget S 6));
  Weight := fun S i _ =>
    mul (sub (vget S (Datatypes.S i)) (vget S i)) (sub (vget S 9) (vget S 6));
  GetValues_e := fun S i _ => vget S (24 + i);
  GetVectorGradient_v := fun _ _ _ => Rect.mat2 zero zero zero zero;
|}.

(** gamma = 2, CFL number 1/2, two zones. *)
Definition params (visc pa : bool) : HydroParams T :=
  mkHydroParams 2 2 0 half two visc pa (Rect.ideal_gas two).

(** The state at rest with the nodes at [x0], [x1], [x2], the height [b] and
    the energies [e0] and [e1]. *)
Definition state (x0 x1 x2 b e0 e1 : T) : Vector T :=
  [x0; x1; x2; x0; x1; x2] ++ [zero; zero; zero; b; b; b] ++ replicate 12 zero ++ [e0; e1].

(** The store built on two unit squares with the reference density 1. *)
Definition store (dt : T) : QuadratureData T :=
  mkQuadratureData (tensor_zero 2 2 8) (tensor_zero 2 2 8) (Rect.identities 8)
    (tensor_zero 8 2 2) (replicate 8 zero) (replicate 8 zero) (replicate 8 Rect.quarter)
    one dt.

End Strip.
End Strip.

(** ** The kinds of solves of an evaluation *)

Inductive SolveKind :=
  | VelocityPA               (* cg.Mult on the mass operator of H1compFESpace *)
  | EnergyPA                 (* cg.Mult on the mass operator of L2FESpace *)
  | MatrixCG                 (* cg.Mult on the matrix of FormLinearSystem *)
  | NoOperator               (* cg.Mult before SetOperator *)
  | LocalInverse (zone : nat). (* Me_inv(zone).Mult *)

Section SolveKinds.
Context {T : Type} `{Scalar T} `{Mfem T} `{Collaborators T}.

Definition solve_kind (ev : SolveEvent T) : SolveKind :=
  match ev with
  | CgMult cg _ _ =>
      match oper cg with
      | Some (OpMassPA M) =>
          match mpa_FESpace M with H1compFESpace => VelocityPA | L2FESpace => EnergyPA end
      | Some (OpHypreParMatrix _) => MatrixCG
      | None => NoOperator
      end
  | DenseInverseMult i _ => LocalInverse i
  end.

(** The right-hand side of component [c] before the elimination:
    [P^t] applied to the block [c] of [- ForcePA.Mult(one)]. *)
Definition velocity_rhs (qd : QuadratureData T) (c : nat) : Vector T :=
  P_MultTranspose
    (subvec (c * H1comp_GetVSize) H1comp_GetVSize
       (vec_Neg (ForcePA_Mult qd (vec_const L2_GetVSize one)))).

(** The velocity solve of component [c]: conjugate gradients on the mass
    operator that holds the essential dofs of the component, with a
    right-hand side whose essential entries are 0.0 and whose other entries
    are those of [velocity_rhs]. *)
Definition velocity_solve_of (qd : QuadratureData T) (c : nat) (ev : SolveEvent T) : Prop :=
  exists cg B X,
    ev = CgMult cg B X /\
    oper cg = Some (OpMassPA (mkMassPAOperator qd H1compFESpace
                                (Some (H1comp_GetEssentialTrueDofs c)))) /\
    length B = length (velocity_rhs qd c) /\
    forall k, k < length B ->
      B !! k = if decide (Z.of_nat k ∈ H1comp_GetEssentialTrueDofs c) then Some zero
               else velocity_rhs qd c !! k.

End SolveKinds.

(** ** The reference data that the constructor computes

    The loop "Values of rho0DetJ0 and Jac0inv at all quadrature points" of
    [LagrangianHydroOperator::LagrangianHydroOperator].  The mesh of the
    constructor is the mesh at time zero; its nodes are given here as the
    vector [x0], which the queries of [Mfem] take like the position block of a
    state. *)

(** The collaborators of that loop. *)
Class Reference (T : Type) := {
  (* rho0.GetValues(i, integ_rule, rho_vals): rho_vals(q) *)
  rho0_GetValues : nat -> nat -> T;
  (* DenseMatrixInverse Jinv(A); Jinv.GetInverseMatrix(Ainv): Ainv *)
  GetInverseMatrix : DenseMatrix T -> DenseMatrix T;
}.

Section Construction.
Context {T : Type} `{Scalar T} `{Mfem T} `{Reference T}.

(** The entries of [M] written into [A(k)], the matrix [k] of the tensor: what
    [GetInverseMatrix(quad_data.Jac0inv(k))] does to the tensor, column by
    column. *)
Definition tensor_set_mat (A : DenseTensor T) (k : nat) (M : DenseMatrix T) : DenseTensor T :=
  for_loop (SizeJ A) (fun j A =>
    for_loop (SizeI A) (fun i A => tensor_set A k i j (mat_get M i j)) A) A.

Definition set_Jac0inv (qd : QuadratureData T) (A : DenseTensor T) : QuadratureData T :=
  mkQuadratureData (stress qd) (Jac qd) A (stressJinvT qd)
    (rho0DetJ0 qd) (rhoDetJw qd) (rho0DetJ0w qd) (h0 qd) (dt_est qd).

Definition set_rho0DetJ0w (qd : QuadratureData T) (v : Vector T) : QuadratureData T :=
  mkQuadratureData (stress qd) (Jac qd) (Jac0inv qd) (stressJinvT qd)
    (rho0DetJ0 qd) (rhoDetJw qd) v (h0 qd) (dt_est qd).

(** The body of the loop at the point [q] of zone [i]. *)
Definition init_point (x0 : Vector T) (i q : nat) (qd : QuadratureData T)
  : QuadratureData T :=
  let Jinv := GetInverseMatrix (Jacobian x0 i q) in
  let qd := set_Jac0inv qd (tensor_set_mat (Jac0inv qd) (i * nqp + q) Jinv) in
  let rho0DetJ0_ := mul (Weight x0 i q) (rho0_GetValues i q) in
  set_rho0DetJ0w qd (<[i * nqp + q := mul rho0DetJ0_ (ip_weight q)]> (rho0DetJ0w qd)).

(** The two loops. *)
Definition init_reference (nzones : nat) (x0 : Vector T) (qd : QuadratureData T)
  : QuadratureData T :=
  for_loop nzones (fun i qd => for_loop nqp (fun q qd => init_point x0 i q qd) qd) qd.

(** The store and the flag after the initialiser list and the loop of the
    reference data: the containers of [QuadratureData(dim, zones_cnt, nqp)],
    allocated over the memory [mem], the reference data that the loop writes,
    the flag down ([quad_data_is_current(false)]).  The length scale [h0] is
    assigned further down in the constructor and [dt_est] by
    [ResetTimeStepEstimate]; here they are what the memory held. *)
Definition constructed (d nzones : nat) (x0 : Vector T) (mem : Uninitialised T)
  : HydroState T :=
  mkHydroState (init_reference nzones x0 (QuadratureData_new d nzones nqp mem)) false.

(** A tensor of [n] matrices of size [d]. *)
Definition matrices_shape (A : DenseTensor T) (d n : nat) : Prop :=
  SizeI A = d /\ SizeJ A = d /\ SizeK A = n /\ length (tdata A) = d * d * n.

(** The store holds reference data for every point of [nzones] zones. *)
Definition reference_shape (qd : QuadratureData T) (d nzones : nat) : Prop :=
  matrices_shape (Jac0inv qd) d (nzones * nqp) /\
  length (rho0DetJ0w qd) = nzones * nqp.

(** The reference data of the point [q] of zone [i] in the store [qd]. *)
Definition reference_at (x0 : Vector T) (d : nat) (qd : QuadratureData T) (i q : nat) : Prop :=
  vget (rho0DetJ0w qd) (i * nqp + q) =
    mul (mul (Weight x0 i q) (rho0_GetValues i q)) (ip_weight q) /\
  forall r c, r < d -> c < d ->
    tensor_get (Jac0inv qd) (i * nqp + q) r c =
    mat_get (GetInverseMatrix (Jacobian x0 i q)) r c.

(** Two stores that differ at most in [Jac0inv] and [rho0DetJ0w]. *)
Definition construction_frame (qd qd' : QuadratureData T) : Prop :=
  stress qd' = stress qd /\ Jac qd' = Jac qd /\ stressJinvT qd' = stressJinvT qd /\
  rho0DetJ0 qd' = rho0DetJ0 qd /\ rhoDetJw qd' = rhoDetJw qd /\
  h0 qd' = h0 qd /\ dt_est qd' = dt_est qd.

End Construction.

(** ** Exact arithmetic: the rationals

    The interface [Scalar] at the rationals in lowest terms, for the
    statements that hold in exact arithmetic only.  The rationals have no
    infinity: [infinity] is what [std::numeric_limits<T>::infinity()] returns
    for a type without one, the value [T()], zero.  [fsqrt] is the square
    root of the squares of rationals (the roots of numerator and denominator,
    rounded down, elsewhere); a quotient by zero is zero. *)

From Stdlib Require QArith Qcanon Qabs.

Module Exact.

Definition Qc := Qcanon.Qc.

Definition of_Q (q : QArith_base.Q) : Qc := Qcanon.Q2Qc q.

Definition Qc_sqrt (x : Qc) : Qc :=
  of_Q (QArith_base.Qmake (Z.sqrt (QArith_base.Qnum (Qcanon.this x)))
                          (Pos.sqrt (QArith_base.Qden (Qcanon.this x)))).

#[export] Instance Qc_ring : RingOps Qc := {
  zero := of_Q (QArith_base.Qmake 0 1);
  one := of_Q (QArith_base.Qmake 1 1);
  add := Qcanon.Qcplus;
  mul := Qcanon.Qcmult;
  neg := Qcanon.Qcopp;
}.

#[export] Instance Qc_scalar : Scalar Qc := {
  scalar_ring := Qc_ring;
  two := of_Q (QArith_base.Qmake 2 1);
  half := of_Q (QArith_base.Qmake 1 2);
  tol_1em8 := of_Q (QArith_base.Qmake 1 100000000);
  sub := Qcanon.Qcminus;
  div := Qcanon.Qcdiv;
  fsqrt := Qc_sqrt;
  fabs := fun x => of_Q (Qabs.Qabs (Qcanon.this x));
  ltb := fun x y => match Qcanon.Qccompare x y with Lt => true | _ => false end;
  leb := fun x y => match Qcanon.Qccompare x y with Gt => false | _ => true end;
  infinity := of_Q (QArith_base.Qmake 0 1);
}.

(** The reference data of the unit square of [Rect]: density 1, the inverse
    of a 2 x 2 matrix by its adjugate. *)
Definition unit_density : Reference Qc := {|
  rho0_GetValues := fun _ _ => one;
  GetInverseMatrix := Rect.inverse;
|}.


End Exact.

(** ** [miniapps::VisualizeField]

    The function sends a field to a visualization server, through a socket
    stream that the caller keeps between calls.  What the socket answers is
    outside the program: [respond] gives the state of the stream after each
    operation, from the operations attempted so far, and is arbitrary.  The
    stream state is the two tests that the function makes, [sock.is_open()]
    and the conversion of [sock] to [bool] (written [good]).  On the ranks
    other than 0 the flag [connection_failed] is the value that [MPI_Bcast]
    delivers from rank 0, [received] at each pass.  The [do ... while] loop
    runs on fuel. *)

From Stdlib Require String.

Module Visualization.
Import String.

Record socketstream := mksocketstream { is_open : bool; good : bool }.

(** What [operator<<] is given. *)
Inductive Item :=
| Str (s : string)
| Int (n : Z)
| Endl.

Inductive SockOp :=
| Open (vishost : string) (visport : Z)
| Precision (n : Z)
| Put (x : Item)
| PrintAsOne
| SaveAsOne.

Record VisState := mkVisState {
  sock : socketstream;
  log : list SockOp;            (* the operations attempted, in order *)
  newly_opened : bool;
}.

(** The line feed of the C++ literals. *)
Definition nl : string := String (Ascii.ascii_of_nat 10) EmptyString.

(** The first line of a message to the server, ["solution\n"]. *)
Definition header : string := "solution" ++ nl.

Definition is_Open (o : SockOp) : bool := match o with Open _ _ => true | _ => false end.
Definition is_PrintAsOne (o : SockOp) : bool := match o with PrintAsOne => true | _ => false end.
Definition is_SaveAsOne (o : SockOp) : bool := match o with SaveAsOne => true | _ => false end.
Definition is_Endl (o : SockOp) : bool := match o with Put Endl => true | _ => false end.

Definition count (p : SockOp -> bool) (l : list SockOp) : nat := List.length (List.filter p l).

Section VisualizeField.
Variable respond : list SockOp -> SockOp -> socketstream -> socketstream.
Variable received : nat -> bool.
Variables (vishost : string) (visport : Z) (title : string) (x y w h : Z) (vec : bool).
Variable myid : nat.

Definition attempt (o : SockOp) (s : VisState) : VisState :=
  mkVisState (respond (log s) o (sock s)) (log s ++ [o]) (newly_opened s).

Definition put_all (xs : list Item) (s : VisState) : VisState :=
  fold_left (fun s x => attempt (Put x) s) xs s.

Definition window_keys : list Item :=
  [Str "window_title '"; Str title; Str ("'" ++ nl); Str "window_geometry ";
   Int x; Str " "; Int y; Str " "; Int w; Str " "; Int h; Str nl; Str "keys maaAc"]
  ++ (if vec then [Str "vvv"] else []) ++ [Endl].

(** One pass of the body; the second component is [connection_failed]. *)
Definition pass (n : nat) (s : VisState) : VisState * bool :=
  let s1 :=
    if Nat.eqb myid 0 then
      let s0 :=
        if negb (is_open (sock s)) || negb (good (sock s)) then
          let s' := attempt (Precision 8) (attempt (Open vishost visport) s) in
          mkVisState (sock s') (log s') true
        else s in
      attempt (Put (Str header)) s0
    else s in
  let s2 := attempt SaveAsOne (attempt PrintAsOne s1) in
  let s3 := if Nat.eqb myid 0 && newly_opened s2 then put_all window_keys s2 else s2 in
  let connection_failed :=
    if Nat.eqb myid 0 then negb (good (sock s3)) && negb (newly_opened s3)
    else received n in
  (s3, connection_failed).

Fixpoint passes (fuel n : nat) (s : VisState) : option VisState :=
  match fuel with
  | 0 => None
  | S fuel' =>
      let '(s', connection_failed) := pass n s in
      if connection_failed then passes fuel' (S n) s' else Some s'
  end.

Definition VisualizeField (fuel : nat) (sock0 : socketstream) : option VisState :=
  passes fuel 0 (mkVisState sock0 [] false).

End VisualizeField.

(** A server that was lost since the last call: the stream that the caller
    kept fails at its first write, and a new connection is accepted. *)
Definition lost_server (hist : list SockOp) (o : SockOp) (s : socketstream) : socketstream :=
  match o with
  | Open _ _ => mksocketstream true true
  | _ => if Nat.eqb (count is_Open hist) 0 then mksocketstream (is_open s) false else s
  end.

(** The host and the window title of the runs below. *)
Definition localhost : string := "localhost".
Definition density_title : string := "Density".

(** No server at all: every connection is refused. *)
Definition no_server (hist : list SockOp) (o : SockOp) (s : socketstream) : socketstream :=
  mksocketstream false false.

End Visualization.

(** * Properties *)

(** ** Order and special values of binary64 *)

Module SF.

Lemma compare_lt_asym (x y : spec_float) :
  SFcompare x y = Some Lt -> SFcompare y x = Some Gt.
Proof.
  destruct x as [ [|]| [|]| |[|] mx ex], y as [ [|]| [|]| |[|] my ey];
    cbn; try congruence.
  - destruct (Z.compare_spec ex ey), (Z.compare_spec ey ex); try lia; try congruence.
    subst. change (Pos.compare_cont Eq ?a ?b) with (Pos.compare a b).
    rewrite (Pos.compare_antisym mx my). destruct (Pos.compare mx my); cbn; congruence.
  - destruct (Z.compare_spec ex ey), (Z.compare_spec ey ex); try lia; try congruence.
    subst. change (Pos.compare_cont Eq ?a ?b) with (Pos.compare a b).
    rewrite (Pos.compare_antisym mx my). destruct (Pos.compare mx my); cbn; congruence.
Qed.

Lemma compare_eq_sym (x y : spec_float) :
  SFcompare x y = Some Eq -> SFcompare y x = Some Eq.
Proof.
  destruct x as [ [|]| [|]| |[|] mx ex], y as [ [|]| [|]| |[|] my ey];
    cbn; try congruence.
  - destruct (Z.compare_spec ex ey), (Z.compare_spec ey ex); try lia; try congruence.
    subst. change (Pos.compare_cont Eq ?a ?b) with (Pos.compare a b).
    rewrite (Pos.compare_antisym mx my). destruct (Pos.compare mx my); cbn; congruence.
  - destruct (Z.compare_spec ex ey), (Z.compare_spec ey ex); try lia; try congruence.
    subst. change (Pos.compare_cont Eq ?a ?b) with (Pos.compare a b).
    rewrite (Pos.compare_antisym mx my). destruct (Pos.compare mx my); cbn; congruence.
Qed.

Lemma compare_refl_not_lt (x : spec_float) : SFcompare x x <> Some Lt.
Proof.
  destruct x as [ [|]| [|]| |[|] mx ex]; cbn; try congruence;
    rewrite Z.compare_refl; change (Pos.compare_cont Eq ?a ?b) with (Pos.compare a b);
    rewrite Pos.compare_refl; cbn; congruence.
Qed.

Lemma compare_lt_trans (x y z : spec_float) :
  SFcompare x y = Some Lt -> SFcompare y z = Some Lt -> SFcompare x z = Some Lt.
Proof.
  destruct x as [ [|]| [|]| |[|] mx ex], y as [ [|]| [|]| |[|] my ey],
           z as [ [|]| [|]| |[|] mz ez]; cbn; try congruence;
    change (Pos.compare_cont Eq ?a ?b) with (Pos.compare a b);
    destruct (Z.compare_spec ex ey), (Z.compare_spec ey ez), (Z.compare_spec ex ez);
    try lia; try congruence; subst;
    destruct (Pos.compare_spec mx my), (Pos.compare_spec my mz), (Pos.compare_spec mx mz);
    cbn; try congruence; try lia.
Qed.

End SF.

#[export] Instance Float64_order : OrderLaws float.
Proof.
  split; cbn; intros.
  - rewrite ltb_spec. unfold SFltb.
    pose proof (SF.compare_refl_not_lt (Prim2SF a)).
    destruct (SFcompare (Prim2SF a) (Prim2SF a)) as [[| |]|]; congruence.
  - rewrite ltb_spec in *. unfold SFltb in *.
    destruct (SFcompare (Prim2SF a) (Prim2SF b)) as [[| |]|] eqn:E; try discriminate.
    now rewrite (SF.compare_lt_asym _ _ E).
  - rewrite ltb_spec in *. unfold SFltb in *.
    destruct (SFcompare (Prim2SF a) (Prim2SF b)) as [[| |]|] eqn:E1; try discriminate.
    destruct (SFcompare (Prim2SF b) (Prim2SF c)) as [[| |]|] eqn:E2; try discriminate.
    now rewrite (SF.compare_lt_trans _ _ _ E1 E2).
  - rewrite leb_spec in *. rewrite ltb_spec. unfold SFltb, SFleb in *.
    destruct (SFcompare (Prim2SF a) (Prim2SF b)) as [[| |]|] eqn:E; try discriminate.
    + now rewrite (SF.compare_eq_sym _ _ E).
    + now rewrite (SF.compare_lt_asym _ _ E).
Qed.

#[export] Instance Float64_ieee : IeeeLaws float.
Proof.
  split; cbn; intros.
  - reflexivity.
  - apply Prim2SF_inj. rewrite div_spec. rewrite ltb_spec in H. unfold SFltb in H.
    change (Prim2SF 0%float) with (S754_zero false) in *.
    change (Prim2SF PrimFloat.infinity) with (S754_infinity false).
    destruct (Prim2SF a) as [ [|]| [|]| |[|] ma ea]; cbn in *; congruence.
  - rewrite ltb_spec. unfold SFltb.
    change (Prim2SF PrimFloat.infinity) with (S754_infinity false).
    destruct (Prim2SF a) as [ [|]| [|]| |[|] ma ea]; reflexivity.
Qed.

(** ** Loops *)

Section LoopFacts.
Context {T : Type} `{Scalar T}.

Lemma for_loop_S {S : Type} (n : nat) (body : nat -> S -> S) (s : S) :
  for_loop (Datatypes.S n) body s = body n (for_loop n body s).
Proof.
  unfold for_loop. rewrite seq_S, fold_left_app. reflexivity.
Qed.

(** An invariant of a plain loop. *)
Lemma for_loop_invariant {S : Type} (Inv : nat -> S -> Prop) (n : nat)
    (body : nat -> S -> S) (s : S) :
  Inv 0 s ->
  (forall k s, k < n -> Inv k s -> Inv (Datatypes.S k) (body k s)) ->
  Inv n (for_loop n body s).
Proof.
  intros H0 Hstep. induction n as [|n IH].
  - exact H0.
  - rewrite for_loop_S. apply Hstep; [lia|]. apply IH. intros; apply Hstep; [lia|assumption].
Qed.

Lemma for_each_app {S : Type} (ks1 ks2 : list nat) (body : nat -> S -> outcome T S) (s : S) :
  for_each (ks1 ++ ks2) body s = bind (for_each ks1 body s) (for_each ks2 body).
Proof.
  revert s. induction ks1 as [|k ks1 IH]; intros s; cbn; [reflexivity|].
  destruct (body k s); cbn; auto.
Qed.

(** An invariant of a loop whose body may abort: it holds when the loop ends. *)
Lemma for_each_invariant {S : Type} (Inv : nat -> S -> Prop) (n : nat)
    (body : nat -> S -> outcome T S) (s s' : S) :
  Inv 0 s ->
  (forall k s s', k < n -> Inv k s -> body k s = Done s' -> Inv (Datatypes.S k) s') ->
  for_each (seq 0 n) body s = Done s' ->
  Inv n s'.
Proof.
  intros H0 Hstep. revert s'. induction n as [|n IH]; intros s' Hrun.
  - cbn in Hrun. congruence.
  - rewrite seq_S, for_each_app in Hrun. cbn in Hrun.
    destruct (for_each (seq 0 n) body s) as [s1| |] eqn:E; cbn in Hrun; try discriminate.
    destruct (body n s1) as [s2| |] eqn:E2; cbn in Hrun; try discriminate.
    injection Hrun as <-. apply (Hstep n s1); [lia| |assumption].
    apply IH; [|reflexivity]. intros; eapply Hstep; eauto.
Qed.

(** The loop ends when every body does, under an invariant. *)
Lemma for_each_done {S : Type} (Inv : nat -> S -> Prop) (n : nat)
    (body : nat -> S -> outcome T S) (s : S) :
  Inv 0 s ->
  (forall k s, k < n -> Inv k s -> exists s', body k s = Done s' /\ Inv (Datatypes.S k) s') ->
  exists s', for_each (seq 0 n) body s = Done s' /\ Inv n s'.
Proof.
  intros H0 Hstep. induction n as [|n IH].
  - exists s. split; [reflexivity|assumption].
  - destruct IH as (s1 & E1 & I1); [intros; apply Hstep; [lia|assumption]|].
    destruct (Hstep n s1) as (s2 & E2 & I2); [lia|assumption|].
    exists s2. split; [|assumption].
    rewrite seq_S, for_each_app, E1. cbn. rewrite E2. reflexivity.
Qed.

(** A loop aborts on the Jacobian as soon as one of its bodies must, when the
    others end or abort the same way. *)
Lemma for_each_bad_jacobian {S : Type} (ks : list nat) (body : nat -> S -> outcome T S)
    (k0 : nat) (s : S) :
  In k0 ks ->
  (forall s, bad_jacobian (body k0 s)) ->
  (forall k s, (exists s', body k s = Done s') \/ bad_jacobian (body k s)) ->
  bad_jacobian (for_each ks body s).
Proof.
  intros Hin Hbad Hall. revert s. induction ks as [|k ks IH]; intros s; [destruct Hin|].
  cbn. destruct (Hall k s) as [(s' & E)|(d & E & Hd)].
  - rewrite E. cbn. destruct Hin as [->|Hin].
    + destruct (Hbad s) as (d & E' & _). congruence.
    + apply IH, Hin.
  - rewrite E. cbn. exists d. auto.
Qed.

End LoopFacts.

(** ** [MassPAOperator::EliminateRHS] *)

Section EliminateFacts.
Context {T : Type} `{Scalar T}.

Lemma zero_entries_Some (dofs : list Z) (b : Vector T) :
  Forall (fun d => (0 <= d < Z.of_nat (length b))%Z) dofs ->
  exists b', zero_entries dofs b = Some b' /\ length b' = length b.
Proof.
  revert b. induction dofs as [|d dofs IH]; intros b Hall; cbn.
  - eauto.
  - inversion Hall as [|? ? Hd Hrest]; subst.
    destruct (Z.leb_spec 0 d); [|lia]. destruct (Z.ltb_spec d (Z.of_nat (length b))); [|lia].
    cbn. destruct (IH (<[Z.to_nat d := zero]> b)) as (b' & E & L).
    + rewrite length_insert. assumption.
    + exists b'. rewrite length_insert in L. auto.
Qed.

Lemma zero_entries_spec (dofs : list Z) (b b' : Vector T) :
  zero_entries dofs b = Some b' ->
  length b' = length b /\
  forall k, k < length b ->
    b' !! k = if decide (Z.of_nat k ∈ dofs) then Some zero else b !! k.
Proof.
  revert b. induction dofs as [|d dofs IH]; intros b; cbn.
  - intros [= <-]. split; [reflexivity|]. intros k Hk.
    destruct (decide (Z.of_nat k ∈ [])) as [Hin|]; [|reflexivity].
    apply elem_of_nil in Hin. destruct Hin.
  - destruct (Z.leb_spec 0 d); [|discriminate].
    destruct (Z.ltb_spec d (Z.of_nat (length b))); [|discriminate].
    cbn. intros E. apply IH in E as (L & Hget). rewrite length_insert in L, Hget.
    split; [assumption|]. intros k Hk. rewrite (Hget k Hk).
    destruct (decide (Z.of_nat k ∈ dofs)) as [Hin|Hnin].
    + rewrite decide_True by (apply elem_of_cons; auto). reflexivity.
    + destruct (decide (k = Z.to_nat d)) as [->|Hne].
      * rewrite decide_True by (apply elem_of_cons; left; lia).
        apply list_lookup_insert_eq. lia.
      * rewrite decide_False by (rewrite elem_of_cons; intros [?|?]; [lia|contradiction]).
        apply list_lookup_insert_ne. congruence.
Qed.

End EliminateFacts.

(** C10: [EliminateRHS(dofs, b)] sets the entries of [b] at the indices listed
    in [dofs] to 0.0 and leaves every other entry of [b] as it was; the array
    [dofs] comes back as it went in, and the operator keeps it as its
    [ess_tdofs], the rest of the operator unchanged.  The call is defined
    whenever every listed index lies in [b]. *)
Theorem C10_EliminateRHS_frame {T : Type} `{Scalar T}
    (M : MassPAOperator T) (dofs : list Z) (b : Vector T) :
  (Forall (fun d => (0 <= d < Z.of_nat (length b))%Z) dofs ->
   exists b', EliminateRHS M dofs b =
              Some (mkMassPAOperator (mpa_quad_data M) (mpa_FESpace M) (Some dofs), dofs, b')) /\
  (forall M' dofs' b',
     EliminateRHS M dofs b = Some (M', dofs', b') ->
     dofs' = dofs /\
     M' = mkMassPAOperator (mpa_quad_data M) (mpa_FESpace M) (Some dofs) /\
     length b' = length b /\
     forall k, k < length b ->
       b' !! k = if decide (Z.of_nat k ∈ dofs) then Some zero else b !! k).
Proof.
  split.
  - intros Hall. unfold EliminateRHS.
    destruct (zero_entries_Some dofs b Hall) as (b' & -> & _). eauto.
  - intros M' dofs' b'. unfold EliminateRHS.
    destruct (zero_entries dofs b) as [b1|] eqn:E; [|discriminate].
    intros [= <- <- <-]. apply zero_entries_spec in E as (L & Hget). auto.
Qed.

(** ** The quadrature update: faults and memoization *)

Section UpdateFacts.
Context {T : Type} `{Scalar T} `{Mfem T}.

Lemma update_point_bad (P : HydroParams T) (S : Vector T) (i q : nat) (qd : QuadratureData T) :
  ltb zero (Weight S i q) = false ->
  update_point P S i q qd = BadJacobianDeterminant (Weight S i q).
Proof. intros E. unfold update_point. rewrite E. reflexivity. Qed.

Lemma update_point_good (P : HydroParams T) (S : Vector T) (i q : nat) (qd : QuadratureData T) :
  ltb zero (Weight S i q) = true ->
  update_point P S i q qd =
    let pv := point_values P qd S i q in
    Done (set_stressJinvT (set_dt_est qd (fmin (dt_est qd) (pv_dt_candidate pv)))
            (store_stressJiT (dim P) (i * nqp + q) (pv_stressJiT pv) (stressJinvT qd))).
Proof. intros E. unfold update_point. rewrite E. reflexivity. Qed.

Lemma update_point_cases (P : HydroParams T) (S : Vector T) (i q : nat) (qd : QuadratureData T) :
  (exists qd', update_point P S i q qd = Done qd') \/ bad_jacobian (update_point P S i q qd).
Proof.
  destruct (ltb zero (Weight S i q)) eqn:E.
  - left. rewrite update_point_good by assumption. eauto.
  - right. rewrite update_point_bad by assumption. exists (Weight S i q). auto.
Qed.

Lemma update_zone_cases (P : HydroParams T) (S : Vector T) (i : nat) (qd : QuadratureData T) :
  (exists qd', update_zone P S i qd = Done qd') \/ bad_jacobian (update_zone P S i qd).
Proof.
  unfold update_zone. generalize (seq 0 nqp) as ks. intros ks. revert qd.
  induction ks as [|k ks IH]; intros qd; cbn; [eauto|].
  destruct (update_point_cases P S i k qd) as [(qd' & E)|(d & E & Hd)]; rewrite E; cbn.
  - apply IH.
  - right. exists d. auto.
Qed.

Lemma sweep_bad (P : HydroParams T) (S : Vector T) (i q : nat) (qd : QuadratureData T) :
  i < zones_cnt P -> q < nqp ->
  ltb zero (Weight S i q) = false ->
  bad_jacobian (sweep P S qd).
Proof.
  intros Hi Hq Hbad. unfold sweep.
  apply (for_each_bad_jacobian _ _ i).
  - apply in_seq. lia.
  - intros qd0. unfold update_zone. apply (for_each_bad_jacobian _ _ q).
    + apply in_seq. lia.
    + intros qd1. rewrite update_point_bad by assumption. eexists; eauto.
    + intros. apply update_point_cases.
  - intros. apply update_zone_cases.
Qed.

(** The sweep ends when every determinant is positive. *)
Lemma sweep_done (P : HydroParams T) (S : Vector T) (qd : QuadratureData T) :
  (forall i q, i < zones_cnt P -> q < nqp -> ltb zero (Weight S i q) = true) ->
  exists qd', sweep P S qd = Done qd'.
Proof.
  intros Hgood. unfold sweep.
  destruct (for_each_done (fun _ _ => True) (zones_cnt P) (update_zone P S) qd) as (qd' & E & _);
    [exact I| |eauto].
  intros i qd0 Hi _. unfold update_zone.
  destruct (for_each_done (fun _ _ => True) nqp (update_point P S i) qd0) as (qd' & E & _);
    [exact I| |eauto].
  intros q qd1 Hq _. rewrite update_point_good by auto. eauto.
Qed.

Lemma bind_bad_jacobian {A B : Type} (m : outcome T A) (k : A -> outcome T B) :
  bad_jacobian m -> bad_jacobian (bind m k).
Proof. intros (d & -> & Hd). exists d. auto. Qed.

Section WithCollaborators.
Context `{Collaborators T}.



(** [Mult] writes the store through [UpdateQuadratureData] only, and lowers
    the flag. *)
Lemma Mult_store (P : HydroParams T) (st : HydroState T) (S dS_dt : Vector T)
    (st' : HydroState T) (d : Vector T) (log : list (SolveEvent T)) :
  Mult P st S dS_dt = Done (st', d, log) ->
  exists st1, UpdateQuadratureData P st S = Done st1 /\
              st' = mkHydroState (quad_data st1) false.
Proof.
  unfold Mult. destruct (UpdateQuadratureData P st S) as [st1| |]; cbn -[for_each for_loop];
    try discriminate.
  match goal with |- bind ?m _ = _ -> _ => destruct m as [acc| |] end; cbn; try discriminate.
  intros [= <- _ _]. eauto.
Qed.


End WithCollaborators.
End UpdateFacts.

(** C2: a quadrature point whose Jacobian determinant is not positive
    (detJ <= 0, exactly zero included) makes the quadrature update fail with
    the fatal Jacobian fault: the body of the loop returns the fault at that
    point without computing anything else, whatever the store holds, so the
    sweep, and with it [UpdateQuadratureData], [Mult] and
    [GetTimeStepEstimate], end in that fault and in no result. *)
Theorem C2_nonpositive_detJ_is_fatal {T : Type} `{Scalar T} `{!OrderLaws T}
    `{Mfem T} `{Collaborators T}
    (P : HydroParams T) (st : HydroState T) (S dS_dt : Vector T) (i q : nat) :
  quad_data_is_current st = false ->
  i < zones_cnt P -> q < nqp ->
  leb (Weight S i q) zero = true ->
  (forall qd, update_point P S i q qd = BadJacobianDeterminant (Weight S i q)) /\
  bad_jacobian (UpdateQuadratureData P st S) /\
  bad_jacobian (Mult P st S dS_dt) /\
  bad_jacobian (GetTimeStepEstimate P st S).
Proof.
  intros Hflag Hi Hq Hle.
  assert (Hbad : ltb zero (Weight S i q) = false) by (apply leb_not_ltb; assumption).
  assert (Hupd : bad_jacobian (UpdateQuadratureData P st S)).
  { unfold UpdateQuadratureData. rewrite Hflag.
    apply bind_bad_jacobian. eapply sweep_bad; eassumption. }
  split; [|split; [|split]].
  - intros qd. apply update_point_bad. assumption.
  - assumption.
  - unfold Mult. apply bind_bad_jacobian. assumption.
  - unfold GetTimeStepEstimate. apply bind_bad_jacobian. assumption.
Qed.

(** ** The stress at a quadrature point *)

Section StressFacts.
Context {T : Type} `{RingOps T}.

Lemma vget_replicate (n k : nat) (c : T) : k < n -> vget (replicate n c) k = c.
Proof.
  intros Hk. unfold vget. rewrite lookup_replicate_2 by assumption. reflexivity.
Qed.

Lemma vget_insert_eq (v : Vector T) (k : nat) (x : T) :
  k < length v -> vget (<[k := x]> v) k = x.
Proof. intros Hk. unfold vget. rewrite list_lookup_insert_eq by assumption. reflexivity. Qed.

Lemma vget_insert_ne (v : Vector T) (k k' : nat) (x : T) :
  k <> k' -> vget (<[k := x]> v) k' = vget v k'.
Proof. intros Hk. unfold vget. rewrite list_lookup_insert_ne by assumption. reflexivity. Qed.

Lemma vget_zip_with (f : T -> T -> T) (a b : Vector T) (k : nat) :
  k < length a -> k < length b ->
  vget (zip_with f a b) k = f (vget a k) (vget b k).
Proof.
  intros Ha Hb. unfold vget. rewrite lookup_zip_with.
  apply lookup_lt_is_Some_2 in Ha as (x & Hx). apply lookup_lt_is_Some_2 in Hb as (y & Hy).
  rewrite Hx, Hy. reflexivity.
Qed.

Lemma vget_map (f : T -> T) (a : Vector T) (k : nat) :
  k < length a -> vget (map f a) k = f (vget a k).
Proof.
  intros Ha. unfold vget. rewrite list_lookup_fmap.
  apply lookup_lt_is_Some_2 in Ha as (x & Hx). rewrite Hx. reflexivity.
Qed.

Lemma index_lt (n r c : nat) : r < n -> c < n -> r + c * n < n * n.
Proof.
  intros Hr Hc.
  assert (Datatypes.S c * n <= n * n) by (apply Nat.mul_le_mono_r; lia).
  cbn in *. lia.
Qed.

Lemma index_inj (n r c r' c' : nat) :
  r < n -> r' < n -> r + c * n = r' + c' * n -> r = r' /\ c = c'.
Proof.
  intros Hr Hr' E.
  destruct (Nat.lt_trichotomy c c') as [Hlt|[->|Hlt]].
  - assert (Datatypes.S c * n <= c' * n) by (apply Nat.mul_le_mono_r; lia).
    cbn in *. lia.
  - lia.
  - assert (Datatypes.S c' * n <= c * n) by (apply Nat.mul_le_mono_r; lia).
    cbn in *. lia.
Qed.

(** [stress = 0.0] then [stress(d,d) = x] for [d < n]: the diagonal matrix. *)
Lemma diagonal_loop (n : nat) (x : T) :
  let A := for_loop n (fun d st => mat_set st d d x) (mat_assign (mat_square n) zero) in
  mat_shape A n /\
  forall r c, r < n -> c < n -> mat_get A r c = if r =? c then x else zero.
Proof.
  cbv zeta.
  pose (Inv := fun (k : nat) (A : DenseMatrix T) =>
    mat_shape A n /\
    forall r c, r < n -> c < n ->
      mat_get A r c = if (r =? c) && (r <? k) then x else zero).
  assert (HI : Inv n (for_loop n (fun d st => mat_set st d d x)
                        (mat_assign (mat_square n) zero))).
  { apply for_loop_invariant.
    - split.
      + unfold mat_shape. cbn. rewrite !length_replicate. auto.
      + intros r c Hr Hc. rewrite andb_false_r. unfold mat_get, mat_index. cbn.
        rewrite length_replicate. apply vget_replicate, index_lt; assumption.
    - intros k A Hk ((Hh & Hw & Hl) & Hget). split.
      + unfold mat_shape, mat_set. cbn. rewrite length_insert. auto.
      + intros r c Hr Hc. unfold mat_get, mat_set, mat_index.
        cbn [data height width]. rewrite Hh.
        destruct (decide (r + c * n = k + k * n)) as [E|E].
        * apply index_inj in E as (-> & ->); [|assumption..].
          rewrite vget_insert_eq by (rewrite Hl; apply index_lt; assumption).
          rewrite Nat.eqb_refl.
          assert ((k <? Datatypes.S k) = true) as -> by (apply Nat.ltb_lt; lia).
          reflexivity.
        * rewrite vget_insert_ne by congruence.
          specialize (Hget r c Hr Hc). unfold mat_get, mat_index in Hget.
          rewrite Hh in Hget. rewrite Hget.
          destruct (Nat.eqb_spec r c) as [->|Hne]; [|reflexivity].
          rewrite !andb_true_l.
          destruct (Nat.ltb_spec c k), (Nat.ltb_spec c (Datatypes.S k));
            try reflexivity; try lia.
          assert (c = k) by lia. subst. contradiction. }
  destruct HI as (Hs & Hget). split; [assumption|].
  intros r c Hr Hc. rewrite (Hget r c Hr Hc).
  destruct (Nat.ltb_spec r n); [|lia]. rewrite andb_true_r. reflexivity.
Qed.

Lemma mat_Add_get (A B : DenseMatrix T) (x : T) (n r c : nat) :
  mat_shape A n -> mat_shape B n -> r < n -> c < n ->
  mat_get (mat_Add A x B) r c = add (mat_get A r c) (mul x (mat_get B r c)).
Proof.
  intros (Ha & _ & La) (Hb & _ & Lb) Hr Hc.
  unfold mat_get, mat_Add, mat_index. cbn. rewrite Ha, Hb.
  apply vget_zip_with; [rewrite La|rewrite Lb]; apply index_lt; assumption.
Qed.

End StressFacts.

(** At a quadrature point the density is [rho0DetJ0w / detJ / weight], the
    energy is clamped to [max(0, e)], and the matrix [stress] of the loop body
    is the diagonal matrix of [- MaterialPressure(rho, max(0,e))], to which,
    when artificial viscosity is on, [visc_coeff] times the symmetrized
    velocity gradient is added, with [visc_coeff = 2 rho h^2 |mu|], plus
    [0.5 rho h sound_speed] only when [mu < 0], where [mu] is the first
    eigenvalue that [CalcEigenvalues] returns for the symmetrized gradient
    (the smallest one).  What the body copies to the store is this matrix,
    multiplied by the transposed inverse Jacobian and by [weight * detJ]. *)
Lemma local_stress {T : Type} `{Scalar T} `{Mfem T}
    (P : HydroParams T) (qd : QuadratureData T) (S : Vector T) (i q : nat) :
  mat_shape (Symmetrize (GetVectorGradient_v S i q)) (dim P) ->
  let pv := point_values P qd S i q in
  let sgrad_v := Symmetrize (GetVectorGradient_v S i q) in
  let mu := vget (fst (CalcEigenvalues sgrad_v)) 0 in
  let rho := div (div (vget (rho0DetJ0w qd) (i * nqp + q)) (Weight S i q)) (ip_weight q) in
  let e := fmax zero (GetValues_e S i q) in
  let sound_speed := fsqrt (mul (mul (gamma P) (sub (gamma P) one)) e) in
  let h := pv_h pv in
  let visc_coeff :=
    if ltb mu zero
    then add (mul (mul (mul (mul two rho) h) h) (fabs mu))
             (mul (mul (mul half rho) h) sound_speed)
    else mul (mul (mul (mul two rho) h) h) (fabs mu) in
  pv_rho pv = rho /\
  pv_e pv = e /\
  (forall r c, r < dim P -> c < dim P ->
     mat_get (pv_stress pv) r c =
       let minus_p := if r =? c then neg (MaterialPressure P rho e) else zero in
       if use_viscosity P then add minus_p (mul visc_coeff (mat_get sgrad_v r c))
       else minus_p) /\
  pv_stressJiT pv =
    mat_scale (MultABt (pv_stress pv) (CalcInverse (Jacobian S i q)))
              (mul (ip_weight q) (Weight S i q)).
Proof.
  intros Hshape. cbv zeta.
  unfold point_values.
  destruct (CalcEigenvalues (Symmetrize (GetVectorGradient_v S i q)))
    as [eig_val_data eig_vec_data] eqn:Eeig.
  cbn [pv_rho pv_e pv_stress pv_h pv_stressJiT pv_dt_candidate fst].
  split; [reflexivity|]. split; [reflexivity|]. split; [|reflexivity].
  intros r c Hr Hc.
  destruct (diagonal_loop (dim P)
              (neg (MaterialPressure P
                 (div (div (vget (rho0DetJ0w qd) (i * nqp + q)) (Weight S i q)) (ip_weight q))
                 (fmax zero (GetValues_e S i q))))) as (Hs & Hget).
  destruct (use_viscosity P).
  - rewrite (mat_Add_get _ _ _ (dim P)) by assumption.
    rewrite Hget by assumption. unfold visc_coeff_of.
    destruct (ltb (vget eig_val_data 0) zero); reflexivity.
  - apply Hget; assumption.
Qed.

(** ** The time-step estimate *)

Section TimeStepFacts.
Context {T : Type} `{Scalar T} `{Mfem T}.

Lemma frame_refl (qd : QuadratureData T) : frame qd qd.
Proof. repeat split. Qed.

Lemma frame_trans (qd1 qd2 qd3 : QuadratureData T) :
  frame qd1 qd2 -> frame qd2 qd3 -> frame qd1 qd3.
Proof. unfold frame. intros ? ?. intuition congruence. Qed.

(** A point reads the store through [rho0DetJ0w], [Jac0inv] and [h0] only. *)
Lemma point_values_frame (P : HydroParams T) (qd qd' : QuadratureData T) (S : Vector T)
    (i q : nat) :
  frame qd qd' -> point_values P qd' S i q = point_values P qd S i q.
Proof.
  intros (_ & _ & Ej & _ & _ & Er & Eh). unfold point_values. rewrite Ej, Er, Eh. reflexivity.
Qed.

Lemma update_point_frame (P : HydroParams T) (S : Vector T) (i q : nat)
    (qd qd' : QuadratureData T) :
  update_point P S i q qd = Done qd' ->
  frame qd qd' /\
  dt_est qd' = fmin (dt_est qd) (pv_dt_candidate (point_values P qd S i q)) /\
  stressJinvT qd' =
    store_stressJiT (dim P) (i * nqp + q) (pv_stressJiT (point_values P qd S i q))
      (stressJinvT qd).
Proof.
  unfold update_point. destruct (ltb zero (Weight S i q)); [|discriminate].
  intros [= <-]. repeat split.
Qed.

Lemma candidates_frame (P : HydroParams T) (qd qd' : QuadratureData T) (S : Vector T) :
  frame qd qd' -> candidates P qd' S = candidates P qd S.
Proof.
  intros Hf. unfold candidates. apply flat_map_ext. intros i. apply map_ext. intros q.
  rewrite (point_values_frame P qd qd') by assumption. reflexivity.
Qed.

Lemma update_zone_dt_est (P : HydroParams T) (S : Vector T) (i : nat)
    (qd qd' : QuadratureData T) :
  update_zone P S i qd = Done qd' ->
  frame qd qd' /\
  dt_est qd' = fold_left fmin (zone_candidates P qd S i nqp) (dt_est qd).
Proof.
  unfold update_zone. intros Hrun.
  apply (for_each_invariant
           (fun k s => frame qd s /\
                       dt_est s = fold_left fmin (zone_candidates P qd S i k) (dt_est qd))
           nqp (update_point P S i) qd qd'); [| |assumption].
  - split; [apply frame_refl|reflexivity].
  - intros k s s' Hk (Hf & Hdt) E. apply update_point_frame in E as (Hf' & Hdt' & _).
    split; [eapply frame_trans; eassumption|].
    unfold zone_candidates. rewrite seq_S, map_app, fold_left_app. cbn.
    rewrite Hdt', Hdt. rewrite (point_values_frame P qd s) by assumption. reflexivity.
Qed.

Lemma candidates_S (P : HydroParams T) (qd : QuadratureData T) (S : Vector T) (k : nat) :
  flat_map (fun i => zone_candidates P qd S i nqp) (seq 0 (Datatypes.S k)) =
  flat_map (fun i => zone_candidates P qd S i nqp) (seq 0 k) ++ zone_candidates P qd S k nqp.
Proof. rewrite seq_S, flat_map_app. cbn. rewrite app_nil_r. reflexivity. Qed.

(** The sweep folds [std::min] over the candidates, from the estimate that
    the store holds when the sweep begins. *)
Lemma sweep_dt_est (P : HydroParams T) (S : Vector T) (qd qd' : QuadratureData T) :
  sweep P S qd = Done qd' ->
  frame qd qd' /\
  dt_est qd' = fold_left fmin (candidates P qd S) (dt_est qd).
Proof.
  unfold sweep. intros Hrun.
  apply (for_each_invariant
           (fun k s => frame qd s /\
                       dt_est s = fold_left fmin
                         (flat_map (fun i => zone_candidates P qd S i nqp) (seq 0 k))
                         (dt_est qd))
           (zones_cnt P) (update_zone P S) qd qd'); [| |assumption].
  - split; [apply frame_refl|reflexivity].
  - intros k s s' Hk (Hf & Hdt) E. apply update_zone_dt_est in E as (Hf' & Hdt').
    split; [eapply frame_trans; eassumption|].
    rewrite candidates_S, fold_left_app, <- Hdt, Hdt'. f_equal.
    unfold zone_candidates. apply map_ext. intros q.
    rewrite (point_values_frame P qd s) by assumption. reflexivity.
Qed.

Section Order.
Context `{!OrderLaws T}.

Lemma not_above_trans (a b c : T) : not_above a b -> not_above b c -> not_above a c.
Proof.
  unfold not_above. intros [->|Hab] [->|Hbc]; auto.
  right. eapply ltb_trans; eassumption.
Qed.

Lemma not_above_ltb (a b : T) : not_above a b -> ltb a b = false.
Proof.
  intros [->|Hab]; [apply ltb_irrefl|apply ltb_asym; assumption].
Qed.

Lemma fmin_not_above (a b : T) : not_above a (fmin a b).
Proof.
  unfold fmin, not_above. destruct (ltb b a) eqn:E; auto.
Qed.

Lemma fold_fmin_not_above (l : list T) (a : T) : not_above a (fold_left fmin l a).
Proof.
  revert a. induction l as [|b l IH]; intros a; cbn.
  - left. reflexivity.
  - eapply not_above_trans; [apply fmin_not_above|apply IH].
Qed.

End Order.
End TimeStepFacts.

(** C5 (as the code has it): no evaluation resets the estimate.
    [ResetTimeStepEstimate] alone sets it to +infinity, and touches nothing
    else; the quadrature sweep starts from the value it finds in the store and
    replaces it, point after point, by [std::min(dt_est, cfl * h / sound_speed)],
    so that after the sweep the estimate is the fold of [std::min] over the
    candidates from the value held before, which it never exceeds; an update
    that finds the flag up leaves the estimate as it is.  [Mult] and
    [GetTimeStepEstimate] run this update and do nothing else to the
    estimate. *)
Theorem C5_time_step_estimate {T : Type} `{Scalar T} `{!OrderLaws T} `{Mfem T}
    `{Collaborators T} (P : HydroParams T) :
  (forall st,
     dt_est (quad_data (ResetTimeStepEstimate st)) = infinity /\
     frame (quad_data st) (quad_data (ResetTimeStepEstimate st)) /\
     stressJinvT (quad_data (ResetTimeStepEstimate st)) = stressJinvT (quad_data st) /\
     quad_data_is_current (ResetTimeStepEstimate st) = quad_data_is_current st) /\
  (forall S i q qd qd',
     update_point P S i q qd = Done qd' ->
     let pv := point_values P qd S i q in
     pv_dt_candidate pv = div (mul (cfl P) (pv_h pv)) (pv_sound_speed pv) /\
     dt_est qd' = fmin (dt_est qd) (pv_dt_candidate pv) /\
     ltb (dt_est qd) (dt_est qd') = false) /\
  (forall st S st',
     UpdateQuadratureData P st S = Done st' ->
     dt_est (quad_data st') =
       (if quad_data_is_current st then dt_est (quad_data st)
        else fold_left fmin (candidates P (quad_data st) S) (dt_est (quad_data st))) /\
     (dt_est (quad_data st') = dt_est (quad_data st) \/
      ltb (dt_est (quad_data st')) (dt_est (quad_data st)) = true) /\
     ltb (dt_est (quad_data st)) (dt_est (quad_data st')) = false) /\
  (forall st S dS_dt st' d log,
     Mult P st S dS_dt = Done (st', d, log) ->
     exists st1, UpdateQuadratureData P st S = Done st1 /\
                 dt_est (quad_data st') = dt_est (quad_data st1)) /\
  (forall st S st' dt,
     GetTimeStepEstimate P st S = Done (st', dt) ->
     UpdateQuadratureData P st S = Done st' /\
     dt = MPI_Allreduce_min (dt_est (quad_data st'))).
Proof.
  split; [|split; [|split; [|split]]].
  - intros st. repeat split.
  - intros S i q qd qd' E. cbv zeta. apply update_point_frame in E as (_ & Hdt & _).
    split; [|split].
    + unfold point_values.
      destruct (CalcEigenvalues (Symmetrize (GetVectorGradient_v S i q))). reflexivity.
    + assumption.
    + rewrite Hdt. apply not_above_ltb, fmin_not_above.
  - intros st S st'. unfold UpdateQuadratureData.
    destruct (quad_data_is_current st).
    + intros [= <-]. split; [reflexivity|]. split; [auto|apply ltb_irrefl].
    + destruct (sweep P S (quad_data st)) as [qd'| |] eqn:E; cbn; try discriminate.
      intros [= <-]. cbn. apply sweep_dt_est in E as (_ & ->).
      split; [reflexivity|].
      pose proof (fold_fmin_not_above (candidates P (quad_data st) S) (dt_est (quad_data st)))
        as Hna.
      split; [exact Hna|apply not_above_ltb, Hna].
  - intros st S dS_dt st' d log E. apply Mult_store in E as (st1 & E1 & ->).
    exists st1. split; [assumption|reflexivity].
  - intros st S st' dt. unfold GetTimeStepEstimate.
    destruct (UpdateQuadratureData P st S) as [st1| |]; cbn; try discriminate.
    intros [= <- <-]. split; reflexivity.
Qed.

(** C7 (as the code has it): at a processed quadrature point whose energy
    value is <= 0 the energy is clamped to 0, the sound speed is
    [sqrt(gamma * (gamma - 1) * 0)], which is 0 whenever that product is 0,
    and the candidate is the quotient [cfl * h / 0]: the code has no test of
    the divisor and does divide by zero.  With the IEEE quotient, and
    [cfl * h > 0], the candidate is +infinity, and [std::min] leaves [dt_est]
    as it was. *)
Theorem C7_zero_energy_candidate {T : Type} `{Scalar T} `{!OrderLaws T} `{!IeeeLaws T}
    `{Mfem T} (P : HydroParams T) (qd : QuadratureData T) (S : Vector T) (i q : nat) :
  ltb zero (Weight S i q) = true ->
  leb (GetValues_e S i q) zero = true ->
  mul (mul (gamma P) (sub (gamma P) one)) zero = zero ->
  ltb zero (mul (cfl P) (pv_h (point_values P qd S i q))) = true ->
  let pv := point_values P qd S i q in
  pv_e pv = zero /\
  divides_by_zero pv /\
  pv_dt_candidate pv = div (mul (cfl P) (pv_h pv)) zero /\
  pv_dt_candidate pv = infinity /\
  exists qd', update_point P S i q qd = Done qd' /\ dt_est qd' = dt_est qd.
Proof.
  intros Hdet He Hrad Hpos. cbv zeta.
  assert (Ee : pv_e (point_values P qd S i q) = zero).
  { unfold point_values.
    destruct (CalcEigenvalues (Symmetrize (GetVectorGradient_v S i q))). cbn [pv_e].
    unfold fmax. rewrite (leb_not_ltb _ _ He). reflexivity. }
  assert (Es : pv_sound_speed (point_values P qd S i q) = zero).
  { revert Ee. unfold point_values.
    destruct (CalcEigenvalues (Symmetrize (GetVectorGradient_v S i q))).
    cbn [pv_e pv_sound_speed]. intros ->. rewrite Hrad. apply fsqrt_zero. }
  assert (Ec : pv_dt_candidate (point_values P qd S i q) =
               div (mul (cfl P) (pv_h (point_values P qd S i q))) zero).
  { rewrite <- Es. unfold point_values.
    destruct (CalcEigenvalues (Symmetrize (GetVectorGradient_v S i q))). reflexivity. }
  assert (Ei : pv_dt_candidate (point_values P qd S i q) = infinity).
  { rewrite Ec. apply div_pos_zero. assumption. }
  repeat split; try assumption.
  rewrite update_point_good by assumption. cbv zeta.
  eexists. split; [reflexivity|]. cbn. rewrite Ei. unfold fmin.
  rewrite ltb_infinity. reflexivity.
Qed.

(** ** The solves of [Mult] *)

Section SolveFacts.
Context {T : Type} `{Scalar T} `{Mfem T} `{Collaborators T}.

Lemma configure_cg_settings (op : Operator T) :
  oper (configure_cg op) = Some op /\
  rel_tol (configure_cg op) = tol_1em8 /\
  abs_tol (configure_cg op) = zero /\
  max_iter (configure_cg op) = 200%Z /\
  print_level (configure_cg op) = 0%Z.
Proof. repeat split. Qed.

(** The velocity solves with partial assembly: conjugate gradients on the
    mass operator of [H1compFESpace], one per component. *)
Lemma velocity_pa_log (rhs : Vector T) (n : nat)
    (s s' : MassPAOperator T * MultAcc T) :
  mpa_FESpace (fst s) = H1compFESpace ->
  for_each (seq 0 n) (velocity_pa_component rhs) s = Done s' ->
  exists l, acc_log (snd s') = acc_log (snd s) ++ l /\
            Forall (fun ev => is_energy_cg ev = false /\ settings_ok ev) l.
Proof.
  intros Hfes Hrun.
  apply (for_each_invariant
           (fun _ s1 => mpa_FESpace (fst s1) = H1compFESpace /\
                        exists l, acc_log (snd s1) = acc_log (snd s) ++ l /\
                          Forall (fun ev => is_energy_cg ev = false /\ settings_ok ev) l)
           n (velocity_pa_component rhs) s s'); [| |assumption].
  - split; [assumption|]. exists []. rewrite app_nil_r. split; [reflexivity|constructor].
  - intros c [M a] s1 _ (HM & l & El & Hl). unfold velocity_pa_component.
    destruct (EliminateRHS _ _ _) as [[[M' dofs'] B']|] eqn:E; [|discriminate].
    intros [= <-]. cbn [acc_log fst snd] in *.
    unfold EliminateRHS in E. destruct (zero_entries _ _); [|discriminate].
    injection E as <- _ _. split; [assumption|].
    rewrite El, <- app_assoc. eexists. split; [reflexivity|].
    rewrite Forall_app. split; [assumption|]. constructor; [|constructor].
    split; [cbn; rewrite HM; reflexivity|reflexivity].
Qed.

(** The energy solves without partial assembly: the local inverse mass matrix
    of every zone, and no conjugate gradient. *)
Lemma energy_full_log (Force : DenseMatrix T) (v : Vector T) (e_source : option (Vector T))
    (n : nat) (acc : MultAcc T) :
  exists l,
    acc_log (for_loop n (energy_full_zone Force v e_source) acc) = acc_log acc ++ l /\
    Forall (fun ev => is_energy_cg ev = false /\ settings_ok ev) l /\
    forall i, i < n -> exists e_rhs, In (DenseInverseMult i e_rhs) l.
Proof.
  apply (for_loop_invariant
           (fun k s => exists l, acc_log s = acc_log acc ++ l /\
              Forall (fun ev => is_energy_cg ev = false /\ settings_ok ev) l /\
              forall i, i < k -> exists e_rhs, In (DenseInverseMult i e_rhs) l)).
  - exists []. rewrite app_nil_r. split; [reflexivity|]. split; [constructor|]. lia.
  - intros k s _ (l & El & Hl & Hz). unfold energy_full_zone. cbn [acc_log].
    rewrite El, <- app_assoc. eexists. split; [reflexivity|]. split.
    + rewrite Forall_app. split; [assumption|]. constructor; [|constructor].
      split; [reflexivity|exact I].
    + intros i Hi. destruct (decide (i = k)) as [->|Hne].
      * eexists. apply in_or_app. right. left. reflexivity.
      * destruct (Hz i) as (r & Hr); [lia|]. exists r. apply in_or_app. left. exact Hr.
Qed.

End SolveFacts.

(** C6 (as the code has it): with partial assembly the last solve of an
    evaluation is the conjugate gradient solve of the energy system, on a
    fresh [MassPAOperator] over [L2FESpace] whose [ess_tdofs] is [NULL], with
    the right-hand side [ForcePA.MultTranspose(v)] (plus the source, if any)
    as it is, relative tolerance 1e-8, absolute tolerance 0 and at most 200
    iterations.  Without partial assembly no conjugate gradient solve is made
    for the energy: every zone is solved with its local inverse mass matrix.
    In both cases every conjugate gradient solve of the evaluation runs with
    these settings. *)
Theorem C6_energy_solve {T : Type} `{Scalar T} `{Mfem T} `{Collaborators T}
    (P : HydroParams T) (st : HydroState T) (S dS_dt : Vector T)
    (st' : HydroState T) (d : Vector T) (log : list (SolveEvent T)) :
  Mult P st S dS_dt = Done (st', d, log) ->
  Forall settings_ok log /\
  (p_assembly P = true ->
   exists log0 de,
     let qd := quad_data st' in
     let EMassPA := mkMassPAOperator qd L2FESpace None in
     let cg := configure_cg (OpMassPA EMassPA) in
     let v := subvec H1_GetVSize H1_GetVSize S in
     let rhs :=
       if (source_type P =? 1)%Z
       then vec_add_assign (ForcePA_MultTranspose qd v) (e_source_Assemble S)
       else ForcePA_MultTranspose qd v in
     log = log0 ++ [CgMult cg rhs de] /\
     Forall (fun ev => is_energy_cg ev = false) log0 /\
     oper cg = Some (OpMassPA EMassPA) /\
     rel_tol cg = tol_1em8 /\ abs_tol cg = zero /\ max_iter cg = 200%Z) /\
  (p_assembly P = false ->
   Forall (fun ev => is_energy_cg ev = false) log /\
   forall i, i < zones_cnt P -> exists e_rhs, In (DenseInverseMult i e_rhs) log).
Proof.
  unfold Mult. destruct (UpdateQuadratureData P st S) as [st1| |]; cbn -[for_each for_loop];
    try discriminate.
  destruct (p_assembly P) eqn:Epa.
  - destruct (for_each (seq 0 (dim P)) _ _) as [[M acc]| |] eqn:Evel;
      cbn -[for_each for_loop]; try discriminate.
    apply velocity_pa_log in Evel as (l & El & Hl); [|reflexivity].
    cbn [acc_log app fst snd] in El.
    intros [= <- <- <-]. cbn [quad_data]. unfold energy_pa. cbn [acc_log].
    split; [|split; [|discriminate]].
    + rewrite El, Forall_app. split.
      * eapply Forall_impl; [exact Hl|]. intros ev (_ & Hs). exact Hs.
      * destruct (source_type P =? 1)%Z; repeat constructor.
    + intros _. exists l. eexists. cbv zeta. rewrite El.
      split; [destruct (source_type P =? 1)%Z; reflexivity|].
      split; [eapply Forall_impl; [exact Hl|]; intros ev (Hc & _); exact Hc|].
      repeat split.
  - cbn -[for_each for_loop]. intros [= <- <- <-].
    destruct (energy_full_log (Force_Assemble (quad_data st1))
                (subvec H1_GetVSize H1_GetVSize S)
                (if (source_type P =? 1)%Z then Some (e_source_Assemble S) else None)
                (zones_cnt P)
                (velocity_full (Force_Assemble (quad_data st1)) (vec_const L2_GetVSize one)
                   (mkMultAcc (set_subvec 0 (subvec H1_GetVSize H1_GetVSize S)
                                 (vec_const (length dS_dt) zero)) [])))
      as (l & El & Hl & Hz).
    rewrite El. unfold velocity_full.
    destruct (Mv_FormLinearSystem _ _ _) as [[A X] B]. cbn [acc_log app].
    split; [|split; [discriminate|]].
    + constructor; [reflexivity|].
      eapply Forall_impl; [exact Hl|]. intros ev (_ & Hs). exact Hs.
    + intros _. split.
      * constructor; [reflexivity|].
        eapply Forall_impl; [exact Hl|]. intros ev (Hc & _). exact Hc.
      * intros i Hi. destruct (Hz i Hi) as (r & Hr). exists r. right. exact Hr.
Qed.

(** ** What the quadrature update writes *)

Section StoreFacts.
Context {T : Type} `{Scalar T}.


Lemma tensor_index_lt (n d i j k : nat) :
  i < n -> j < d -> k < d -> i + n * (j + d * k) < n * d * d.
Proof.
  intros Hi Hj Hk.
  assert (Hjk : j + k * d < d * d) by (apply index_lt; assumption).
  assert (Hm : n * Datatypes.S (j + d * k) <= n * (d * d))
    by (apply Nat.mul_le_mono_l; lia).
  rewrite Nat.mul_succ_r in Hm. rewrite <- Nat.mul_assoc. lia.
Qed.

Lemma tensor_index_inj (n d i j k i' j' k' : nat) :
  i < n -> i' < n -> j < d -> j' < d ->
  i + n * (j + d * k) = i' + n * (j' + d * k') ->
  i = i' /\ j = j' /\ k = k'.
Proof.
  intros Hi Hi' Hj Hj' E.
  rewrite (Nat.mul_comm n (j + d * k)), (Nat.mul_comm n (j' + d * k')) in E.
  apply index_inj in E as (-> & E); [|assumption..].
  rewrite (Nat.mul_comm d k), (Nat.mul_comm d k') in E.
  apply index_inj in E as (-> & ->); [|assumption..]. auto.
Qed.

Lemma tensor_set_shape (A : DenseTensor T) (n d k i j : nat) (x : T) :
  tensor_shape A n d -> tensor_shape (tensor_set A k i j x) n d.
Proof.
  intros (HI & HJ & HK & HL). unfold tensor_shape, tensor_set. cbn.
  rewrite length_insert. auto.
Qed.

Lemma tensor_get_set (A : DenseTensor T) (n d k i j k' i' j' : nat) (x : T) :
  tensor_shape A n d ->
  i < n -> j < d -> k < d -> i' < n -> j' < d ->
  tensor_get (tensor_set A k i j x) k' i' j' =
    if decide (k' = k /\ i' = i /\ j' = j) then x else tensor_get A k' i' j'.
Proof.
  intros (HI & HJ & HK & HL) Hi Hj Hk Hi' Hj'.
  unfold tensor_get, tensor_set, tensor_index. cbn [tdata SizeI SizeJ SizeK].
  rewrite HI, HJ.
  destruct (decide (k' = k /\ i' = i /\ j' = j)) as [(-> & -> & ->)|Hne].
  - apply vget_insert_eq. rewrite HL. apply tensor_index_lt; assumption.
  - apply vget_insert_ne. intros E.
    apply tensor_index_inj in E as (-> & -> & ->); auto.
Qed.

(** The two loops of the point write the [d] x [d] entries of the point [zq]
    and nothing else. *)
Lemma store_stressJiT_spec (A : DenseTensor T) (n d zq : nat) (M : DenseMatrix T) :
  tensor_shape A n d -> zq < n ->
  tensor_shape (store_stressJiT d zq M A) n d /\
  forall vd zq' gd, vd < d -> zq' < n -> gd < d ->
    tensor_get (store_stressJiT d zq M A) vd zq' gd =
      if decide (zq' = zq) then mat_get M vd gd else tensor_get A vd zq' gd.
Proof.
  intros Hshape Hzq. unfold store_stressJiT.
  pose (Outer := fun (k : nat) (B : DenseTensor T) =>
    tensor_shape B n d /\
    forall vd zq' gd, vd < d -> zq' < n -> gd < d ->
      tensor_get B vd zq' gd =
        if decide (zq' = zq /\ vd < k) then mat_get M vd gd else tensor_get A vd zq' gd).
  pose (Inner := fun (k g : nat) (C : DenseTensor T) =>
    tensor_shape C n d /\
    forall vd zq' gd, vd < d -> zq' < n -> gd < d ->
      tensor_get C vd zq' gd =
        if decide (zq' = zq /\ (vd < k \/ (vd = k /\ gd < g)))
        then mat_get M vd gd else tensor_get A vd zq' gd).
  assert (Hinner : forall k B, k < d -> Outer k B ->
            Inner k d (for_loop d (fun gd A0 => tensor_set A0 k zq gd (mat_get M k gd)) B)).
  { intros k B Hk (Hs & Hget). apply (for_loop_invariant (Inner k)).
    - split; [assumption|]. intros vd zq' gd Hvd Hzq' Hgd.
      rewrite (Hget vd zq' gd) by assumption.
      destruct (decide (zq' = zq /\ vd < k)) as [(-> & Hlt)|Hn].
      + rewrite decide_True by (split; [reflexivity|lia]). reflexivity.
      + rewrite decide_False by (intros (? & [?|(? & ?)]); [apply Hn; auto|lia]).
        reflexivity.
    - intros g C Hg (Hsc & Hgetc). split; [apply tensor_set_shape; assumption|].
      intros vd zq' gd Hvd Hzq' Hgd.
      rewrite (tensor_get_set C n d) by assumption.
      destruct (decide (vd = k /\ zq' = zq /\ gd = g)) as [(-> & -> & ->)|Hne].
      + rewrite decide_True by (split; [reflexivity|right; split; [reflexivity|lia]]).
        reflexivity.
      + rewrite (Hgetc vd zq' gd) by assumption.
        destruct (decide (zq' = zq /\ (vd < k \/ vd = k /\ gd < g))) as [(-> & Hc)|Hn].
        * rewrite decide_True by (split; [reflexivity|lia]). reflexivity.
        * rewrite decide_False; [reflexivity|].
          intros (-> & [?|(-> & ?)]); [apply Hn; auto|].
          destruct (decide (gd = g)) as [->|?]; [apply Hne; auto|].
          apply Hn. split; [reflexivity|right; split; [reflexivity|lia]]. }
  assert (Houter : Outer d (for_loop d (fun vd A0 =>
            for_loop d (fun gd A1 => tensor_set A1 vd zq gd (mat_get M vd gd)) A0) A)).
  { apply (for_loop_invariant Outer).
    - split; [assumption|]. intros vd zq' gd _ _ _.
      rewrite decide_False by lia. reflexivity.
    - intros k B Hk HB. destruct (Hinner k B Hk HB) as (Hs' & Hget').
      split; [assumption|]. intros vd zq' gd Hvd Hzq' Hgd.
      rewrite (Hget' vd zq' gd) by assumption.
      destruct (decide (zq' = zq /\ vd < Datatypes.S k)) as [(-> & Hlt)|Hn].
      + rewrite decide_True by (split; [reflexivity|lia]). reflexivity.
      + rewrite decide_False by (intros (? & ?); apply Hn; split; [assumption|lia]).
        reflexivity. }
  destruct Houter as (Hs & Hget). split; [assumption|].
  intros vd zq' gd Hvd Hzq' Hgd. rewrite (Hget vd zq' gd) by assumption.
  destruct (decide (zq' = zq)) as [->|Hne].
  - rewrite decide_True by auto. reflexivity.
  - rewrite decide_False by tauto. reflexivity.
Qed.

End StoreFacts.

Section SweepWrites.
Context {T : Type} `{Scalar T} `{Mfem T}.

Lemma zq_lt (z i q : nat) : i < z -> q < nqp -> i * nqp + q < z * nqp.
Proof.
  intros Hi Hq.
  assert (Datatypes.S i * nqp <= z * nqp) by (apply Nat.mul_le_mono_r; lia).
  cbn in *. lia.
Qed.

Lemma zq_inj (i q i' q' : nat) :
  q < nqp -> q' < nqp -> i * nqp + q = i' * nqp + q' -> i = i' /\ q = q'.
Proof.
  intros Hq Hq' E. rewrite (Nat.add_comm (i * nqp)), (Nat.add_comm (i' * nqp)) in E.
  apply index_inj in E as (-> & ->); auto.
Qed.

Lemma update_point_writes (P : HydroParams T) (S : Vector T) (i q : nat)
    (qd0 qd : QuadratureData T) :
  frame qd0 qd ->
  tensor_shape (stressJinvT qd) (zones_cnt P * nqp) (dim P) ->
  i < zones_cnt P -> q < nqp ->
  ltb zero (Weight S i q) = true ->
  exists qd',
    update_point P S i q qd = Done qd' /\
    frame qd0 qd' /\
    tensor_shape (stressJinvT qd') (zones_cnt P * nqp) (dim P) /\
    fresh_at P qd0 S (stressJinvT qd') i q /\
    forall i' q', i' < zones_cnt P -> q' < nqp ->
      fresh_at P qd0 S (stressJinvT qd) i' q' ->
      fresh_at P qd0 S (stressJinvT qd') i' q'.
Proof.
  intros Hf Hs Hi Hq Hdet.
  pose proof (update_point_good P S i q qd Hdet) as E. cbv zeta in E.
  eexists. split; [exact E|].
  apply update_point_frame in E as (Hf' & _ & Ew).
  pose proof (zq_lt _ _ _ Hi Hq) as Hzq.
  destruct (store_stressJiT_spec (stressJinvT qd) _ _ (i * nqp + q)
              (pv_stressJiT (point_values P qd S i q)) Hs Hzq) as (Hs' & Hget).
  rewrite <- Ew in Hs', Hget.
  split; [eapply frame_trans; eassumption|]. split; [assumption|]. split.
  - intros vd gd Hvd Hgd. rewrite Hget by assumption.
    rewrite decide_True by reflexivity.
    rewrite (point_values_frame P qd0 qd) by assumption. reflexivity.
  - intros i' q' Hi' Hq' Hold vd gd Hvd Hgd.
    rewrite Hget by (try assumption; apply zq_lt; assumption).
    destruct (decide (i' * nqp + q' = i * nqp + q)) as [Eq|Hne].
    + apply zq_inj in Eq as (-> & ->); [|assumption..].
      rewrite (point_values_frame P qd0 qd) by assumption. reflexivity.
    + apply Hold; assumption.
Qed.

(** The sweep, when every determinant is positive, runs to its end and
    leaves in the store the force coefficients of every point. *)
Lemma sweep_writes (P : HydroParams T) (S : Vector T) (qd : QuadratureData T) :
  tensor_shape (stressJinvT qd) (zones_cnt P * nqp) (dim P) ->
  (forall i q, i < zones_cnt P -> q < nqp -> ltb zero (Weight S i q) = true) ->
  exists qd',
    sweep P S qd = Done qd' /\
    frame qd qd' /\
    tensor_shape (stressJinvT qd') (zones_cnt P * nqp) (dim P) /\
    forall i q, i < zones_cnt P -> q < nqp -> fresh_at P qd S (stressJinvT qd') i q.
Proof.
  intros Hs Hgood. unfold sweep.
  pose (Zone := fun (k : nat) (s : QuadratureData T) =>
    frame qd s /\ tensor_shape (stressJinvT s) (zones_cnt P * nqp) (dim P) /\
    forall i q, i < k -> q < nqp -> fresh_at P qd S (stressJinvT s) i q).
  destruct (for_each_done Zone (zones_cnt P) (update_zone P S) qd) as (qd' & E & HZ).
  - split; [apply frame_refl|]. split; [assumption|]. lia.
  - intros i s Hi (Hf & Hss & Hfresh). unfold update_zone.
    pose (Point := fun (k : nat) (s' : QuadratureData T) =>
      frame qd s' /\ tensor_shape (stressJinvT s') (zones_cnt P * nqp) (dim P) /\
      (forall i' q', i' < i -> q' < nqp -> fresh_at P qd S (stressJinvT s') i' q') /\
      (forall q', q' < k -> fresh_at P qd S (stressJinvT s') i q')).
    destruct (for_each_done Point nqp (update_point P S i) s) as (s' & E & HP).
    + split; [assumption|]. split; [assumption|]. split; [assumption|]. lia.
    + intros q s1 Hq (Hf1 & Hs1 & Hprev & Hcur).
      destruct (update_point_writes P S i q qd s1 Hf1 Hs1 Hi Hq (Hgood i q Hi Hq))
        as (s2 & E2 & Hf2 & Hs2 & Hnew & Hkeep).
      exists s2. split; [assumption|]. split; [assumption|]. split; [assumption|]. split.
      * intros i' q' Hi' Hq'. apply Hkeep; [lia|assumption|]. apply Hprev; assumption.
      * intros q' Hq'. destruct (decide (q' = q)) as [->|Hne]; [assumption|].
        apply Hkeep; [assumption|lia|]. apply Hcur. lia.
    + exists s'. split; [assumption|]. destruct HP as (Hf' & Hs' & Hprev & Hcur).
      split; [assumption|]. split; [assumption|].
      intros i' q' Hi' Hq'. destruct (decide (i' = i)) as [->|Hne].
      * apply Hcur. assumption.
      * apply Hprev; [lia|assumption].
  - exists qd'. destruct HZ as (Hf & Hs' & Hfresh). auto.
Qed.

End SweepWrites.

(** C8 (as the code has it): an update that finds the flag up writes nothing.
    An update that finds the flag down, on a store of the sizes of the
    constructor and a mesh whose determinants are all positive, runs to its
    end, raises the flag, and leaves at every point of every zone the force
    coefficients [stressJinvT] computed from the current state; [dt_est] is
    folded with the candidates of the sweep; the fields of the reference
    configuration ([Jac0inv], [rho0DetJ0], [rhoDetJw], [rho0DetJ0w], [h0]) are
    as before. *)
Theorem C8_update_writes {T : Type} `{Scalar T} `{Mfem T}
    (P : HydroParams T) (st : HydroState T) (S : Vector T) :
  (quad_data_is_current st = true -> UpdateQuadratureData P st S = Done st) /\
  (quad_data_is_current st = false ->
   tensor_shape (stressJinvT (quad_data st)) (zones_cnt P * nqp) (dim P) ->
   (forall i q, i < zones_cnt P -> q < nqp -> ltb zero (Weight S i q) = true) ->
   exists qd',
     UpdateQuadratureData P st S = Done (mkHydroState qd' true) /\
     (forall i q vd gd, i < zones_cnt P -> q < nqp -> vd < dim P -> gd < dim P ->
        tensor_get (stressJinvT qd') vd (i * nqp + q) gd =
        mat_get (pv_stressJiT (point_values P (quad_data st) S i q)) vd gd) /\
     dt_est qd' = fold_left fmin (candidates P (quad_data st) S) (dt_est (quad_data st)) /\
     Jac0inv qd' = Jac0inv (quad_data st) /\
     rho0DetJ0 qd' = rho0DetJ0 (quad_data st) /\
     rhoDetJw qd' = rhoDetJw (quad_data st) /\
     rho0DetJ0w qd' = rho0DetJ0w (quad_data st) /\
     h0 qd' = h0 (quad_data st)).
Proof.
  split.
  - intros E. unfold UpdateQuadratureData. rewrite E. reflexivity.
  - intros E Hs Hgood. unfold UpdateQuadratureData. rewrite E.
    destruct (sweep_writes P S (quad_data st) Hs Hgood) as (qd' & Erun & Hf & _ & Hfresh).
    exists qd'. rewrite Erun. cbn. split; [reflexivity|].
    apply sweep_dt_est in Erun as (_ & Hdt).
    destruct Hf as (_ & _ & Hj & Hr & Hw & Hrw & Hh).
    split; [|auto 10].
    intros i q vd gd Hi Hq Hvd Hgd. apply Hfresh; assumption.
Qed.

(** C1: the stress of the claim is computed and is not stored.  An update that
    finds the flag down, on a store of the sizes of the constructor and a mesh
    whose determinants are all positive, runs to its end; at every point the
    local matrix [stress] of the loop is the matrix of the claim (the diagonal
    of [- MaterialPressure(rho, max(0,e))] with
    [rho = rho0DetJ0w / detJ / weight], plus, with artificial viscosity,
    [visc_coeff] times the symmetrized velocity gradient,
    [visc_coeff = 2 rho h^2 |mu|] plus [0.5 rho h sound_speed] only when
    [mu < 0]); the store receives that matrix times the transposed inverse
    Jacobian and [weight * detJ], in [stressJinvT]; and the members [stress]
    and [Jac] of the store are after the update what they were before it. *)
Theorem C1_stress_is_computed_and_not_stored {T : Type} `{Scalar T} `{Mfem T}
    (P : HydroParams T) (st : HydroState T) (S : Vector T) :
  quad_data_is_current st = false ->
  tensor_shape (stressJinvT (quad_data st)) (zones_cnt P * nqp) (dim P) ->
  (forall i q, i < zones_cnt P -> q < nqp -> ltb zero (Weight S i q) = true) ->
  (forall i q, i < zones_cnt P -> q < nqp ->
     mat_shape (Symmetrize (GetVectorGradient_v S i q)) (dim P)) ->
  exists qd',
    UpdateQuadratureData P st S = Done (mkHydroState qd' true) /\
    stress qd' = stress (quad_data st) /\
    Jac qd' = Jac (quad_data st) /\
    forall i q, i < zones_cnt P -> q < nqp ->
      let pv := point_values P (quad_data st) S i q in
      let sgrad_v := Symmetrize (GetVectorGradient_v S i q) in
      let mu := vget (fst (CalcEigenvalues sgrad_v)) 0 in
      let rho :=
        div (div (vget (rho0DetJ0w (quad_data st)) (i * nqp + q)) (Weight S i q))
            (ip_weight q) in
      let e := fmax zero (GetValues_e S i q) in
      let sound_speed := fsqrt (mul (mul (gamma P) (sub (gamma P) one)) e) in
      let h := pv_h pv in
      let visc_coeff :=
        if ltb mu zero
        then add (mul (mul (mul (mul two rho) h) h) (fabs mu))
                 (mul (mul (mul half rho) h) sound_speed)
        else mul (mul (mul (mul two rho) h) h) (fabs mu) in
      (forall r c, r < dim P -> c < dim P ->
         mat_get (pv_stress pv) r c =
           let minus_p := if r =? c then neg (MaterialPressure P rho e) else zero in
           if use_viscosity P then add minus_p (mul visc_coeff (mat_get sgrad_v r c))
           else minus_p) /\
      (forall vd gd, vd < dim P -> gd < dim P ->
         tensor_get (stressJinvT qd') vd (i * nqp + q) gd =
         mat_get (mat_scale (MultABt (pv_stress pv) (CalcInverse (Jacobian S i q)))
                            (mul (ip_weight q) (Weight S i q))) vd gd).
Proof.
  intros E Hs Hgood Hshape. unfold UpdateQuadratureData. rewrite E.
  destruct (sweep_writes P S (quad_data st) Hs Hgood) as (qd' & Erun & Hf & _ & Hfresh).
  exists qd'. rewrite Erun. cbn [bind]. split; [reflexivity|].
  destruct Hf as (Hstress & HJac & _).
  split; [exact Hstress|]. split; [exact HJac|].
  intros i q Hi Hq. cbv zeta.
  destruct (local_stress P (quad_data st) S i q (Hshape i q Hi Hq))
    as (_ & _ & Hlocal & HJiT).
  cbv zeta in Hlocal. split; [exact Hlocal|].
  intros vd gd Hvd Hgd. rewrite (Hfresh i q Hi Hq vd gd Hvd Hgd), HJiT. reflexivity.
Qed.


(** ** The force operator in exact arithmetic *)

Module ForcePAFacts.
Import ForcePA.
Section ForcePAFacts.
Context {T : Type} `{RingOps T} `{!RingLaws T}.

Lemma ring_laws_theory :
  ring_theory zero one add mul (fun a b => add a (neg b)) neg (@eq T).
Proof.
  constructor.
  - apply add_0_l.
  - apply add_comm.
  - apply add_assoc.
  - apply mul_1_l.
  - apply mul_comm.
  - apply mul_assoc.
  - intros a b c. rewrite (mul_comm (add a b) c), mul_add_distr_l.
    rewrite (mul_comm c a), (mul_comm c b). reflexivity.
  - reflexivity.
  - apply add_neg_r.
Qed.

Add Ring exact_ring : ring_laws_theory.

(** *** Finite sums *)

Lemma sum_list_ext (l : list nat) (f g : nat -> T) :
  (forall k, In k l -> f k = g k) -> sum_list l f = sum_list l g.
Proof.
  unfold sum_list. induction l as [|k l IH]; intros Hfg; cbn; [reflexivity|].
  rewrite Hfg by (left; reflexivity). rewrite IH; [reflexivity|].
  intros; apply Hfg; right; assumption.
Qed.

Lemma sum_list_add (l : list nat) (f g : nat -> T) :
  sum_list l (fun k => add (f k) (g k)) = add (sum_list l f) (sum_list l g).
Proof. unfold sum_list. induction l as [|k l IH]; cbn; [ring|]. rewrite IH. ring. Qed.

Lemma sum_list_scale (l : list nat) (c : T) (f : nat -> T) :
  sum_list l (fun k => mul c (f k)) = mul c (sum_list l f).
Proof. unfold sum_list. induction l as [|k l IH]; cbn; [ring|]. rewrite IH. ring. Qed.

Lemma sum_list_zero (l : list nat) : sum_list l (fun _ => zero) = zero.
Proof. unfold sum_list. induction l as [|k l IH]; cbn; [reflexivity|]. rewrite IH. ring. Qed.

Lemma sum_list_swap (l1 l2 : list nat) (f : nat -> nat -> T) :
  sum_list l1 (fun i => sum_list l2 (fun j => f i j)) =
  sum_list l2 (fun j => sum_list l1 (fun i => f i j)).
Proof.
  induction l1 as [|i l1 IH].
  - symmetry. apply sum_list_zero.
  - change (sum_list (i :: l1) (fun i => sum_list l2 (fun j => f i j)))
      with (add (sum_list l2 (fun j => f i j))
                (sum_list l1 (fun i => sum_list l2 (fun j => f i j)))).
    rewrite IH, <- sum_list_add. reflexivity.
Qed.

Lemma sum_list_snoc (l : list nat) (k : nat) (f : nat -> T) :
  sum_list (l ++ [k]) f = add (sum_list l f) (f k).
Proof. unfold sum_list. induction l as [|i l IH]; cbn; [ring|]. rewrite IH. ring. Qed.

Lemma sum_over_S (n : nat) (f : nat -> T) :
  sum_over (Datatypes.S n) f = add (sum_over n f) (f n).
Proof. unfold sum_over. rewrite seq_S. apply sum_list_snoc. Qed.

(** *** Dot products, scatter and gather *)

Lemma dot_comm (u w : Vector T) : dot u w = dot w u.
Proof.
  unfold dot. revert w. induction u as [|x u IH]; intros [|y w]; cbn; try reflexivity.
  rewrite IH. ring.
Qed.

Lemma dot_zeros (n : nat) (w : Vector T) : dot (replicate n zero) w = zero.
Proof.
  unfold dot. revert w. induction n as [|n IH]; intros [|y w]; cbn; try reflexivity.
  rewrite IH. ring.
Qed.

Lemma vget_cons_S (x : T) (v : Vector T) (k : nat) : vget (x :: v) (Datatypes.S k) = vget v k.
Proof. reflexivity. Qed.

Lemma dot_insert (o w : Vector T) (k : nat) (x : T) :
  k < length o -> length o = length w ->
  dot (<[k := add (vget o k) x]> o) w = add (dot o w) (mul x (vget w k)).
Proof.
  unfold dot, vget. revert w k. induction o as [|a o IH]; intros [|b w] k Hk Hl; cbn in *;
    try lia.
  destruct k as [|k]; cbn.
  - ring.
  - rewrite IH by lia. unfold lookup. ring.
Qed.

Lemma scatter_add_length (idx : list nat) (loc out : Vector T) :
  length (scatter_add idx loc out) = length out.
Proof.
  revert loc out.
  induction idx as [|k idx IH]; intros [|x loc] out; cbn [scatter_add]; try reflexivity.
  rewrite IH, length_insert. reflexivity.
Qed.

Lemma dot_scatter_add (idx : list nat) (loc out w : Vector T) :
  Forall (fun k => k < length out) idx -> length out = length w ->
  dot (scatter_add idx loc out) w = add (dot out w) (dot loc (gather idx w)).
Proof.
  revert loc out.
  induction idx as [|k idx IH]; intros [|x loc] out Hall Hl; cbn [scatter_add];
    try (unfold dot, gather; cbn; ring).
  inversion Hall as [|? ? Hk Hrest]; subst.
  rewrite IH.
  - rewrite dot_insert by assumption. unfold dot, gather. cbn. ring.
  - rewrite length_insert. assumption.
  - rewrite length_insert. assumption.
Qed.

Lemma gather_length (idx : list nat) (u : Vector T) : length (gather idx u) = length idx.
Proof. unfold gather. apply length_map. Qed.

Lemma assemble_length (nz n_out : nat) (out_dofs in_dofs : nat -> list nat)
    (loc : nat -> Vector T -> Vector T) (u : Vector T) :
  length (assemble nz n_out out_dofs in_dofs loc u) = n_out.
Proof.
  unfold assemble. induction nz as [|nz IH].
  - cbn. apply length_replicate.
  - rewrite for_loop_S, scatter_add_length. exact IH.
Qed.

(** The dot product with an assembled vector is the sum over the zones of the
    local dot products. *)
Lemma assemble_dot (nz n_out : nat) (out_dofs in_dofs : nat -> list nat)
    (loc : nat -> Vector T -> Vector T) (u w : Vector T) :
  (forall z, z < nz -> Forall (fun k => k < n_out) (out_dofs z)) ->
  length w = n_out ->
  dot (assemble nz n_out out_dofs in_dofs loc u) w =
  sum_over nz (fun z => dot (loc z (gather (in_dofs z) u)) (gather (out_dofs z) w)).
Proof.
  intros Hdofs Hw. induction nz as [|nz IH].
  - unfold assemble. cbn. apply dot_zeros.
  - rewrite sum_over_S, <- IH by (intros; apply Hdofs; lia).
    unfold assemble at 1. rewrite for_loop_S.
    fold (assemble nz n_out out_dofs in_dofs loc u).
    apply dot_scatter_add.
    + rewrite assemble_length. apply Hdofs. lia.
    + rewrite assemble_length. congruence.
Qed.

Lemma dot_map_seq (f : nat -> T) (v : Vector T) (s : nat) :
  dot (map f (seq s (length v))) v =
  sum_list (seq s (length v)) (fun r => mul (f r) (vget v (r - s))).
Proof.
  revert s. induction v as [|x v IH]; intros s; cbn [length seq map].
  - reflexivity.
  - unfold dot in *. cbn. rewrite IH. rewrite Nat.sub_diag. f_equal.
    apply sum_list_ext. intros r Hr. apply in_seq in Hr.
    replace (r - s) with (Datatypes.S (r - Datatypes.S s)) by lia. reflexivity.
Qed.

Lemma dot_map_seq0 (f : nat -> T) (v : Vector T) (n : nat) :
  length v = n ->
  dot (map f (seq 0 n)) v = sum_over n (fun r => mul (f r) (vget v r)).
Proof.
  intros <-. rewrite dot_map_seq. unfold sum_over. apply sum_list_ext.
  intros r _. rewrite Nat.sub_0_r. reflexivity.
Qed.

(** *** The local operators are adjoint *)

Lemma zone_adjoint (sp : Spaces T) (A : DenseTensor T) (z : nat) (e_z v_z : Vector T) :
  length e_z = l2dofs_cnt sp -> length v_z = sdim sp * h1dofs_cnt sp ->
  dot (apply_zone sp A z e_z) v_z = dot e_z (applyT_zone sp A z v_z).
Proof.
  intros He Hv. rewrite (dot_comm e_z). unfold apply_zone, applyT_zone.
  rewrite !dot_map_seq0 by assumption.
  transitivity (sum_over (npoints sp) (fun q =>
                  mul (velocity_at sp A z v_z q) (energy_at sp e_z q))).
  - unfold sum_over at 1.
    rewrite (sum_list_ext _ _ (fun r => sum_list (seq 0 (npoints sp)) (fun q =>
               mul (mul (coeff_grad sp A z r q) (vget v_z r)) (energy_at sp e_z q)))).
    + rewrite sum_list_swap. apply sum_list_ext. intros q _.
      unfold velocity_at, sum_over.
      rewrite (mul_comm _ (energy_at sp e_z q)), <- sum_list_scale.
      apply sum_list_ext. intros r _. ring.
    + intros r _. unfold sum_over.
      rewrite (mul_comm _ (vget v_z r)), <- sum_list_scale.
      apply sum_list_ext. intros q _. ring.
  - symmetry. unfold sum_over at 1.
    rewrite (sum_list_ext _ _ (fun j => sum_list (seq 0 (npoints sp)) (fun q =>
               mul (velocity_at sp A z v_z q) (mul (L2_shape sp j q) (vget e_z j))))).
    + rewrite sum_list_swap. apply sum_list_ext. intros q _.
      unfold energy_at, sum_over. rewrite <- sum_list_scale. reflexivity.
    + intros j _. unfold sum_over.
      rewrite (mul_comm _ (vget e_z j)), <- sum_list_scale.
      apply sum_list_ext. intros q _. ring.
Qed.

(** *** Linearity *)

Lemma vget_nil (k : nat) : vget ([] : list T) k = zero.
Proof. reflexivity. Qed.

Lemma vget_vaxpy (a : T) (u v : Vector T) (k : nat) :
  length u = length v ->
  vget (vaxpy a u v) k = add (mul a (vget u k)) (vget v k).
Proof.
  unfold vaxpy, vget. revert v k.
  induction u as [|x u IH]; intros [|y v] k Hl; cbn in Hl; try lia.
  - cbn. rewrite !lookup_nil. cbn. ring.
  - destruct k as [|k]; cbn; [reflexivity|]. apply IH. lia.
Qed.

Lemma vaxpy_map (a : T) (f g : nat -> T) (l : list nat) :
  vaxpy a (map f l) (map g l) = map (fun k => add (mul a (f k)) (g k)) l.
Proof. unfold vaxpy. induction l as [|k l IH]; cbn; [reflexivity|]. rewrite IH. reflexivity. Qed.

Lemma vaxpy_length (a : T) (u v : Vector T) :
  length u = length v -> length (vaxpy a u v) = length u.
Proof. intros Hl. unfold vaxpy. rewrite length_zip_with. lia. Qed.

Lemma vaxpy_zeros (a : T) (n : nat) :
  vaxpy a (replicate n zero) (replicate n zero) = replicate n zero.
Proof.
  unfold vaxpy. induction n as [|n IH]; cbn; [reflexivity|]. rewrite IH. f_equal. ring.
Qed.

Lemma gather_vaxpy (a : T) (idx : list nat) (u v : Vector T) :
  length u = length v ->
  gather idx (vaxpy a u v) = vaxpy a (gather idx u) (gather idx v).
Proof.
  intros Hl. unfold gather. rewrite vaxpy_map. apply map_ext. intros k.
  apply vget_vaxpy. assumption.
Qed.

Lemma energy_at_vaxpy (sp : Spaces T) (a : T) (e1 e2 : Vector T) (q : nat) :
  length e1 = length e2 ->
  energy_at sp (vaxpy a e1 e2) q = add (mul a (energy_at sp e1 q)) (energy_at sp e2 q).
Proof.
  intros Hl. unfold energy_at, sum_over.
  rewrite <- sum_list_scale, <- sum_list_add. apply sum_list_ext. intros j _.
  rewrite vget_vaxpy by assumption. ring.
Qed.

Lemma velocity_at_vaxpy (sp : Spaces T) (A : DenseTensor T) (z : nat) (a : T)
    (v1 v2 : Vector T) (q : nat) :
  length v1 = length v2 ->
  velocity_at sp A z (vaxpy a v1 v2) q =
  add (mul a (velocity_at sp A z v1 q)) (velocity_at sp A z v2 q).
Proof.
  intros Hl. unfold velocity_at, sum_over.
  rewrite <- sum_list_scale, <- sum_list_add. apply sum_list_ext. intros r _.
  rewrite vget_vaxpy by assumption. ring.
Qed.

Lemma apply_zone_vaxpy (sp : Spaces T) (A : DenseTensor T) (z : nat) (a : T)
    (e1 e2 : Vector T) :
  length e1 = length e2 ->
  apply_zone sp A z (vaxpy a e1 e2) = vaxpy a (apply_zone sp A z e1) (apply_zone sp A z e2).
Proof.
  intros Hl. unfold apply_zone. rewrite vaxpy_map. apply map_ext. intros r.
  unfold sum_over. rewrite <- sum_list_scale, <- sum_list_add.
  apply sum_list_ext. intros q _. rewrite energy_at_vaxpy by assumption. ring.
Qed.

Lemma applyT_zone_vaxpy (sp : Spaces T) (A : DenseTensor T) (z : nat) (a : T)
    (v1 v2 : Vector T) :
  length v1 = length v2 ->
  applyT_zone sp A z (vaxpy a v1 v2) =
  vaxpy a (applyT_zone sp A z v1) (applyT_zone sp A z v2).
Proof.
  intros Hl. unfold applyT_zone. rewrite vaxpy_map. apply map_ext. intros j.
  unfold sum_over. rewrite <- sum_list_scale, <- sum_list_add.
  apply sum_list_ext. intros q _. rewrite velocity_at_vaxpy by assumption. ring.
Qed.

Lemma scatter_add_vaxpy (a : T) (idx : list nat) (l1 l2 o1 o2 : Vector T) :
  length l1 = length l2 -> length o1 = length o2 ->
  scatter_add idx (vaxpy a l1 l2) (vaxpy a o1 o2) =
  vaxpy a (scatter_add idx l1 o1) (scatter_add idx l2 o2).
Proof.
  revert l1 l2 o1 o2.
  induction idx as [|k idx IH]; intros [|x1 l1] [|x2 l2] o1 o2 Hl Ho; cbn in Hl; try lia;
    try reflexivity.
  change (vaxpy a (x1 :: l1) (x2 :: l2)) with (add (mul a x1) x2 :: vaxpy a l1 l2).
  cbn [scatter_add].
  rewrite <- IH by (rewrite ?length_insert; lia). f_equal.
  rewrite vget_vaxpy by assumption. unfold vaxpy.
  rewrite <- insert_zip_with. f_equal. ring.
Qed.

(** An assembled operator is linear when its local operators are. *)
Lemma assemble_vaxpy (nz n_out : nat) (out_dofs in_dofs : nat -> list nat)
    (loc : nat -> Vector T -> Vector T) (m : nat) (a : T) (u v : Vector T) :
  (forall z e1 e2, length e1 = length e2 ->
     loc z (vaxpy a e1 e2) = vaxpy a (loc z e1) (loc z e2)) ->
  (forall z e, length (loc z e) = m) ->
  length u = length v ->
  assemble nz n_out out_dofs in_dofs loc (vaxpy a u v) =
  vaxpy a (assemble nz n_out out_dofs in_dofs loc u)
          (assemble nz n_out out_dofs in_dofs loc v).
Proof.
  intros Hlin Hlen Hl. induction nz as [|nz IH].
  - unfold assemble. cbn. symmetry. apply vaxpy_zeros.
  - unfold assemble in *. rewrite !for_loop_S. rewrite IH.
    rewrite gather_vaxpy by assumption.
    rewrite Hlin by (rewrite !gather_length; reflexivity).
    apply scatter_add_vaxpy.
    + rewrite !Hlen. reflexivity.
    + fold (assemble nz n_out out_dofs in_dofs loc u).
      fold (assemble nz n_out out_dofs in_dofs loc v).
      rewrite !assemble_length. reflexivity.
Qed.

End ForcePAFacts.
End ForcePAFacts.

(** C3 (on the force operator modelled from the specification): in exact
    arithmetic, on well-formed spaces and for every store,
    [dot(apply(u), w) = dot(u, applyTranspose(w))] for all vectors [u] of the
    energy space and [w] of the velocity space, and both [apply] and
    [applyTranspose] are linear: they map [a u + v] to the same combination of
    the images. *)
Theorem C3_force_operator_adjoint {T : Type} `{RingOps T} `{!RingLaws T}
    (sp : ForcePA.Spaces T) (qd : QuadratureData T) :
  ForcePA.wf sp ->
  (forall u w,
     length u = ForcePA.L2_VSize sp -> length w = ForcePA.H1_VSize sp ->
     ForcePA.dot (ForcePA.Mult sp qd u) w = ForcePA.dot u (ForcePA.MultTranspose sp qd w)) /\
  (forall a u v,
     length u = length v ->
     ForcePA.Mult sp qd (ForcePA.vaxpy a u v) =
     ForcePA.vaxpy a (ForcePA.Mult sp qd u) (ForcePA.Mult sp qd v)) /\
  (forall a u v,
     length u = length v ->
     ForcePA.MultTranspose sp qd (ForcePA.vaxpy a u v) =
     ForcePA.vaxpy a (ForcePA.MultTranspose sp qd u) (ForcePA.MultTranspose sp qd v)).
Proof.
  intros Hwf. split; [|split].
  - intros u w Hu Hw. unfold ForcePA.Mult, ForcePA.MultTranspose.
    rewrite (ForcePAFacts.dot_comm u).
    rewrite !ForcePAFacts.assemble_dot;
      try assumption; try (intros z Hz; apply (Hwf z Hz)).
    apply ForcePAFacts.sum_list_ext. intros z Hz. apply in_seq in Hz.
    destruct (Hwf z) as (Hh & _ & Hl & _); [lia|].
    rewrite ForcePAFacts.zone_adjoint
      by (rewrite ForcePAFacts.gather_length; assumption).
    apply ForcePAFacts.dot_comm.
  - intros a u v Hl. unfold ForcePA.Mult.
    apply (ForcePAFacts.assemble_vaxpy _ _ _ _ _ (ForcePA.sdim sp * ForcePA.h1dofs_cnt sp));
      [| |assumption].
    + intros z e1 e2. apply ForcePAFacts.apply_zone_vaxpy.
    + intros z e. unfold ForcePA.apply_zone. rewrite length_map, length_seq. reflexivity.
  - intros a u v Hl. unfold ForcePA.MultTranspose.
    apply (ForcePAFacts.assemble_vaxpy _ _ _ _ _ (ForcePA.l2dofs_cnt sp)); [| |assumption].
    + intros z e1 e2. apply ForcePAFacts.applyT_zone_vaxpy.
    + intros z e. unfold ForcePA.applyT_zone. rewrite length_map, length_seq. reflexivity.
Qed.

(** * Further properties of the operator *)

(** ** [EliminateRHS]: bounds, repeated and reordered indices *)

Section EliminateMore.
Context {T : Type} `{Scalar T}.

Lemma zero_entries_length (dofs : list Z) (b b' : list T) :
  zero_entries dofs b = Some b' -> length b' = length b.
Proof. intros E. apply zero_entries_spec in E as (L & _). exact L. Qed.

Lemma zero_entries_in_range (dofs : list Z) (b b' : list T) :
  zero_entries dofs b = Some b' ->
  Forall (fun d => (0 <= d < Z.of_nat (length b))%Z) dofs.
Proof.
  revert b. induction dofs as [|d dofs IH]; intros b; cbn; [constructor|].
  destruct (Z.leb_spec 0 d); [|discriminate].
  destruct (Z.ltb_spec d (Z.of_nat (length b))); [|discriminate].
  cbn. intros E. constructor; [lia|].
  apply IH in E. rewrite length_insert in E. exact E.
Qed.

(** Two vectors of one length with the same entries are equal. *)
Lemma lookup_ext (l1 l2 : list T) :
  length l1 = length l2 ->
  (forall k, k < length l1 -> l1 !! k = l2 !! k) ->
  l1 = l2.
Proof.
  intros Hl Hget. apply list_eq. intros k.
  destruct (Nat.lt_ge_cases k (length l1)) as [Hk|Hk]; [apply Hget, Hk|].
  rewrite !lookup_ge_None_2 by lia. reflexivity.
Qed.

End EliminateMore.

(** [EliminateRHS] is defined exactly when every listed index lies in the
    vector: one index below 0 or past the end, wherever in the array, and the
    call has no defined result. *)
Theorem EliminateRHS_defined_iff {T : Type} `{Scalar T}
    (M : MassPAOperator T) (dofs : list Z) (b : list T) :
  (exists r, EliminateRHS M dofs b = Some r) <->
  Forall (fun d => (0 <= d < Z.of_nat (length b))%Z) dofs.
Proof.
  unfold EliminateRHS. split.
  - intros (r & E). destruct (zero_entries dofs b) as [b'|] eqn:Ez; [|discriminate].
    eapply zero_entries_in_range. exact Ez.
  - intros Hall. destruct (zero_entries_Some dofs b Hall) as (b' & -> & _). eauto.
Qed.

(** The vector that [EliminateRHS] leaves depends on the set of the listed
    indices only: their order and their repetitions do not matter. *)
Theorem EliminateRHS_order_irrelevant {T : Type} `{Scalar T}
    (M1 M2 M1' M2' : MassPAOperator T) (dofs1 dofs2 dofs1' dofs2' : list Z)
    (b b1 b2 : list T) :
  (forall d, d ∈ dofs1 <-> d ∈ dofs2) ->
  EliminateRHS M1 dofs1 b = Some (M1', dofs1', b1) ->
  EliminateRHS M2 dofs2 b = Some (M2', dofs2', b2) ->
  b1 = b2.
Proof.
  unfold EliminateRHS. intros Hset E1 E2.
  destruct (zero_entries dofs1 b) as [c1|] eqn:Ez1; [|discriminate].
  destruct (zero_entries dofs2 b) as [c2|] eqn:Ez2; [|discriminate].
  injection E1 as _ _ <-. injection E2 as _ _ <-.
  apply zero_entries_spec in Ez1 as (L1 & G1). apply zero_entries_spec in Ez2 as (L2 & G2).
  apply lookup_ext; [congruence|]. intros k Hk. rewrite L1 in Hk.
  rewrite (G1 k Hk), (G2 k Hk).
  destruct (decide (Z.of_nat k ∈ dofs1)) as [Hin|Hnin].
  - rewrite decide_True by (apply Hset; assumption). reflexivity.
  - rewrite decide_False by (rewrite <- Hset; assumption). reflexivity.
Qed.

(** [EliminateRHS] is idempotent: a second call with the same indices on the
    vector and the operator that the first call left changes nothing. *)
Theorem EliminateRHS_idempotent {T : Type} `{Scalar T}
    (M M' : MassPAOperator T) (dofs dofs' : list Z) (b b' : list T) :
  EliminateRHS M dofs b = Some (M', dofs', b') ->
  EliminateRHS M' dofs' b' = Some (M', dofs', b').
Proof.
  unfold EliminateRHS. intros E.
  destruct (zero_entries dofs b) as [c|] eqn:Ez; [|discriminate].
  injection E as <- <- <-. cbn [mpa_quad_data mpa_FESpace].
  pose proof (zero_entries_in_range _ _ _ Ez) as Hr.
  pose proof (zero_entries_spec _ _ _ Ez) as (L & G).
  destruct (zero_entries_Some dofs c) as (c' & Ez' & L'); [rewrite L; exact Hr|].
  rewrite Ez'. do 2 f_equal.
  pose proof (zero_entries_spec _ _ _ Ez') as (_ & G').
  apply lookup_ext; [assumption|]. intros k Hk. rewrite L' in Hk.
  rewrite (G' k Hk). rewrite L in Hk. rewrite (G k Hk).
  destruct (decide (Z.of_nat k ∈ dofs)); reflexivity.
Qed.

(** ** The quadrature update: which fault, and what the estimate is *)

Section UpdateMore.
Context {T : Type} `{Scalar T} `{Mfem T}.

Lemma for_each_split {S : Type} (n k : nat) (body : nat -> S -> outcome T S) (s : S) :
  k < n ->
  for_each (seq 0 n) body s =
  bind (for_each (seq 0 k) body s)
       (fun s1 => bind (body k s1) (for_each (seq (Datatypes.S k) (n - Datatypes.S k)) body)).
Proof.
  intros Hk. replace n with (k + Datatypes.S (n - Datatypes.S k)) at 1 by lia.
  rewrite seq_app, for_each_app. reflexivity.
Qed.

Lemma update_zone_done (P : HydroParams T) (S : Vector T) (i k : nat) (qd : QuadratureData T) :
  (forall q, q < k -> ltb zero (Weight S i q) = true) ->
  exists qd', for_each (seq 0 k) (update_point P S i) qd = Done qd'.
Proof.
  intros Hgood.
  destruct (for_each_done (fun _ _ => True) k (update_point P S i) qd) as (qd' & E & _);
    [exact I| |eauto].
  intros q qd1 Hq _. rewrite update_point_good by auto. eauto.
Qed.

Lemma sweep_prefix_done (P : HydroParams T) (S : Vector T) (k : nat) (qd : QuadratureData T) :
  (forall i q, i < k -> q < nqp -> ltb zero (Weight S i q) = true) ->
  exists qd', for_each (seq 0 k) (update_zone P S) qd = Done qd'.
Proof.
  intros Hgood.
  destruct (for_each_done (fun _ _ => True) k (update_zone P S) qd) as (qd' & E & _);
    [exact I| |eauto].
  intros i qd1 Hi _. unfold update_zone.
  destruct (update_zone_done P S i nqp qd1) as (qd' & ->); [auto|eauto].
Qed.

Section Order.
Context `{!OrderLaws T}.

Lemma ltb_false_not_above (c x y : T) :
  ltb c x = false -> not_above x y -> ltb c y = false.
Proof.
  intros Hc [->|Hyx]; [assumption|].
  destruct (ltb c y) eqn:E; [|reflexivity].
  rewrite (ltb_trans _ _ _ E Hyx) in Hc. discriminate.
Qed.

Lemma ltb_fmin_r (a b : T) : ltb b (fmin a b) = false.
Proof.
  unfold fmin. destruct (ltb b a) eqn:E; [apply ltb_irrefl|assumption].
Qed.

(** No element of the list lies below the fold of [std::min]. *)
Lemma fold_fmin_lower (l : list T) (a c : T) :
  In c l -> ltb c (fold_left fmin l a) = false.
Proof.
  revert a. induction l as [|b l IH]; intros a Hin; [destruct Hin|].
  cbn. destruct Hin as [->|Hin]; [|apply IH, Hin].
  eapply ltb_false_not_above; [apply ltb_fmin_r|apply fold_fmin_not_above].
Qed.

End Order.

(** The fold of [std::min] is its start or an element of the list. *)
Lemma fold_fmin_mem (l : list T) (a : T) :
  fold_left fmin l a = a \/ In (fold_left fmin l a) l.
Proof.
  revert a. induction l as [|b l IH]; intros a; cbn; [auto|].
  destruct (IH (fmin a b)) as [E|Hin]; [|auto].
  rewrite E. unfold fmin. destruct (ltb b a); auto.
Qed.

(** A start that no element is below is kept. *)
Lemma fold_fmin_fixed (l : list T) (a : T) :
  (forall c, In c l -> ltb c a = false) -> fold_left fmin l a = a.
Proof.
  induction l as [|b l IH]; intros Hlow; cbn; [reflexivity|].
  unfold fmin at 2. rewrite (Hlow b) by (left; reflexivity).
  apply IH. intros c Hc. apply Hlow. right. exact Hc.
Qed.

End UpdateMore.

(** The fault that the update reports is the determinant of the first point,
    in the order of the sweep (zone by zone, point by point), whose
    determinant is not positive. *)
Theorem first_bad_point_is_reported {T : Type} `{Scalar T} `{Mfem T}
    (P : HydroParams T) (st : HydroState T) (S : Vector T) (i q : nat) :
  quad_data_is_current st = false ->
  i < zones_cnt P -> q < nqp ->
  (forall i' q', i' < zones_cnt P -> q' < nqp -> i' < i \/ (i' = i /\ q' < q) ->
     ltb zero (Weight S i' q') = true) ->
  ltb zero (Weight S i q) = false ->
  UpdateQuadratureData P st S = BadJacobianDeterminant (Weight S i q).
Proof.
  intros Hflag Hi Hq Hbefore Hbad. unfold UpdateQuadratureData. rewrite Hflag.
  unfold sweep. rewrite (for_each_split _ i) by assumption.
  destruct (sweep_prefix_done P S i (quad_data st)) as (qd1 & ->).
  { intros i' q' Hi' Hq'. apply Hbefore; [lia|assumption|left; assumption]. }
  cbn [bind]. unfold update_zone at 1. rewrite (for_each_split _ q) by assumption.
  destruct (update_zone_done P S i q qd1) as (qd2 & ->).
  { intros q' Hq'. apply Hbefore; [assumption|lia|right; split; [reflexivity|assumption]]. }
  cbn [bind]. rewrite update_point_bad by assumption. reflexivity.
Qed.

(** After a sweep the estimate is a minimum in the sense of the comparison of
    the code: no candidate of the sweep lies below it, and it is the estimate
    held before or one of the candidates. *)
Theorem estimate_is_minimum {T : Type} `{Scalar T} `{!OrderLaws T} `{Mfem T}
    (P : HydroParams T) (st st' : HydroState T) (S : Vector T) :
  quad_data_is_current st = false ->
  UpdateQuadratureData P st S = Done st' ->
  (forall c, In c (candidates P (quad_data st) S) ->
     ltb c (dt_est (quad_data st')) = false) /\
  (dt_est (quad_data st') = dt_est (quad_data st) \/
   In (dt_est (quad_data st')) (candidates P (quad_data st) S)).
Proof.
  intros Hflag. unfold UpdateQuadratureData. rewrite Hflag.
  destruct (sweep P S (quad_data st)) as [qd'| |] eqn:E; cbn; try discriminate.
  intros [= <-]. cbn. apply sweep_dt_est in E as (_ & ->). split.
  - intros c Hc. apply fold_fmin_lower. exact Hc.
  - apply fold_fmin_mem.
Qed.

(** Until [Mult] lowers the flag, the operator answers from the quadrature
    data it has: after one [GetTimeStepEstimate], a further one returns the
    same estimate and a [Mult] keeps the same store, whatever state they are
    given. *)
Theorem memo_is_not_keyed_on_the_state {T : Type} `{Scalar T} `{Mfem T} `{Collaborators T}
    (P : HydroParams T) (st st1 : HydroState T) (S : Vector T) (dt : T) :
  GetTimeStepEstimate P st S = Done (st1, dt) ->
  (forall S', GetTimeStepEstimate P st1 S' = Done (st1, dt)) /\
  (forall S' dS_dt st2 d log,
     Mult P st1 S' dS_dt = Done (st2, d, log) ->
     quad_data st2 = quad_data st1 /\ quad_data_is_current st2 = false).
Proof.
  unfold GetTimeStepEstimate. intros E.
  destruct (UpdateQuadratureData P st S) as [st0| |] eqn:Eu; cbn in E; try discriminate.
  injection E as <- <-.
  assert (Hup : quad_data_is_current st0 = true).
  { unfold UpdateQuadratureData in Eu. destruct (quad_data_is_current st) eqn:Ef.
    - injection Eu as <-. exact Ef.
    - destruct (sweep P S (quad_data st)); cbn in Eu; try discriminate.
      injection Eu as <-. reflexivity. }
  assert (Hno : forall S', UpdateQuadratureData P st0 S' = Done st0).
  { intros S'. unfold UpdateQuadratureData. rewrite Hup. reflexivity. }
  split.
  - intros S'. rewrite Hno. reflexivity.
  - intros S' dS_dt st2 d log Em. apply Mult_store in Em as (st3 & E3 & ->).
    rewrite Hno in E3. injection E3 as <-. split; reflexivity.
Qed.

(** ** Evaluating the same state again *)

Section Reevaluation.
Context {T : Type} `{Scalar T} `{Mfem T}.

(** Every offset of a tensor of [n] x [d] x [d] entries is the offset of one
    entry (i, j, k). *)
Lemma tensor_offset_decompose (n d o : nat) :
  o < n * d * d ->
  exists i j k, i < n /\ j < d /\ k < d /\ o = i + n * (j + d * k).
Proof.
  intros Ho.
  assert (Hn : n <> 0) by (intros ->; cbn in Ho; lia).
  assert (Hd : d <> 0) by (intros ->; rewrite Nat.mul_0_r in Ho; lia).
  exists (o mod n), ((o / n) mod d), ((o / n) / d).
  assert (Hq : o / n < d * d).
  { apply Nat.Div0.div_lt_upper_bound. rewrite Nat.mul_assoc. exact Ho. }
  split; [apply Nat.mod_upper_bound, Hn|].
  split; [apply Nat.mod_upper_bound, Hd|].
  split; [apply Nat.Div0.div_lt_upper_bound; exact Hq|].
  rewrite (Nat.add_comm (o / n mod d)), <- (Nat.div_mod_eq (o / n) d).
  rewrite (Nat.add_comm (o mod n)). apply Nat.div_mod_eq.
Qed.

(** Two tensors of the same sizes with the same entries are equal. *)
Lemma tensor_ext (A B : DenseTensor T) (n d : nat) :
  tensor_shape A n d -> tensor_shape B n d ->
  (forall vd zq gd, vd < d -> zq < n -> gd < d ->
     tensor_get A vd zq gd = tensor_get B vd zq gd) ->
  A = B.
Proof.
  intros (AI & AJ & AK & AL) (BI & BJ & BK & BL) Hget.
  destruct A as [ai aj ak al], B as [bi bj bk bl]. cbn in *. subst.
  f_equal. apply lookup_ext; [congruence|]. intros o Ho. rewrite AL in Ho.
  destruct (tensor_offset_decompose _ _ _ Ho) as (i & j & k & Hi & Hj & Hk & ->).
  specialize (Hget k i j Hk Hi Hj). unfold tensor_get, tensor_index, vget in Hget.
  cbn in Hget.
  pose proof (tensor_index_lt n d i j k Hi Hj Hk) as Hlt.
  destruct (lookup_lt_is_Some_2 al (i + n * (j + d * k))) as (x & Hx); [lia|].
  destruct (lookup_lt_is_Some_2 bl (i + n * (j + d * k))) as (y & Hy); [lia|].
  rewrite Hx, Hy in *. cbn in Hget. congruence.
Qed.

Lemma QuadratureData_ext (qd1 qd2 : QuadratureData T) :
  frame qd1 qd2 -> stressJinvT qd2 = stressJinvT qd1 -> dt_est qd2 = dt_est qd1 ->
  qd2 = qd1.
Proof.
  intros (E1 & E2 & E3 & E4 & E5 & E6 & E7) E8 E9.
  destruct qd1, qd2. cbn in *. subst. reflexivity.
Qed.

End Reevaluation.

(** Evaluating the same state again reproduces the store: when an update has
    run on a state (every determinant positive) and the flag is lowered, as
    [Mult] does, the update of the same state runs to its end and leaves the
    whole store, the estimate included, exactly as the first one left it. *)
Theorem reevaluation_reproduces_the_store {T : Type} `{Scalar T} `{!OrderLaws T} `{Mfem T}
    (P : HydroParams T) (st st1 : HydroState T) (S : Vector T) :
  quad_data_is_current st = false ->
  tensor_shape (stressJinvT (quad_data st)) (zones_cnt P * nqp) (dim P) ->
  (forall i q, i < zones_cnt P -> q < nqp -> ltb zero (Weight S i q) = true) ->
  UpdateQuadratureData P st S = Done st1 ->
  UpdateQuadratureData P (mkHydroState (quad_data st1) false) S = Done st1.
Proof.
  intros Hflag Hshape Hgood. unfold UpdateQuadratureData. rewrite Hflag. cbn [quad_data_is_current quad_data].
  destruct (sweep_writes P S (quad_data st) Hshape Hgood) as (qd1 & E1 & Hf1 & Hs1 & Hfresh1).
  rewrite E1. cbn [bind]. intros [= <-]. cbn [quad_data].
  destruct (sweep_writes P S qd1 Hs1 Hgood) as (qd2 & E2 & Hf2 & Hs2 & Hfresh2).
  rewrite E2. cbn [bind]. f_equal.
  apply sweep_dt_est in E1 as (_ & Hdt1). apply sweep_dt_est in E2 as (_ & Hdt2).
  assert (Eq : qd2 = qd1).
  { apply QuadratureData_ext; [assumption| |].
    - apply (tensor_ext _ _ (zones_cnt P * nqp) (dim P)); [assumption..|].
      intros vd zq gd Hvd Hzq Hgd.
      assert (Hn : nqp <> 0) by (intros E0; rewrite E0, Nat.mul_0_r in Hzq; lia).
      assert (Ez : zq = (zq / nqp) * nqp + zq mod nqp).
      { rewrite (Nat.mul_comm (zq / nqp)). apply Nat.div_mod_eq. }
      assert (Hi : zq / nqp < zones_cnt P).
      { apply Nat.Div0.div_lt_upper_bound. rewrite Nat.mul_comm. exact Hzq. }
      assert (Hq : zq mod nqp < nqp) by (apply Nat.mod_upper_bound, Hn).
      rewrite Ez.
      rewrite (Hfresh2 _ _ Hi Hq vd gd Hvd Hgd), (Hfresh1 _ _ Hi Hq vd gd Hvd Hgd).
      rewrite (point_values_frame P (quad_data st) qd1) by assumption. reflexivity.
    - rewrite Hdt2, (candidates_frame P (quad_data st) qd1) by assumption.
      apply fold_fmin_fixed. intros c Hc. rewrite Hdt1. apply fold_fmin_lower. exact Hc. }
  rewrite Eq. reflexivity.
Qed.

(** ** [Mult]: the derivative of the position, and the solves *)

Section MultMore.
Context {T : Type} `{Scalar T} `{Mfem T} `{Collaborators T}.

Lemma set_subvec_length (off : nat) (blk v : Vector T) :
  length (set_subvec off blk v) = length v.
Proof.
  unfold set_subvec. rewrite !length_app, !length_take, length_drop. lia.
Qed.

(** A write at the offset [off] leaves the entries before it. *)
Lemma take_set_subvec (n off : nat) (blk v : Vector T) :
  n <= off -> take n (set_subvec off blk v) = take n v.
Proof.
  intros Hn. unfold set_subvec.
  destruct (Nat.le_gt_cases off (length v)) as [Hoff|Hoff].
  - rewrite take_app_le by (rewrite length_take; lia).
    rewrite take_take. f_equal. lia.
  - rewrite (take_ge v off) by lia.
    replace (length v - off) with 0 by lia. rewrite take_0.
    rewrite (drop_ge v) by lia. rewrite !app_nil_r. reflexivity.
Qed.

Lemma subvec_length (off n : nat) (v : Vector T) :
  off + n <= length v -> length (subvec off n v) = n.
Proof. intros Hl. unfold subvec. rewrite length_take, length_drop. lia. Qed.

(** What every step of [Mult] keeps: the length of [dS_dt] and its first
    block. *)
Definition keeps_position (L : nat) (v : Vector T) (acc : MultAcc T) : Prop :=
  length (acc_dS_dt acc) = L /\ take H1_GetVSize (acc_dS_dt acc) = v.

Lemma keeps_position_write (L : nat) (v blk : Vector T) (off : nat) (acc : MultAcc T)
    (log : list (SolveEvent T)) :
  H1_GetVSize <= off -> keeps_position L v acc ->
  keeps_position L v (mkMultAcc (set_subvec off blk (acc_dS_dt acc)) log).
Proof.
  intros Hoff (HL & Hv). unfold keeps_position. cbn [acc_dS_dt].
  rewrite set_subvec_length, take_set_subvec by assumption. auto.
Qed.

Lemma velocity_pa_keeps_position (L : nat) (v rhs : Vector T) (n : nat)
    (s s' : MassPAOperator T * MultAcc T) :
  keeps_position L v (snd s) ->
  for_each (seq 0 n) (velocity_pa_component rhs) s = Done s' ->
  keeps_position L v (snd s').
Proof.
  intros Hstart Hrun.
  apply (for_each_invariant (fun _ s1 => keeps_position L v (snd s1))
           n (velocity_pa_component rhs) s s'); [assumption| |assumption].
  intros c [M a] s1 _ Hk. unfold velocity_pa_component.
  destruct (EliminateRHS _ _ _) as [[[M' dofs'] B']|]; [|discriminate].
  intros [= <-]. cbn [snd] in *. apply keeps_position_write; [lia|assumption].
Qed.

Lemma energy_full_keeps_position (L : nat) (v : Vector T) (Force : DenseMatrix T)
    (w : Vector T) (e_source : option (Vector T)) (n : nat) (acc : MultAcc T) :
  keeps_position L v acc ->
  keeps_position L v (for_loop n (energy_full_zone Force w e_source) acc).
Proof.
  intros Hstart. apply (for_loop_invariant (fun _ a => keeps_position L v a)); [assumption|].
  intros k a _ Hk. unfold energy_full_zone. apply keeps_position_write; [lia|assumption].
Qed.

End MultMore.

(** The derivative of the position is the velocity: in the vector that [Mult]
    returns, which has the length of the vector it was given, the first block
    is the velocity block of the state, whichever branch solved for the
    velocity and the energy. *)
Theorem Mult_position_derivative {T : Type} `{Scalar T} `{Mfem T} `{Collaborators T}
    (P : HydroParams T) (st st' : HydroState T) (S dS_dt d : Vector T)
    (log : list (SolveEvent T)) :
  H1_GetVSize + H1_GetVSize <= length S ->
  H1_GetVSize <= length dS_dt ->
  Mult P st S dS_dt = Done (st', d, log) ->
  length d = length dS_dt /\
  take H1_GetVSize d = subvec H1_GetVSize H1_GetVSize S.
Proof.
  intros HS HL. unfold Mult.
  destruct (UpdateQuadratureData P st S) as [st1| |]; cbn -[for_each for_loop];
    try discriminate.
  set (v := subvec H1_GetVSize H1_GetVSize S).
  set (acc0 := mkMultAcc (set_subvec 0 v (vec_const (length dS_dt) zero)) []).
  assert (Hv : length v = H1_GetVSize) by (apply subvec_length; assumption).
  assert (Hstart : keeps_position (length dS_dt) v acc0).
  { unfold keeps_position, acc0. cbn [acc_dS_dt]. rewrite set_subvec_length.
    unfold vec_const. rewrite length_replicate. split; [reflexivity|].
    unfold set_subvec. rewrite take_0, length_replicate, Nat.sub_0_r. cbn [app].
    rewrite (take_ge v) by lia. rewrite take_app_length' by congruence. reflexivity. }
  destruct (p_assembly P).
  - destruct (for_each (seq 0 (dim P)) _ _) as [[M acc]| |] eqn:Evel;
      cbn -[for_each for_loop]; try discriminate.
    apply (velocity_pa_keeps_position (length dS_dt) v) in Evel; [|exact Hstart].
    cbn [snd] in Evel. intros [= _ <- _]. unfold energy_pa. cbn [acc_dS_dt].
    destruct Evel as (E1 & E2).
    rewrite set_subvec_length, take_set_subvec by lia. auto.
  - cbn -[for_each for_loop]. intros [= _ <- _].
    apply energy_full_keeps_position. unfold velocity_full.
    destruct (Mv_FormLinearSystem _ _ _) as [[A X] B].
    apply keeps_position_write; [lia|exact Hstart].
Qed.

Section SolveSequence.
Context {T : Type} `{Scalar T} `{Mfem T} `{Collaborators T}.

Lemma velocity_pa_kinds (rhs : Vector T) (n : nat) (s s' : MassPAOperator T * MultAcc T) :
  mpa_FESpace (fst s) = H1compFESpace ->
  for_each (seq 0 n) (velocity_pa_component rhs) s = Done s' ->
  map solve_kind (acc_log (snd s')) =
  map solve_kind (acc_log (snd s)) ++ replicate n VelocityPA.
Proof.
  intros Hfes Hrun.
  apply (for_each_invariant
           (fun k s1 => mpa_FESpace (fst s1) = H1compFESpace /\
              map solve_kind (acc_log (snd s1)) =
              map solve_kind (acc_log (snd s)) ++ replicate k VelocityPA)
           n (velocity_pa_component rhs) s s'); [| |assumption].
  - split; [assumption|]. cbn. rewrite app_nil_r. reflexivity.
  - intros c [M a] s1 _ (HM & Hk). unfold velocity_pa_component.
    destruct (EliminateRHS _ _ _) as [[[M' dofs'] B']|] eqn:E; [|discriminate].
    intros [= <-]. cbn [acc_log fst snd] in *.
    unfold EliminateRHS in E. destruct (zero_entries _ _); [|discriminate].
    injection E as <- _ _. split; [assumption|].
    rewrite map_app, Hk, replicate_S_end, <- app_assoc. cbn. rewrite HM. reflexivity.
Qed.

Lemma energy_full_kinds (Force : DenseMatrix T) (v : Vector T) (e_source : option (Vector T))
    (n : nat) (acc : MultAcc T) :
  map solve_kind (acc_log (for_loop n (energy_full_zone Force v e_source) acc)) =
  map solve_kind (acc_log acc) ++ map LocalInverse (seq 0 n).
Proof.
  apply (for_loop_invariant
           (fun k a => map solve_kind (acc_log a) =
                       map solve_kind (acc_log acc) ++ map LocalInverse (seq 0 k))).
  - cbn. rewrite app_nil_r. reflexivity.
  - intros k a _ Hk. unfold energy_full_zone. cbn [acc_log].
    rewrite map_app, Hk, seq_S, map_app, <- app_assoc. reflexivity.
Qed.

(** The velocity solves with partial assembly, one by one. *)
Lemma velocity_pa_solves (qd : QuadratureData T) (n : nat) (acc : MultAcc T)
    (s' : MassPAOperator T * MultAcc T) :
  acc_log acc = [] ->
  for_each (seq 0 n)
    (velocity_pa_component (vec_Neg (ForcePA_Mult qd (vec_const L2_GetVSize one))))
    (MassPAOperator_new qd H1compFESpace, acc) = Done s' ->
  length (acc_log (snd s')) = n /\
  forall c, c < n -> exists ev, acc_log (snd s') !! c = Some ev /\ velocity_solve_of qd c ev.
Proof.
  intros Hlog Hrun.
  apply (for_each_invariant
           (fun k s1 =>
              (mpa_quad_data (fst s1) = qd /\ mpa_FESpace (fst s1) = H1compFESpace) /\
              length (acc_log (snd s1)) = k /\
              forall c, c < k ->
                exists ev, acc_log (snd s1) !! c = Some ev /\ velocity_solve_of qd c ev)
           n _ _ s') in Hrun as (_ & Hl & Hev); [auto| |].
  - cbn. rewrite Hlog. split; [auto|]. split; [reflexivity|]. lia.
  - intros c [M a] s1 _ ((Hq & Hf) & Hl & Hev). unfold velocity_pa_component.
    destruct (EliminateRHS _ _ _) as [[[M' dofs'] B']|] eqn:E; [|discriminate].
    intros [= <-]. cbn [acc_log fst snd] in *.
    unfold EliminateRHS in E.
    destruct (zero_entries _ _) as [B1|] eqn:Ez; [|discriminate].
    injection E as <- _ <-. cbn [mpa_quad_data mpa_FESpace].
    split; [auto|]. split; [rewrite length_app; cbn; lia|].
    intros c' Hc'. destruct (decide (c' = c)) as [->|Hne].
    + eexists. split.
      * rewrite lookup_app_r by lia. rewrite Hl, Nat.sub_diag. reflexivity.
      * apply zero_entries_spec in Ez as (HL & Hget).
        do 3 eexists. split; [reflexivity|]. split; [rewrite Hq, Hf; reflexivity|].
        split; [exact HL|]. intros k Hk. rewrite HL in Hk. apply Hget. exact Hk.
    + destruct (Hev c') as (ev & Hev1 & Hev2); [lia|].
      exists ev. split; [|assumption]. rewrite lookup_app_l by lia. assumption.
Qed.

End SolveSequence.

(** The solves of one evaluation, in order: with partial assembly, one
    conjugate gradient solve per velocity component and then one for the
    energy ([dim] + 1 solves); without it, one conjugate gradient solve on the
    assembled velocity system and then the local inverse of every zone, from
    zone 0 on. *)
Theorem Mult_solve_sequence {T : Type} `{Scalar T} `{Mfem T} `{Collaborators T}
    (P : HydroParams T) (st st' : HydroState T) (S dS_dt d : Vector T)
    (log : list (SolveEvent T)) :
  Mult P st S dS_dt = Done (st', d, log) ->
  map solve_kind log =
    if p_assembly P then replicate (dim P) VelocityPA ++ [EnergyPA]
    else MatrixCG :: map LocalInverse (seq 0 (zones_cnt P)).
Proof.
  unfold Mult. destruct (UpdateQuadratureData P st S) as [st1| |]; cbn -[for_each for_loop];
    try discriminate.
  destruct (p_assembly P).
  - destruct (for_each (seq 0 (dim P)) _ _) as [[M acc]| |] eqn:Evel;
      cbn -[for_each for_loop]; try discriminate.
    apply velocity_pa_kinds in Evel; [|reflexivity]. cbn [acc_log snd map app] in Evel.
    intros [= _ _ <-]. unfold energy_pa. cbn [acc_log].
    rewrite map_app, Evel. reflexivity.
  - cbn -[for_each for_loop]. intros [= _ _ <-].
    rewrite energy_full_kinds. unfold velocity_full.
    destruct (Mv_FormLinearSystem _ _ _) as [[A X] B]. reflexivity.
Qed.

(** With partial assembly the boundary conditions reach the solver: the solve
    number [c] of the evaluation is the conjugate gradient solve of the
    velocity component [c], on the mass operator that holds the essential
    dofs of that component, and its right-hand side is [P^t] of the block [c]
    of [- ForcePA.Mult(one)] with exactly the essential entries set to 0.0. *)
Theorem Mult_velocity_boundary_conditions {T : Type} `{Scalar T} `{Mfem T} `{Collaborators T}
    (P : HydroParams T) (st st' : HydroState T) (S dS_dt d : Vector T)
    (log : list (SolveEvent T)) (c : nat) :
  p_assembly P = true ->
  c < dim P ->
  Mult P st S dS_dt = Done (st', d, log) ->
  exists ev, log !! c = Some ev /\ velocity_solve_of (quad_data st') c ev.
Proof.
  intros Hpa Hc. unfold Mult.
  destruct (UpdateQuadratureData P st S) as [st1| |]; cbn -[for_each for_loop];
    try discriminate.
  rewrite Hpa.
  destruct (for_each (seq 0 (dim P)) _ _) as [[M acc]| |] eqn:Evel;
    cbn -[for_each for_loop]; try discriminate.
  apply velocity_pa_solves in Evel as (Hl & Hev); [|reflexivity]. cbn [snd] in *.
  intros [= <- _ <-]. cbn [quad_data]. unfold energy_pa. cbn [acc_log].
  destruct (Hev c Hc) as (ev & E1 & E2). exists ev. split; [|assumption].
  rewrite lookup_app_l by lia. assumption.
Qed.

(** ** The reference data of the constructor *)

Section ConstructionFacts.
Context {T : Type} `{Scalar T} `{Mfem T} `{Reference T}.

Lemma matrices_index_lt (d n i j k : nat) :
  i < d -> j < d -> k < n -> i + d * (j + d * k) < d * d * n.
Proof.
  intros Hi Hj Hk.
  assert (Ha : d * Datatypes.S k <= d * n) by (apply Nat.mul_le_mono_l; lia).
  assert (Hb : d * Datatypes.S (j + d * k) <= d * (d * n)) by (apply Nat.mul_le_mono_l; lia).
  rewrite Nat.mul_succ_r in Hb. rewrite <- Nat.mul_assoc. lia.
Qed.

Lemma matrices_set_shape (A : DenseTensor T) (d n k i j : nat) (x : T) :
  matrices_shape A d n -> matrices_shape (tensor_set A k i j x) d n.
Proof.
  intros (HI & HJ & HK & HL). unfold matrices_shape, tensor_set. cbn.
  rewrite length_insert. auto.
Qed.

Lemma matrices_get_set (A : DenseTensor T) (d n k i j k' i' j' : nat) (x : T) :
  matrices_shape A d n ->
  i < d -> j < d -> k < n -> i' < d -> j' < d ->
  tensor_get (tensor_set A k i j x) k' i' j' =
    if decide (k' = k /\ i' = i /\ j' = j) then x else tensor_get A k' i' j'.
Proof.
  intros (HI & HJ & HK & HL) Hi Hj Hk Hi' Hj'.
  unfold tensor_get, tensor_set, tensor_index. cbn [tdata SizeI SizeJ SizeK].
  rewrite HI, HJ.
  destruct (decide (k' = k /\ i' = i /\ j' = j)) as [(-> & -> & ->)|Hne].
  - apply vget_insert_eq. rewrite HL. apply matrices_index_lt; assumption.
  - apply vget_insert_ne. intros E.
    apply tensor_index_inj in E as (-> & -> & ->); auto.
Qed.

(** Writing a matrix into the slot [k] changes the entries of the slot [k] and
    no other. *)
Lemma tensor_set_mat_spec (A : DenseTensor T) (d n k : nat) (M : DenseMatrix T) :
  matrices_shape A d n -> k < n ->
  matrices_shape (tensor_set_mat A k M) d n /\
  forall k' r c, k' < n -> r < d -> c < d ->
    tensor_get (tensor_set_mat A k M) k' r c =
      if decide (k' = k) then mat_get M r c else tensor_get A k' r c.
Proof.
  intros Hshape Hk. unfold tensor_set_mat.
  destruct Hshape as (HI & HJ & HK & HL). rewrite HJ.
  assert (Hshape : matrices_shape A d n) by (unfold matrices_shape; auto).
  pose (Outer := fun (g : nat) (B : DenseTensor T) =>
    matrices_shape B d n /\
    forall k' r c, k' < n -> r < d -> c < d ->
      tensor_get B k' r c =
        if decide (k' = k /\ c < g) then mat_get M r c else tensor_get A k' r c).
  pose (Inner := fun (g f : nat) (C : DenseTensor T) =>
    matrices_shape C d n /\
    forall k' r c, k' < n -> r < d -> c < d ->
      tensor_get C k' r c =
        if decide (k' = k /\ (c < g \/ (c = g /\ r < f)))
        then mat_get M r c else tensor_get A k' r c).
  assert (Hinner : forall g B, g < d -> Outer g B ->
            Inner g d (for_loop d (fun i A0 => tensor_set A0 k i g (mat_get M i g)) B)).
  { intros g B Hg (Hs & Hget). apply (for_loop_invariant (Inner g)).
    - split; [assumption|]. intros k' r c Hk' Hr Hc.
      rewrite (Hget k' r c) by assumption.
      destruct (decide (k' = k /\ c < g)) as [(-> & Hlt)|Hn].
      + rewrite decide_True by (split; [reflexivity|lia]). reflexivity.
      + rewrite decide_False by (intros (? & [?|(? & ?)]); [apply Hn; auto|lia]).
        reflexivity.
    - intros f C Hf (Hsc & Hgetc). split; [apply matrices_set_shape; assumption|].
      intros k' r c Hk' Hr Hc.
      rewrite (matrices_get_set C d n) by assumption.
      destruct (decide (k' = k /\ r = f /\ c = g)) as [(-> & -> & ->)|Hne].
      + rewrite decide_True by (split; [reflexivity|right; split; [reflexivity|lia]]).
        reflexivity.
      + rewrite (Hgetc k' r c) by assumption.
        destruct (decide (k' = k /\ (c < g \/ c = g /\ r < f))) as [(-> & Hc')|Hn].
        * rewrite decide_True by (split; [reflexivity|lia]). reflexivity.
        * rewrite decide_False; [reflexivity|].
          intros (-> & [?|(-> & ?)]); [apply Hn; auto|].
          destruct (decide (r = f)) as [->|?]; [apply Hne; auto|].
          apply Hn. split; [reflexivity|right; split; [reflexivity|lia]]. }
  assert (Houter : Outer d (for_loop d (fun j A0 =>
            for_loop (SizeI A0) (fun i A1 => tensor_set A1 k i j (mat_get M i j)) A0) A)).
  { apply (for_loop_invariant Outer).
    - split; [assumption|]. intros k' r c _ _ _.
      rewrite decide_False by lia. reflexivity.
    - intros g B Hg HB. destruct HB as (HsB & HgetB).
      destruct (HsB) as (HIB & _). rewrite HIB.
      destruct (Hinner g B Hg (conj HsB HgetB)) as (Hs' & Hget').
      split; [assumption|]. intros k' r c Hk' Hr Hc.
      rewrite (Hget' k' r c) by assumption.
      destruct (decide (k' = k /\ c < Datatypes.S g)) as [(-> & Hlt)|Hn].
      + rewrite decide_True by (split; [reflexivity|lia]). reflexivity.
      + rewrite decide_False by (intros (? & ?); apply Hn; split; [assumption|lia]).
        reflexivity. }
  destruct Houter as (Hs & Hget). split; [assumption|].
  intros k' r c Hk' Hr Hc. rewrite (Hget k' r c) by assumption.
  destruct (decide (k' = k)) as [->|Hne].
  - rewrite decide_True by auto. reflexivity.
  - rewrite decide_False by tauto. reflexivity.
Qed.

(** The matrix [k] of a tensor, read as a matrix, has the entries of the slot. *)
Lemma tensor_mat_get (A : DenseTensor T) (d n k r c : nat) :
  matrices_shape A d n -> k < n -> r < d -> c < d ->
  mat_shape (tensor_mat A k) d /\
  mat_get (tensor_mat A k) r c = tensor_get A k r c.
Proof.
  intros (HI & HJ & HK & HL) Hk Hr Hc.
  pose proof (index_lt d r c Hr Hc) as Hrc.
  pose proof (matrices_index_lt d n r c k Hr Hc Hk) as Hlt.
  assert (Hslot : k * (d * d) + d * d <= d * d * n).
  { assert (Datatypes.S k * (d * d) <= n * (d * d)) by (apply Nat.mul_le_mono_r; lia).
    cbn in *. lia. }
  unfold tensor_mat, mat_shape, mat_get, mat_index, tensor_get, tensor_index, vget.
  cbn [height width data]. rewrite HI, HJ. split.
  - split; [reflexivity|]. split; [reflexivity|].
    rewrite length_take, length_drop, HL. lia.
  - rewrite lookup_take_lt by assumption. rewrite lookup_drop. f_equal. f_equal. lia.
Qed.

(** Two square matrices with all of their storage and the same entries are
    equal. *)
Lemma mat_ext (A B : DenseMatrix T) (d : nat) :
  mat_shape A d -> mat_shape B d ->
  (forall r c, r < d -> c < d -> mat_get A r c = mat_get B r c) ->
  A = B.
Proof.
  intros (AH & AW & AL) (BH & BW & BL) Hget.
  destruct A as [ah aw al], B as [bh bw bl]. cbn in *. subst.
  f_equal. apply lookup_ext; [congruence|]. intros o Ho. rewrite AL in Ho.
  assert (Hd : d <> 0) by (intros ->; cbn in Ho; lia).
  assert (Hr : o mod d < d) by (apply Nat.mod_upper_bound, Hd).
  assert (Hc : o / d < d) by (apply Nat.Div0.div_lt_upper_bound; exact Ho).
  specialize (Hget (o mod d) (o / d) Hr Hc).
  unfold mat_get, mat_index, vget in Hget. cbn in Hget.
  replace (o mod d + o / d * d) with o in Hget
    by (rewrite (Nat.div_mod_eq o d) at 1; lia).
  destruct (lookup_lt_is_Some_2 al o) as (x & Hx); [lia|].
  destruct (lookup_lt_is_Some_2 bl o) as (y & Hy); [lia|].
  rewrite Hx, Hy in *. cbn in Hget. congruence.
Qed.

(** Round trip: a matrix written into a slot is the matrix read from it. *)
Lemma tensor_mat_set_mat (A : DenseTensor T) (d n k : nat) (M : DenseMatrix T) :
  matrices_shape A d n -> k < n -> mat_shape M d ->
  tensor_mat (tensor_set_mat A k M) k = M.
Proof.
  intros Hs Hk HM.
  destruct (tensor_set_mat_spec A d n k M Hs Hk) as (Hs' & Hget).
  destruct (Nat.eq_dec d 0) as [->|Hd].
  - destruct HM as (MH & MW & ML), Hs' as (HI & HJ & HK & HL).
    unfold tensor_mat. rewrite HI, HJ. destruct M as [mh mw ml]. cbn in *. subst.
    cbn. destruct ml; [reflexivity|discriminate].
  - apply (mat_ext _ _ d); [|assumption|].
    + apply (tensor_mat_get _ d n k 0 0); [assumption|assumption|lia|lia].
    + intros r c Hr Hc.
      destruct (tensor_mat_get _ d n k r c Hs' Hk Hr Hc) as (_ & ->).
      rewrite Hget by assumption. rewrite decide_True by reflexivity. reflexivity.
Qed.

Lemma construction_frame_refl (qd : QuadratureData T) : construction_frame qd qd.
Proof. repeat split. Qed.

Lemma construction_frame_trans (qd1 qd2 qd3 : QuadratureData T) :
  construction_frame qd1 qd2 -> construction_frame qd2 qd3 -> construction_frame qd1 qd3.
Proof. unfold construction_frame. intuition congruence. Qed.

Lemma init_point_spec (x0 : Vector T) (d nzones i q : nat) (qd : QuadratureData T) :
  reference_shape qd d nzones -> i < nzones -> q < nqp ->
  reference_shape (init_point x0 i q qd) d nzones /\
  construction_frame qd (init_point x0 i q qd) /\
  reference_at x0 d (init_point x0 i q qd) i q /\
  forall i' q', i' < nzones -> q' < nqp ->
    reference_at x0 d qd i' q' -> reference_at x0 d (init_point x0 i q qd) i' q'.
Proof.
  intros (Hs & Hl) Hi Hq.
  pose proof (zq_lt _ _ _ Hi Hq) as Hzq.
  destruct (tensor_set_mat_spec (Jac0inv qd) d (nzones * nqp) (i * nqp + q)
              (GetInverseMatrix (Jacobian x0 i q)) Hs Hzq) as (Hs' & Hget).
  unfold init_point, reference_shape, reference_at, construction_frame.
  cbn [Jac0inv rho0DetJ0w set_Jac0inv set_rho0DetJ0w stress Jac stressJinvT rho0DetJ0
       rhoDetJw h0 dt_est].
  split; [split; [assumption|rewrite length_insert; assumption]|].
  split; [repeat split|]. split.
  - split; [apply vget_insert_eq; lia|].
    intros r c Hr Hc. rewrite Hget by assumption.
    rewrite decide_True by reflexivity. reflexivity.
  - intros i' q' Hi' Hq' (Hrho & Hjac).
    destruct (decide (i' * nqp + q' = i * nqp + q)) as [E|Hne].
    + apply zq_inj in E as (-> & ->); [|assumption..]. split.
      * apply vget_insert_eq. lia.
      * intros r c Hr Hc. rewrite Hget by assumption.
        rewrite decide_True by reflexivity. reflexivity.
    + split.
      * rewrite vget_insert_ne by congruence. assumption.
      * intros r c Hr Hc. rewrite Hget by (try assumption; apply zq_lt; assumption).
        rewrite decide_False by assumption. apply Hjac; assumption.
Qed.

(** The loops of the constructor fill the reference data of every point and
    touch no other field. *)
Lemma init_reference_spec (x0 : Vector T) (d nzones : nat) (qd : QuadratureData T) :
  reference_shape qd d nzones ->
  reference_shape (init_reference nzones x0 qd) d nzones /\
  construction_frame qd (init_reference nzones x0 qd) /\
  forall i q, i < nzones -> q < nqp ->
    reference_at x0 d (init_reference nzones x0 qd) i q.
Proof.
  intros Hshape. unfold init_reference.
  pose (Zone := fun (k : nat) (s : QuadratureData T) =>
    reference_shape s d nzones /\ construction_frame qd s /\
    forall i q, i < k -> q < nqp -> i < nzones -> reference_at x0 d s i q).
  assert (HZ : Zone nzones (for_loop nzones (fun i qd1 =>
                 for_loop nqp (fun q qd2 => init_point x0 i q qd2) qd1) qd)).
  { apply (for_loop_invariant Zone).
    - split; [assumption|]. split; [apply construction_frame_refl|]. lia.
    - intros i s Hi (Hs & Hf & Hprev).
      pose (Point := fun (k : nat) (s' : QuadratureData T) =>
        reference_shape s' d nzones /\ construction_frame qd s' /\
        (forall i' q', i' < i -> q' < nqp -> i' < nzones -> reference_at x0 d s' i' q') /\
        (forall q', q' < k -> reference_at x0 d s' i q')).
      assert (HP : Point nqp (for_loop nqp (fun q qd2 => init_point x0 i q qd2) s)).
      { apply (for_loop_invariant Point).
        - split; [assumption|]. split; [assumption|]. split; [assumption|]. lia.
        - intros q s1 Hq (Hs1 & Hf1 & Hprev1 & Hcur1).
          destruct (init_point_spec x0 d nzones i q s1 Hs1 Hi Hq)
            as (Hs2 & Hf2 & Hnew & Hkeep).
          split; [assumption|]. split; [eapply construction_frame_trans; eassumption|].
          split.
          + intros i' q' Hi' Hq' Hn. apply Hkeep; [assumption..|]. apply Hprev1; assumption.
          + intros q' Hq'. destruct (decide (q' = q)) as [->|Hne]; [assumption|].
            apply Hkeep; [assumption|lia|]. apply Hcur1. lia. }
      destruct HP as (Hs' & Hf' & Hprev' & Hcur').
      split; [assumption|]. split; [assumption|].
      intros i' q' Hi' Hq' Hn. destruct (decide (i' = i)) as [->|Hne].
      + apply Hcur'. assumption.
      + apply Hprev'; [lia|assumption..]. }
  destruct HZ as (Hs & Hf & Hall). split; [assumption|]. split; [assumption|].
  intros i q Hi Hq. apply Hall; assumption.
Qed.

Lemma QuadratureData_new_reference_shape (d nzones : nat) (mem : Uninitialised T) :
  reference_shape (QuadratureData_new d nzones nqp mem) d nzones.
Proof.
  unfold reference_shape, matrices_shape, QuadratureData_new, tensor_alloc,
    rho0DetJ0w_alloc, vector_alloc. cbn.
  rewrite !length_map, !length_seq. auto.
Qed.

End ConstructionFacts.


(** ** Conservation of mass *)

Section MassFacts.
Context {T : Type} `{Scalar T} `{Mfem T}.

(** An update leaves the reference fields of the store. *)
Lemma UpdateQuadratureData_frame (P : HydroParams T) (st st' : HydroState T) (S : Vector T) :
  UpdateQuadratureData P st S = Done st' -> frame (quad_data st) (quad_data st').
Proof.
  unfold UpdateQuadratureData. destruct (quad_data_is_current st).
  - intros [= <-]. apply frame_refl.
  - destruct (sweep P S (quad_data st)) as [qd'| |] eqn:E; cbn; try discriminate.
    intros [= <-]. apply sweep_dt_est in E as (Hf & _). exact Hf.
Qed.

End MassFacts.

(** Pointwise conservation of mass, in exact arithmetic (where
    [(a / b) * b = a] for [b <> 0]): at every point of every zone, for every
    state whose determinant at the point is not zero and every store that
    keeps the reference fields of the constructor, as the stores that the
    updates leave do, the density that the update computes satisfies
    [rho * weight * detJ = detJ0 * rho0 * weight]. *)
Theorem mass_is_conserved {T : Type} `{Scalar T} `{Mfem T} `{Reference T}
    (P : HydroParams T) (d nzones : nat) (x0 S : Vector T) (mem : Uninitialised T)
    (qd : QuadratureData T) (i q : nat) :
  (forall a b : T, b <> zero -> mul (div a b) b = a) ->
  i < nzones -> q < nqp ->
  frame (quad_data (constructed d nzones x0 mem)) qd ->
  Weight S i q <> zero -> ip_weight q <> zero ->
  mul (mul (pv_rho (point_values P qd S i q)) (ip_weight q)) (Weight S i q) =
  mul (mul (Weight x0 i q) (rho0_GetValues i q)) (ip_weight q).
Proof.
  intros Hdiv Hi Hq Hf Hdet Hw.
  destruct (init_reference_spec x0 d nzones (QuadratureData_new d nzones nqp mem)
              (QuadratureData_new_reference_shape d nzones mem))
    as (_ & _ & Hall).
  destruct (Hall i q Hi Hq) as (Hrho & _).
  destruct Hf as (_ & _ & _ & _ & _ & Hr & _).
  unfold constructed in Hr. cbn [quad_data] in Hr.
  unfold point_values.
  destruct (CalcEigenvalues (Symmetrize (GetVectorGradient_v S i q))). cbn [pv_rho].
  rewrite Hr, Hrho. rewrite (Hdiv _ _ Hw), (Hdiv _ _ Hdet). reflexivity.
Qed.

(** ** [VisualizeField] *)

Section VisualizeFacts.
Import Visualization.
Variable respond : list SockOp -> SockOp -> socketstream -> socketstream.
Variable received : nat -> bool.
Variables (vishost : String.string) (visport : Z) (title : String.string) (x y w h : Z).
Variable vec : bool.

Lemma count_app (p : SockOp -> bool) (l1 l2 : list SockOp) :
  count p (l1 ++ l2) = count p l1 + count p l2.
Proof. unfold count. rewrite List.filter_app, length_app. reflexivity. Qed.

Lemma count_cons (p : SockOp -> bool) (a : SockOp) (l : list SockOp) :
  count p (a :: l) = (if p a then 1 else 0) + count p l.
Proof. unfold count. cbn [List.filter]. destruct (p a); reflexivity. Qed.

Lemma attempt_log (o : SockOp) (s : VisState) :
  log (attempt respond o s) = log s ++ [o].
Proof. reflexivity. Qed.

Lemma attempt_newly_opened (o : SockOp) (s : VisState) :
  newly_opened (attempt respond o s) = newly_opened s.
Proof. reflexivity. Qed.

Lemma put_all_log (xs : list Item) (s : VisState) :
  log (put_all respond xs s) = log s ++ map Put xs.
Proof.
  unfold put_all. revert s. induction xs as [|a xs IH]; intros s; cbn [fold_left map].
  - rewrite app_nil_r. reflexivity.
  - rewrite IH, attempt_log, <- app_assoc. reflexivity.
Qed.

Lemma put_all_newly_opened (xs : list Item) (s : VisState) :
  newly_opened (put_all respond xs s) = newly_opened s.
Proof.
  unfold put_all. revert s. induction xs as [|a xs IH]; intros s; cbn [fold_left].
  - reflexivity.
  - rewrite IH. reflexivity.
Qed.

Lemma count_window_keys (p : SockOp -> bool) :
  (forall s, p (Put (Str s)) = false) -> (forall n, p (Put (Int n)) = false) ->
  count p (map Put (window_keys title x y w h vec)) = if p (Put Endl) then 1 else 0.
Proof.
  intros Hs Hn. unfold window_keys, count.
  destruct vec; cbn [app map List.filter]; rewrite ?Hs, ?Hn; destruct (p (Put Endl)); reflexivity.
Qed.

(** The log of one pass on rank 0. *)
Definition opening : list SockOp := [Open vishost visport; Precision 8].

Lemma pass_root (n : nat) (s : VisState) :
  let stale := negb (is_open (sock s)) || negb (good (sock s)) in
  let s' := fst (pass respond received vishost visport title x y w h vec 0 n s) in
  newly_opened s' = stale || newly_opened s /\
  log s' = log s ++ (if stale then opening else [])
                 ++ [Put (Str header); PrintAsOne; SaveAsOne]
                 ++ (if stale || newly_opened s
                     then map Put (window_keys title x y w h vec) else []) /\
  snd (pass respond received vishost visport title x y w h vec 0 n s) =
    negb (good (sock s')) && negb (stale || newly_opened s).
Proof.
  cbv zeta. unfold pass. cbn [Nat.eqb andb fst snd].
  destruct (negb (is_open (sock s)) || negb (good (sock s))) eqn:E; cbn [orb].
  - rewrite !attempt_newly_opened. cbn [newly_opened].
    rewrite put_all_newly_opened, put_all_log, !attempt_newly_opened, !attempt_log.
    cbn [newly_opened log opening]. rewrite ?attempt_log.
    repeat split. rewrite <- !app_assoc. reflexivity.
  - rewrite !attempt_newly_opened. destruct (newly_opened s) eqn:En.
    + rewrite put_all_newly_opened, put_all_log, !attempt_newly_opened, !attempt_log, En.
      repeat split. rewrite <- !app_assoc. reflexivity.
    + rewrite !attempt_newly_opened, !attempt_log, En.
      repeat split. rewrite <- !app_assoc, app_nil_r. reflexivity.
Qed.

End VisualizeFacts.

(** On rank 0 the loop of [VisualizeField] ends within two passes, whatever
    the socket answers: the function returns, it has sent the mesh and the
    field once or twice, it has opened the socket at most once, it has sent
    the window set-up exactly as often as it has opened the socket, and it has
    made a second pass only for a socket that was open and good on entry, which
    it has then reopened. *)
Theorem VisualizeField_returns_within_two_passes
    (respond : list Visualization.SockOp -> Visualization.SockOp ->
               Visualization.socketstream -> Visualization.socketstream)
    (received : nat -> bool) (vishost : String.string) (visport : Z)
    (title : String.string) (x y w h : Z) (vec : bool)
    (sock0 : Visualization.socketstream) (fuel : nat) :
  2 <= fuel ->
  exists s,
    Visualization.VisualizeField respond received vishost visport title x y w h vec 0 fuel sock0
      = Some s /\
    1 <= Visualization.count Visualization.is_PrintAsOne (Visualization.log s) <= 2 /\
    Visualization.count Visualization.is_SaveAsOne (Visualization.log s) =
      Visualization.count Visualization.is_PrintAsOne (Visualization.log s) /\
    Visualization.count Visualization.is_Open (Visualization.log s) <= 1 /\
    Visualization.count Visualization.is_Endl (Visualization.log s) =
      Visualization.count Visualization.is_Open (Visualization.log s) /\
    Visualization.newly_opened s =
      Nat.eqb (Visualization.count Visualization.is_Open (Visualization.log s)) 1 /\
    (Visualization.count Visualization.is_PrintAsOne (Visualization.log s) = 2 ->
     Visualization.is_open sock0 && Visualization.good sock0 = true /\
     Visualization.count Visualization.is_Open (Visualization.log s) = 1).
Proof.
  intros Hfuel. destruct fuel as [|[|fuel]]; try lia.
  unfold Visualization.VisualizeField. cbn [Visualization.passes].
  pose proof (pass_root respond received vishost visport title x y w h vec 0
                (Visualization.mkVisState sock0 [] false)) as H1.
  destruct (Visualization.pass respond received vishost visport title x y w h vec 0 0
              (Visualization.mkVisState sock0 [] false)) as [s1 c1].
  cbv zeta in H1. cbn [fst snd Visualization.sock Visualization.log
                        Visualization.newly_opened app] in H1.
  rewrite orb_false_r in H1. destruct H1 as (Hn1 & Hl1 & Hc1).
  destruct c1.
  - (* the stream that the caller kept has failed: a second pass *)
    symmetry in Hc1. apply andb_true_iff in Hc1 as (Hbad & Hstale).
    apply negb_true_iff in Hstale. rewrite Hstale in Hn1, Hl1.
    cbn [app] in Hl1.
    pose proof (pass_root respond received vishost visport title x y w h vec 1 s1) as H2.
    destruct (Visualization.pass respond received vishost visport title x y w h vec 0 1 s1)
      as [s2 c2].
    cbv zeta in H2. cbn [fst snd] in H2. rewrite Hbad, orb_true_r in H2.
    cbn [orb negb] in H2. rewrite andb_false_r in H2. destruct H2 as (Hn2 & Hl2 & ->).
    exists s2. split; [reflexivity|]. rewrite Hl2, Hl1, Hn2.
    unfold opening. cbn [app].
    rewrite ?count_app, ?count_cons, ?count_window_keys by (intros; reflexivity).
    cbn. repeat split; try lia.
    apply orb_false_iff in Hstale as (Ho & Hg).
    apply negb_false_iff in Ho, Hg. rewrite Ho, Hg. reflexivity.
  - exists s1. split; [reflexivity|]. rewrite Hl1, Hn1.
    destruct (negb (Visualization.is_open sock0) || negb (Visualization.good sock0));
      unfold opening; cbn [app];
      rewrite ?count_app, ?count_cons, ?count_window_keys by (intros; reflexivity);
      cbn; repeat split; try lia; intros; lia.
Qed.

(** A socket that is closed or bad on entry is opened once, and on rank 0 the
    function returns after that single pass whatever the server answers: a
    connection that could not be opened is not tried again, and the function
    returns with the stream as the failed attempt left it. *)
Theorem VisualizeField_does_not_retry_a_failed_open
    (respond : list Visualization.SockOp -> Visualization.SockOp ->
               Visualization.socketstream -> Visualization.socketstream)
    (received : nat -> bool) (vishost : String.string) (visport : Z)
    (title : String.string) (x y w h : Z) (vec : bool)
    (sock0 : Visualization.socketstream) (fuel : nat) :
  1 <= fuel ->
  Visualization.is_open sock0 && Visualization.good sock0 = false ->
  exists s,
    Visualization.VisualizeField respond received vishost visport title x y w h vec 0 fuel sock0
      = Some s /\
    Visualization.log s =
      [Visualization.Open vishost visport; Visualization.Precision 8;
       Visualization.Put (Visualization.Str Visualization.header);
       Visualization.PrintAsOne; Visualization.SaveAsOne]
      ++ map Visualization.Put (Visualization.window_keys title x y w h vec) /\
    Visualization.sock s =
      fold_left (fun sk k => respond (firstn k (Visualization.log s))
                                     (nth k (Visualization.log s) Visualization.PrintAsOne) sk)
                (seq 0 (length (Visualization.log s))) sock0.
Proof.
  intros Hfuel Hstale. destruct fuel as [|fuel]; try lia.
  unfold Visualization.VisualizeField. cbn [Visualization.passes].
  assert (negb (Visualization.is_open sock0) || negb (Visualization.good sock0) = true) as E.
  { destruct (Visualization.is_open sock0), (Visualization.good sock0);
      cbn in *; congruence. }
  unfold Visualization.pass. cbn [Nat.eqb andb Visualization.sock]. rewrite E.
  cbn [Visualization.newly_opened Visualization.attempt andb negb].
  rewrite put_all_newly_opened. cbn [Visualization.newly_opened negb].
  rewrite andb_false_r.
  eexists. split; [reflexivity|].
  unfold Visualization.window_keys, Visualization.put_all.
  destruct vec; cbn; split; reflexivity.
Qed.

Section VisualizeOtherRanks.
Import Visualization.
Variable respond : list SockOp -> SockOp -> socketstream -> socketstream.
Variable received : nat -> bool.
Variables (vishost : String.string) (visport : Z) (title : String.string) (x y w h : Z).
Variable vec : bool.
Variable myid : nat.
Hypothesis not_root : myid <> 0.

Lemma pass_other (k : nat) (s : VisState) :
  pass respond received vishost visport title x y w h vec myid k s =
  (attempt respond SaveAsOne (attempt respond PrintAsOne s), received k).
Proof.
  unfold pass. destruct (Nat.eqb_spec myid 0) as [E|_]; [contradiction|]. reflexivity.
Qed.

Lemma passes_other (n fuel k : nat) (s : VisState) :
  (forall j, k <= j < n -> received j = true) -> received n = false ->
  k <= n -> n - k < fuel ->
  exists s',
    passes respond received vishost visport title x y w h vec myid fuel k s = Some s' /\
    log s' = log s ++ concat (replicate (S (n - k)) [PrintAsOne; SaveAsOne]) /\
    newly_opened s' = newly_opened s.
Proof.
  intros Htrue Hfalse. revert k s Htrue.
  induction fuel as [|fuel IH]; intros k s Htrue Hk Hfuel; [lia|].
  cbn [passes]. rewrite pass_other.
  destruct (Nat.eq_dec k n) as [->|Hne].
  - rewrite Hfalse. eexists. split; [reflexivity|].
    rewrite Nat.sub_diag. cbn [replicate concat]. rewrite app_nil_r.
    rewrite !attempt_log, <- app_assoc. split; reflexivity.
  - rewrite (Htrue k) by lia.
    destruct (IH (S k) (attempt respond SaveAsOne (attempt respond PrintAsOne s)))
      as (s' & Hs' & Hl & Hn); [intros; apply Htrue; lia|lia|lia|].
    exists s'. split; [exact Hs'|]. rewrite Hl, Hn, !attempt_log. split; [|reflexivity].
    replace (S (n - k)) with (S (S (n - S k))) by lia.
    cbn [replicate concat]. rewrite <- !app_assoc. reflexivity.
Qed.

End VisualizeOtherRanks.

(** On a rank other than 0 the function does nothing to the socket but take
    part in the collective output: it makes as many passes as rank 0 announces,
    one more than the failures received, each pass is [PrintAsOne] then
    [SaveAsOne], and the socket is never opened nor written to by the function
    itself. *)
Theorem VisualizeField_other_ranks_follow_rank_0
    (respond : list Visualization.SockOp -> Visualization.SockOp ->
               Visualization.socketstream -> Visualization.socketstream)
    (received : nat -> bool) (vishost : String.string) (visport : Z)
    (title : String.string) (x y w h : Z) (vec : bool)
    (sock0 : Visualization.socketstream) (myid n fuel : nat) :
  myid <> 0 ->
  (forall j, j < n -> received j = true) -> received n = false -> n < fuel ->
  exists s,
    Visualization.VisualizeField respond received vishost visport title x y w h vec myid fuel
      sock0 = Some s /\
    Visualization.log s =
      concat (replicate (S n) [Visualization.PrintAsOne; Visualization.SaveAsOne]) /\
    Visualization.newly_opened s = false.
Proof.
  intros Hid Htrue Hfalse Hfuel.
  destruct (passes_other respond received vishost visport title x y w h vec myid Hid n fuel 0
              (Visualization.mkVisState sock0 [] false))
    as (s & Hs & Hl & Hn); [intros; apply Htrue; lia|exact Hfalse|lia|lia|].
  exists s. split; [exact Hs|]. rewrite Nat.sub_0_r in Hl. split; assumption.
Qed.

(** * Concrete runs on binary64

    The statements above, applied to the one-zone mesh of [Rect] with the
    arithmetic of [double], and the runs that separate the code from what the
    specification says of it. *)

Import Rect.

(** The rectangle squeezed to zero width: the determinant is exactly zero. *)
Lemma C2_witness :
  bad_jacobian (UpdateQuadratureData (T := float) (Rect.params true true)
                  (mkHydroState (Rect.store PrimFloat.infinity) false)
                  (Rect.state 0 1 1)%float).
Proof.
  apply (C2_nonpositive_detJ_is_fatal (T := float) (Rect.params true true)
           (mkHydroState (Rect.store PrimFloat.infinity) false)
           (Rect.state 0 1 1)%float (replicate 17 0%float) 0 0);
    [reflexivity | cbn; lia | cbn; lia | vm_compute; reflexivity].
Defined.



(** Entries 0 and 3 of a vector of four are cleared, entries 1 and 2 stay. *)
Lemma C10_witness :
  exists b', EliminateRHS (T := float) (MassPAOperator_new (store 1%float) H1compFESpace)
               [0; 3]%Z [1; 2; 3; 4]%float
             = Some (mkMassPAOperator (store 1%float) H1compFESpace (Some [0; 3]%Z),
                     [0; 3]%Z, b')
             /\ b' = [0; 2; 3; 0]%float.
Proof.
  destruct (C10_EliminateRHS_frame (T := float)
              (MassPAOperator_new (store 1%float) H1compFESpace)
              [0; 3]%Z [1; 2; 3; 4]%float) as (Hdef & _).
  destruct Hdef as (b' & E); [repeat constructor; cbn; lia|].
  exists b'. split; [exact E|].
  vm_compute in E. congruence.
Defined.

(** The unit square with the energy 2, squeezed at the rate 1, with
    artificial viscosity: [mu = -1], [visc_coeff = 3], and the loop computes
    the stress diag(-5, -2); the update stores -1.25 as the first force
    coefficient, and the member [stress] of the store, all 0.0 before the
    update, is all 0.0 after it. *)
Lemma C1_witness :
  let P := params (T := float) true true in
  let S := (squeezed 1 1 2 1)%float in
  let st := mkHydroState (store PrimFloat.infinity) false in
  exists qd',
    @UpdateQuadratureData float Float64 moving P st S = Done (mkHydroState qd' true) /\
    mat_get (pv_stress (@point_values float Float64 moving P (quad_data st) S 0 0)) 0 0
      = (-5)%float /\
    mat_get (pv_stress (@point_values float Float64 moving P (quad_data st) S 0 0)) 1 1
      = (-2)%float /\
    tensor_get (stressJinvT qd') 0 0 0 = (-1.25)%float /\
    stress qd' = tensor_zero 2 2 4.
Proof.
  cbv zeta.
  destruct (@C1_stress_is_computed_and_not_stored float Float64 moving
              (params true true) (mkHydroState (store PrimFloat.infinity) false)
              (squeezed 1 1 2 1)%float)
    as (qd' & E & Hstress & _ & Hpoint).
  - reflexivity.
  - vm_compute. auto.
  - intros i q Hi Hq. vm_compute. reflexivity.
  - intros i q Hi Hq. vm_compute. auto.
  - exists qd'. split; [exact E|].
    destruct (Hpoint 0 0 ltac:(cbn; lia) ltac:(cbn; lia)) as (Hlocal & Hstored).
    split; [refine (eq_trans (Hlocal 0 0 _ _) _); [cbn; lia..|vm_compute; reflexivity]|].
    split; [refine (eq_trans (Hlocal 1 1 _ _) _); [cbn; lia..|vm_compute; reflexivity]|].
    split; [refine (eq_trans (Hstored 0 0 _ _) _); [cbn; lia..|vm_compute; reflexivity]|].
    exact Hstress.
Defined.

(** The estimate 0.125 left in the store by an earlier evaluation, and the
    unit square at rest with energy 2: every candidate is 0.25; the sweep
    keeps 0.125, below which it never goes up. *)
Lemma C5_witness :
  exists st',
    UpdateQuadratureData (T := float) (params true true)
      (mkHydroState (store 0.125%float) false) (state 1 1 2)%float = Done st' /\
    dt_est (quad_data st') = 0.125%float /\
    PrimFloat.ltb 0.125%float (dt_est (quad_data st')) = false.
Proof.
  destruct (C5_time_step_estimate (T := float) (params true true)) as (_ & _ & Hupd & _).
  destruct (UpdateQuadratureData (T := float) (params true true)
              (mkHydroState (store 0.125%float) false) (state 1 1 2)%float)
    as [st'| |] eqn:E; try (vm_compute in E; discriminate).
  exists st'. split; [reflexivity|].
  destruct (Hupd _ _ _ E) as (Hdt & _ & Hle).
  split; [rewrite Hdt; vm_compute; reflexivity|exact Hle].
Defined.

(** C5 as stated fails: the estimate is not reset before an evaluation.  With
    0.125 in the store, the evaluation of a state whose four candidates are
    all 0.25 ends with the estimate 0.125; had the estimate been reset to
    +infinity before the evaluation, the minimum over the sweep would be
    0.25. *)
Lemma C5_counterexample :
  let P := params (T := float) true true in
  let S := (state 1 1 2)%float in
  exists st',
    UpdateQuadratureData P (mkHydroState (store 0.125%float) false) S = Done st' /\
    candidates P (store 0.125%float) S = [0.25; 0.25; 0.25; 0.25]%float /\
    fold_left fmin (candidates P (store 0.125%float) S) PrimFloat.infinity = 0.25%float /\
    dt_est (quad_data st') = 0.125%float /\
    PrimFloat.ltb (dt_est (quad_data st')) 0.25%float = true.
Proof.
  cbv zeta. eexists. split; [vm_compute; reflexivity|].
  repeat split; vm_compute; reflexivity.
Qed.

(** The unit square with the energy value -1: clamped to 0, the sound speed is
    0, the candidate 0.5 * 1 / 0 is +infinity and the estimate 1 stays. *)
Lemma C7_witness :
  let pv := point_values (T := float) (params true true) (store 1%float)
              (state 1 1 (-1))%float 0 0 in
  pv_e pv = 0%float /\ pv_dt_candidate pv = PrimFloat.infinity /\
  exists qd', update_point (T := float) (params true true) (state 1 1 (-1))%float 0 0
                (store 1%float) = Done qd' /\ dt_est qd' = 1%float.
Proof.
  cbv zeta.
  destruct (C7_zero_energy_candidate (T := float) (params true true) (store 1%float)
              (state 1 1 (-1))%float 0 0) as (He & _ & _ & Hc & Hupd);
    [vm_compute; reflexivity..|].
  split; [exact He|]. split; [exact Hc|exact Hupd].
Defined.

(** C7 as stated fails: the division by zero is performed.  At the energy
    value 0 the divisor [sound_speed] is 0.0, and the candidate is the
    quotient 0.5 / 0.0, which IEEE arithmetic makes +infinity. *)
Lemma C7_counterexample :
  let P := params (T := float) true true in
  let S := (state 1 1 0)%float in
  let pv := point_values P (store 1%float) S 0 0 in
  PrimFloat.leb (GetValues_e S 0 0) 0%float = true /\
  divides_by_zero pv /\
  pv_dt_candidate pv = PrimFloat.div (PrimFloat.mul (cfl P) (pv_h pv)) 0%float /\
  PrimFloat.mul (cfl P) (pv_h pv) = 0.5%float /\
  pv_dt_candidate pv = PrimFloat.infinity.
Proof.
  cbv zeta. unfold divides_by_zero. repeat split; vm_compute; reflexivity.
Qed.

(** With partial assembly, on the unit square: the last solve is the
    conjugate gradient solve of the energy system, at 1e-8, 0 and 200. *)
Lemma C6_witness :
  exists st' d log0 cg rhs de,
    Mult (T := float) (params true true) (mkHydroState (store PrimFloat.infinity) false)
      (state 1 1 2)%float (replicate 17 0%float)
    = Done (st', d, log0 ++ [CgMult cg rhs de]) /\
    is_energy_cg (CgMult cg rhs de) = true /\
    cg_settings (CgMult cg rhs de) = Some (0x1.5798ee2308c3ap-27, 0, 200%Z)%float.
Proof.
  destruct (Mult (T := float) (params true true)
              (mkHydroState (store PrimFloat.infinity) false)
              (state 1 1 2)%float (replicate 17 0%float))
    as [[[st' d] log]| |] eqn:E; try (vm_compute in E; discriminate).
  destruct (C6_energy_solve (T := float) _ _ _ _ _ _ _ E) as (_ & Hpa & _).
  destruct (Hpa eq_refl) as (log0 & de & Hlog & _).
  exists st', d, log0. do 3 eexists. rewrite Hlog.
  split; [reflexivity|]. split; reflexivity.
Defined.

(** C6 as stated fails: without partial assembly the evaluation makes one
    conjugate gradient solve, for the velocity, on the matrix of
    [FormLinearSystem]; the energy is solved by the local inverse mass matrix
    of the zone, and no conjugate gradient solve of the energy system is
    made. *)
Lemma C6_counterexample :
  exists st' d cg B X e_rhs,
    Mult (T := float) (params true false) (mkHydroState (store PrimFloat.infinity) false)
      (state 1 1 2)%float (replicate 17 0%float)
    = Done (st', d, [CgMult cg B X; DenseInverseMult 0 e_rhs]) /\
    existsb is_energy_cg [CgMult cg B X; DenseInverseMult 0 e_rhs] = false.
Proof.
  do 6 eexists. split; [vm_compute; reflexivity|]. reflexivity.
Qed.

(** The first evaluation on the unit square: the coefficient of the point 0
    becomes -0.5 = stress * Jinv^t * weight * detJ = -2 * 1 * 0.25 * 1. *)
Lemma C8_witness :
  exists qd',
    UpdateQuadratureData (T := float) (params true true)
      (mkHydroState (store PrimFloat.infinity) false) (state 1 1 2)%float
    = Done (mkHydroState qd' true) /\
    tensor_get (stressJinvT qd') 0 0 0 = (-0.5)%float /\
    Jac0inv qd' = identities 4.
Proof.
  destruct (C8_update_writes (T := float) (params true true)
              (mkHydroState (store PrimFloat.infinity) false) (state 1 1 2)%float)
    as (_ & Hrun).
  destruct Hrun as (qd' & E & Hfresh & _ & Hj & _).
  - reflexivity.
  - vm_compute. auto.
  - intros i q Hi Hq. vm_compute. reflexivity.
  - exists qd'. split; [exact E|]. split; [|exact Hj].
    refine (eq_trans (Hfresh 0 0 0 0 _ _ _ _) _); [cbn; lia..|].
    vm_compute. reflexivity.
Defined.

(** C8 as stated fails: a call that finds the flag up recomputes nothing.  The
    store still holds the coefficient 0 at the point 0, where the state at
    hand gives -0.5, and the call returns the operator as it was. *)
Lemma C8_counterexample :
  let P := params (T := float) true true in
  let S := (state 1 1 2)%float in
  let st := mkHydroState (store 1%float) true in
  UpdateQuadratureData P st S = Done st /\
  tensor_get (stressJinvT (quad_data st)) 0 0 0 = 0%float /\
  mat_get (pv_stressJiT (point_values P (quad_data st) S 0 0)) 0 0 = (-0.5)%float.
Proof.
  cbv zeta. repeat split; vm_compute; reflexivity.
Qed.

(** Two segments over the integers, the coefficients 3 and 5: the force of the
    energies (1, 2) on the three nodes is (-3, -7, 10), and both dot products
    are 927. *)
Lemma C3_witness :
  ForcePA.dot (ForcePA.Mult ForcePA.two_segments ForcePA.two_segments_data [1; 2]%Z)
              [1; 10; 100]%Z = 927%Z /\
  ForcePA.dot [1; 2]%Z
              (ForcePA.MultTranspose ForcePA.two_segments ForcePA.two_segments_data
                 [1; 10; 100]%Z) = 927%Z.
Proof.
  destruct (C3_force_operator_adjoint (T := Z) ForcePA.two_segments
              ForcePA.two_segments_data) as (Hadj & _).
  - intros z Hz. cbn in Hz. destruct z as [|[|z]]; [| |lia];
      cbn; repeat split; repeat constructor.
  - split; [|rewrite <- (Hadj [1; 2]%Z [1; 10; 100]%Z eq_refl eq_refl)];
      vm_compute; reflexivity.
Defined.

(** ** Runs for the further properties *)

(** The indices 3, 0, 3 and the indices 0, 3 clear the same entries. *)
Lemma EliminateRHS_order_irrelevant_witness :
  exists b1 b2,
    zero_entries (T := float) [3; 0; 3]%Z [1; 2; 3; 4]%float = Some b1 /\
    zero_entries (T := float) [0; 3]%Z [1; 2; 3; 4]%float = Some b2 /\ b1 = b2.
Proof.
  exists [0; 2; 3; 0]%float, [0; 2; 3; 0]%float.
  split; [reflexivity|]. split; [reflexivity|].
  apply (EliminateRHS_order_irrelevant (T := float)
           (MassPAOperator_new (store 1%float) H1compFESpace)
           (MassPAOperator_new (store 1%float) H1compFESpace)
           (mkMassPAOperator (store 1%float) H1compFESpace (Some [3; 0; 3]%Z))
           (mkMassPAOperator (store 1%float) H1compFESpace (Some [0; 3]%Z))
           [3; 0; 3]%Z [0; 3]%Z [3; 0; 3]%Z [0; 3]%Z [1; 2; 3; 4]%float).
  - intros d. rewrite !elem_of_cons, !elem_of_nil. tauto.
  - reflexivity.
  - reflexivity.
Defined.

(** A second elimination of the entries 0 and 3 changes nothing. *)
Lemma EliminateRHS_idempotent_witness :
  EliminateRHS (T := float) (mkMassPAOperator (store 1%float) H1compFESpace (Some [0; 3]%Z))
    [0; 3]%Z [0; 2; 3; 0]%float
  = Some (mkMassPAOperator (store 1%float) H1compFESpace (Some [0; 3]%Z),
          [0; 3]%Z, [0; 2; 3; 0]%float).
Proof.
  apply (EliminateRHS_idempotent (T := float)
           (MassPAOperator_new (store 1%float) H1compFESpace) _ [0; 3]%Z _ [1; 2; 3; 4]%float).
  reflexivity.
Defined.

(** Two zones, the second squeezed to zero width: the four points of the first
    zone pass, and the fault reported is the determinant 0 of the first point
    of the second zone. *)
Lemma first_bad_point_is_reported_witness :
  @UpdateQuadratureData float Float64 Strip.mfem (Strip.params true true)
    (mkHydroState (Strip.store 1%float) false) (Strip.state 0 1 1 1 2 2)%float
  = BadJacobianDeterminant 0%float.
Proof.
  refine (eq_trans
            (@first_bad_point_is_reported float Float64 Strip.mfem (Strip.params true true)
               (mkHydroState (Strip.store 1%float) false) (Strip.state 0 1 1 1 2 2)%float 1 0
               _ _ _ _ _) _); [| | | | |vm_compute; reflexivity].
  - reflexivity.
  - cbn. lia.
  - cbn. lia.
  - intros i' q' Hi' Hq' [Hlt|(-> & Hlt)]; [|lia].
    assert (i' = 0) as -> by lia. vm_compute. reflexivity.
  - vm_compute. reflexivity.
Defined.

(** Two zones with the candidates 0.125 and 0.5 and the estimate 1 in the
    store: the estimate becomes 0.125, and no candidate is below it. *)
Lemma estimate_is_minimum_witness :
  exists st',
    @UpdateQuadratureData float Float64 Strip.mfem (Strip.params true true)
      (mkHydroState (Strip.store 1%float) false) (Strip.state 0 1 3 1 8 2)%float = Done st' /\
    dt_est (quad_data st') = 0.125%float /\
    PrimFloat.ltb 0.5%float (dt_est (quad_data st')) = false.
Proof.
  destruct (@UpdateQuadratureData float Float64 Strip.mfem (Strip.params true true)
              (mkHydroState (Strip.store 1%float) false) (Strip.state 0 1 3 1 8 2)%float)
    as [st'| |] eqn:E; try (vm_compute in E; discriminate).
  exists st'. split; [reflexivity|].
  destruct (@estimate_is_minimum float Float64 _ Strip.mfem (Strip.params true true)
              (mkHydroState (Strip.store 1%float) false) st'
              (Strip.state 0 1 3 1 8 2)%float eq_refl E) as (Hlow & _).
  split.
  - vm_compute in E. injection E as <-. reflexivity.
  - apply Hlow. vm_compute. right. right. right. right. left. reflexivity.
Defined.

(** On the unit square: the estimate 0.25 asked for one state is returned
    again for a state of another energy, until [Mult] has run. *)
Lemma memo_is_not_keyed_on_the_state_witness :
  exists st1,
    GetTimeStepEstimate (T := float) (params true true)
      (mkHydroState (store PrimFloat.infinity) false) (state 1 1 2)%float
    = Done (st1, 0.25%float) /\
    GetTimeStepEstimate (T := float) (params true true) st1 (state 1 1 8)%float
    = Done (st1, 0.25%float).
Proof.
  destruct (GetTimeStepEstimate (T := float) (params true true)
              (mkHydroState (store PrimFloat.infinity) false) (state 1 1 2)%float)
    as [[st1 dt]| |] eqn:E; try (vm_compute in E; discriminate).
  assert (dt = 0.25%float) as -> by (vm_compute in E; congruence).
  exists st1. split; [reflexivity|].
  destruct (memo_is_not_keyed_on_the_state (T := float) _ _ _ _ _ E) as (Hagain & _).
  apply Hagain.
Defined.

(** On two zones: the update, the flag lowered, the update of the same state
    again: the same store. *)
Lemma reevaluation_reproduces_the_store_witness :
  exists st1,
    @UpdateQuadratureData float Float64 Strip.mfem (Strip.params true true)
      (mkHydroState (Strip.store 1%float) false) (Strip.state 0 1 3 1 8 2)%float = Done st1 /\
    @UpdateQuadratureData float Float64 Strip.mfem (Strip.params true true)
      (mkHydroState (quad_data st1) false) (Strip.state 0 1 3 1 8 2)%float = Done st1.
Proof.
  destruct (@UpdateQuadratureData float Float64 Strip.mfem (Strip.params true true)
              (mkHydroState (Strip.store 1%float) false) (Strip.state 0 1 3 1 8 2)%float)
    as [st1| |] eqn:E; try (vm_compute in E; discriminate).
  exists st1. split; [reflexivity|].
  apply (@reevaluation_reproduces_the_store float Float64 _ Strip.mfem (Strip.params true true)
           (mkHydroState (Strip.store 1%float) false)); [reflexivity| | |exact E].
  - vm_compute. auto.
  - intros i q Hi Hq. cbn in Hi. destruct i as [|[|i]]; [| |lia]; vm_compute; reflexivity.
Defined.

(** On the unit square, whose position block has eight entries: the first
    eight entries of the derivative are the velocity block of the state. *)
Lemma Mult_position_derivative_witness :
  exists st' d log,
    Mult (T := float) (params true true) (mkHydroState (store PrimFloat.infinity) false)
      (state 1 1 2)%float (replicate 17 0%float) = Done (st', d, log) /\
    length d = 17 /\ take 8 d = replicate 8 0%float.
Proof.
  destruct (Mult (T := float) (params true true)
              (mkHydroState (store PrimFloat.infinity) false)
              (state 1 1 2)%float (replicate 17 0%float))
    as [[[st' d] log]| |] eqn:E; try (vm_compute in E; discriminate).
  exists st', d, log. split; [reflexivity|].
  destruct (Mult_position_derivative (T := float) (params true true)
              (mkHydroState (store PrimFloat.infinity) false) st'
              (state 1 1 2)%float (replicate 17 0%float) d log) as (HL & Hx);
    [cbn; lia|cbn; lia|exact E|].
  split; [exact HL|exact Hx].
Defined.

(** With partial assembly on the unit square (dimension 2): the solve number
    0 is the conjugate gradient solve of the x component, with the entries 0
    and 3 of its right-hand side at 0.0. *)
Lemma Mult_velocity_boundary_conditions_witness :
  exists st' d log ev,
    Mult (T := float) (params true true) (mkHydroState (store PrimFloat.infinity) false)
      (state 1 1 2)%float (replicate 17 0%float) = Done (st', d, log) /\
    log !! 0 = Some ev /\ velocity_solve_of (quad_data st') 0 ev.
Proof.
  destruct (Mult (T := float) (params true true)
              (mkHydroState (store PrimFloat.infinity) false)
              (state 1 1 2)%float (replicate 17 0%float))
    as [[[st' d] log]| |] eqn:E; try (vm_compute in E; discriminate).
  destruct (Mult_velocity_boundary_conditions (T := float) (params true true)
              (mkHydroState (store PrimFloat.infinity) false) st'
              (state 1 1 2)%float (replicate 17 0%float) d log 0) as (ev & E1 & E2);
    [reflexivity|cbn; lia|exact E|].
  exists st', d, log, ev. auto.
Defined.

(** Without partial assembly on the two zones: one conjugate gradient solve
    and the local inverses of the zones 0 and 1. *)
Lemma Mult_solve_sequence_witness :
  exists st' d log,
    @Mult float Float64 Strip.mfem Rect.collab (Strip.params true false)
      (mkHydroState (Strip.store 1%float) false) (Strip.state 0 1 3 1 8 2)%float
      (replicate 26 0%float) = Done (st', d, log) /\
    map solve_kind log = [MatrixCG; LocalInverse 0; LocalInverse 1].
Proof.
  destruct (@Mult float Float64 Strip.mfem Rect.collab (Strip.params true false)
              (mkHydroState (Strip.store 1%float) false) (Strip.state 0 1 3 1 8 2)%float
              (replicate 26 0%float))
    as [[[st' d] log]| |] eqn:E; try (vm_compute in E; discriminate).
  exists st', d, log. split; [reflexivity|].
  exact (@Mult_solve_sequence float Float64 Strip.mfem Rect.collab _ _ _ _ _ _ _ E).
Defined.

Import Exact.

(** The rationals: a quotient times its divisor is the dividend. *)
Lemma Qc_div_mul (a b : Exact.Qc) : b <> zero -> mul (div a b) b = a.
Proof.
  cbn. intros Hb. unfold Qcanon.Qcdiv.
  rewrite <- Qcanon.Qcmult_assoc, Qcanon.Qcmult_inv_l by exact Hb.
  apply Qcanon.Qcmult_1_r.
Qed.

(** Over the rationals: the unit square built with the density 1 and then
    stretched to the width 2: the density is 1/2, and 1/2 * 1/4 * 2 is the
    1 * 1 * 1/4 of the reference configuration. *)
Lemma mass_is_conserved_witness :
  let x0 := state (T := Exact.Qc) one one two in
  let S := state (T := Exact.Qc) two one two in
  let qd := quad_data (@constructed Exact.Qc Qc_scalar Rect.mfem Exact.unit_density 2 1 x0
               (Rect.zeroed one zero)) in
  mul (mul (pv_rho (point_values (params true true) qd S 0 0)) (ip_weight 0)) (Weight S 0 0)
  = mul (mul (Weight x0 0 0) one) (ip_weight 0) /\
  pv_rho (point_values (params true true) qd S 0 0) = half.
Proof.
  cbv zeta. split.
  - refine (eq_trans (@mass_is_conserved Exact.Qc Qc_scalar Rect.mfem Exact.unit_density
             (params true true) 2 1 (state one one two) (state two one two)
             (Rect.zeroed one zero)
             (quad_data (@constructed Exact.Qc Qc_scalar Rect.mfem Exact.unit_density 2 1
                           (state one one two) (Rect.zeroed one zero))) 0 0 _ _ _ _ _ _) _);
      [| | | | | | reflexivity].
    + exact Qc_div_mul.
    + lia.
    + cbn. lia.
    + apply frame_refl.
    + intros E. apply (f_equal Qcanon.this) in E. vm_compute in E. discriminate.
    + intros E. apply (f_equal Qcanon.this) in E. vm_compute in E. discriminate.
  - apply Qcanon.Qc_is_canon. vm_compute. reflexivity.
Defined.


(** A kept stream whose server was lost: the first pass fails at its writes,
    the second reopens the socket and sends the window set-up. *)
Lemma VisualizeField_returns_within_two_passes_witness :
  exists s,
    Visualization.VisualizeField Visualization.lost_server (fun _ => false)
      Visualization.localhost 19916 Visualization.density_title 0 0 400 400 false 0 2
      (Visualization.mksocketstream true true) = Some s /\
    Visualization.count Visualization.is_PrintAsOne (Visualization.log s) = 2 /\
    Visualization.count Visualization.is_Open (Visualization.log s) = 1 /\
    Visualization.count Visualization.is_Endl (Visualization.log s) = 1.
Proof.
  destruct (VisualizeField_returns_within_two_passes Visualization.lost_server (fun _ => false)
              Visualization.localhost 19916 Visualization.density_title 0 0 400 400 false
              (Visualization.mksocketstream true true) 2 ltac:(lia))
    as (s & Hs & _).
  exists s. split; [exact Hs|].
  vm_compute in Hs. injection Hs as <-. vm_compute. repeat split.
Defined.

(** No server: the connection is refused, and the function returns after one
    pass with the stream closed and bad. *)
Lemma VisualizeField_does_not_retry_a_failed_open_witness :
  exists s,
    Visualization.VisualizeField Visualization.no_server (fun _ => false)
      Visualization.localhost 19916 Visualization.density_title 0 0 400 400 true 0 5
      (Visualization.mksocketstream false false) = Some s /\
    Visualization.count Visualization.is_Open (Visualization.log s) = 1 /\
    Visualization.sock s = Visualization.mksocketstream false false.
Proof.
  destruct (VisualizeField_does_not_retry_a_failed_open Visualization.no_server (fun _ => false)
              Visualization.localhost 19916 Visualization.density_title 0 0 400 400 true
              (Visualization.mksocketstream false false) 5 ltac:(lia) ltac:(reflexivity))
    as (s & Hs & Hl & Hk).
  exists s. split; [exact Hs|]. rewrite Hk, Hl. vm_compute. split; reflexivity.
Defined.

(** Rank 1, with one failure announced by rank 0: two passes. *)
Lemma VisualizeField_other_ranks_follow_rank_0_witness :
  exists s,
    Visualization.VisualizeField Visualization.lost_server (fun k => Nat.eqb k 0)
      Visualization.localhost 19916 Visualization.density_title 0 0 400 400 false 1 2
      (Visualization.mksocketstream true true) = Some s /\
    Visualization.log s =
      [Visualization.PrintAsOne; Visualization.SaveAsOne;
       Visualization.PrintAsOne; Visualization.SaveAsOne].
Proof.
  destruct (VisualizeField_other_ranks_follow_rank_0 Visualization.lost_server
              (fun k => Nat.eqb k 0)
              Visualization.localhost 19916 Visualization.density_title 0 0 400 400 false
              (Visualization.mksocketstream true true) 1 1 2)
    as (s & Hs & Hl & _).
  - lia.
  - intros j Hj. assert (j = 0) as -> by lia. reflexivity.
  - reflexivity.
  - lia.
  - exists s. split; [exact Hs|exact Hl].
Defined.
